(** * The inode layer of the file system (filesys/inode.c, EFILESYS build)

    A shallow embedding of the inode subsystem: offset translation over a
    chained allocation table, file growth, chunked sector reads and
    writes, and the life cycle of in-memory inodes.

    Conventions.
    - [off_t] and [int] values are integers in [Z]; C's signed division
      and remainder are [Z.quot] and [Z.rem]; signed overflow is undefined
      in C and is not modelled.
    - [disk_sector_t] and [cluster_t] are unsigned 32-bit: arithmetic that
      produces them is wrapped with [wrap32].
    - The machine state (device, allocation table, kernel heap, the list
      of open inodes) is one record [world], threaded explicitly.  A
      failed [ASSERT] (kernel panic) or a dereference of a pointer that
      is not live is the result [None]. *)

From stdpp Require Import gmap list.
From Stdlib Require Import ZArith Lia.

Local Open Scope Z_scope.

(** ** Constants and machine integers *)

Definition DISK_SECTOR_SIZE : Z := 512.
Definition INODE_MAGIC : Z := 0x494e4f44.

Definition wrap32 (z : Z) : Z := z mod 2 ^ 32.

(** The value of [(disk_sector_t) -1]. *)
Definition SECTOR_NONE : Z := wrap32 (-1).

(** Two's complement reading of an unsigned 32-bit value. *)
Definition signed32 (z : Z) : Z := if z <? 2 ^ 31 then z else z - 2 ^ 32.

(** ** Sectors and the on-disk inode *)

Abbreviation block := (list Z).

Definition sector_size : nat := 512.

(** [static char zeros[DISK_SECTOR_SIZE]] *)
Definition zeros : block := replicate sector_size 0.

Definition le32 (n : Z) : list Z :=
  [n mod 256; (n / 256) mod 256; (n / 65536) mod 256; (n / 16777216) mod 256].

Definition from_le32 (b : list Z) : Z :=
  nth 0 b 0 + 256 * nth 1 b 0 + 65536 * nth 2 b 0 + 16777216 * nth 3 b 0.

(** [struct inode_disk]; [unused] is kept as its 500 raw bytes. *)
Record inode_disk := mk_inode_disk {
  id_start : Z;
  id_length : Z;
  id_magic : Z;
  id_unused : list Z
}.

Definition encode_inode_disk (d : inode_disk) : block :=
  le32 (id_start d) ++ le32 (wrap32 (id_length d)) ++ le32 (id_magic d)
    ++ resize 500 0 (id_unused d).

Definition decode_inode_disk (b : block) : inode_disk :=
  {| id_start := from_le32 (take 4 b);
     id_length := signed32 (from_le32 (take 4 (drop 4 b)));
     id_magic := from_le32 (take 4 (drop 8 b));
     id_unused := resize 500 0 (drop 12 b) |}.

(** [struct inode]; the list element [elem] is the membership of the
    inode's address in [open_inodes]. *)
Record inode := mk_inode {
  sector : Z;
  open_cnt : Z;
  removed : bool;
  deny_write_cnt : Z;
  data : inode_disk
}.

Definition set_open_cnt (n : Z) (i : inode) : inode :=
  {| sector := sector i; open_cnt := n; removed := removed i;
     deny_write_cnt := deny_write_cnt i; data := data i |}.

Definition set_removed (b : bool) (i : inode) : inode :=
  {| sector := sector i; open_cnt := open_cnt i; removed := b;
     deny_write_cnt := deny_write_cnt i; data := data i |}.

Definition set_deny_write_cnt (n : Z) (i : inode) : inode :=
  {| sector := sector i; open_cnt := open_cnt i; removed := removed i;
     deny_write_cnt := n; data := data i |}.

Definition set_length (n : Z) (i : inode) : inode :=
  {| sector := sector i; open_cnt := open_cnt i; removed := removed i;
     deny_write_cnt := deny_write_cnt i;
     data := {| id_start := id_start (data i); id_length := n;
                id_magic := id_magic (data i);
                id_unused := id_unused (data i) |} |}.

(** ** The machine state *)

Abbreviation addr := positive.

(** Calls to the device and to the chain allocator, in program order. *)
Inductive event :=
| DiskRead (s : Z)
| DiskWrite (s : Z) (b : block)
| FatCreateChain (clst res : Z)
| FatRemoveChain (clst pclst : Z).

Record world := mk_world {
  disk : gmap Z block;          (* filesys_disk *)
  fat : gmap Z Z;               (* fat_fs->fat: entries of clusters in use *)
  fat_length : Z;               (* fat_fs->fat_length *)
  heap : gmap addr inode;       (* live [struct inode] objects *)
  open_inodes : list addr;      (* the list [open_inodes] *)
  pool : list addr;             (* kernel memory still free *)
  trace : list event
}.

Definition set_disk (d : gmap Z block) (w : world) : world :=
  mk_world d (fat w) (fat_length w) (heap w) (open_inodes w) (pool w) (trace w).
Definition set_fat (f : gmap Z Z) (w : world) : world :=
  mk_world (disk w) f (fat_length w) (heap w) (open_inodes w) (pool w) (trace w).
Definition set_heap (h : gmap addr inode) (w : world) : world :=
  mk_world (disk w) (fat w) (fat_length w) h (open_inodes w) (pool w) (trace w).
Definition set_open_inodes (l : list addr) (w : world) : world :=
  mk_world (disk w) (fat w) (fat_length w) (heap w) l (pool w) (trace w).
Definition set_pool (p : list addr) (w : world) : world :=
  mk_world (disk w) (fat w) (fat_length w) (heap w) (open_inodes w) p (trace w).
Definition emit (e : event) (w : world) : world :=
  mk_world (disk w) (fat w) (fat_length w) (heap w) (open_inodes w) (pool w)
    (trace w ++ [e]).

(** *** Block device: whole-sector transfers *)

(** Modelled from the spec: devices/disk.c is not among the sources.  The
    device reads one whole sector by number; a sector that was never
    written reads as zeros. *)
Definition disk_read (s : Z) (w : world) : block * world :=
  (resize sector_size 0 (default [] (disk w !! s)), emit (DiskRead s) w).

(** Modelled from the spec: devices/disk.c is not among the sources.  The
    device writes one whole sector by number, taking [DISK_SECTOR_SIZE]
    bytes from the buffer. *)
Definition disk_write (s : Z) (b : block) (w : world) : world :=
  let b' := resize sector_size 0 b in
  emit (DiskWrite s b') (set_disk (<[s := b']> (disk w)) w).

(** *** Kernel allocator *)

(** Modelled from the spec: threads/malloc.c is not among the sources; the
    spec only says that an allocation either yields an in-memory object or
    fails with a null result.  [pool] lists the addresses that can still
    be handed out: [malloc] takes the first one and fails on an empty
    pool. *)
Definition malloc (w : world) : option addr * world :=
  match pool w with
  | [] => (None, w)
  | a :: p => (Some a, set_pool p w)
  end.

(** Modelled from the spec: threads/malloc.c is not among the sources;
    [free] gives the address back to the pool. *)
Definition free (a : addr) (w : world) : world := set_pool (a :: pool w) w.

(** [free (bounce)] where [bounce] may be null. *)
Definition free_opt (b : option addr) (w : world) : world :=
  match b with Some a => free a w | None => w end.

(** *** Chain allocator

    filesys/fat.c is not among the sources.  The spec describes a table
    mapping each allocation unit to the next unit of its chain or to a
    terminator, with three operations: allocate-and-append, follow-next
    and free-chain.  Here a cluster is free when it has no entry in
    [fat], and clusters are numbered from 1 to [fat_length - 1]. *)

(** Modelled from the spec: the terminator of a chain in filesys/fat.h,
    which is not among the sources. *)
Definition EOChain : Z := 0x0FFFFFFF.

(** Modelled from the spec: follow-next of filesys/fat.c, the table entry
    of [clst] (0 for a free cluster). *)
Definition fat_get (f : gmap Z Z) (clst : Z) : Z := default 0 (f !! clst).

(** Modelled from the spec: the search for a free unit inside
    allocate-and-append of filesys/fat.c; the lowest free cluster number
    is taken. *)
Definition find_free (f : gmap Z Z) (n : Z) : option Z :=
  snd <$> list_find (λ c, f !! c = None) (seqZ 1 (n - 1)).

(** Modelled from the spec: allocate-and-append of filesys/fat.c.  A free
    cluster becomes the end of a chain and, unless [clst] is 0, the
    successor of [clst]; the result is 0 when no cluster is free. *)
Definition fat_create_chain (clst : Z) (w : world) : Z * world :=
  match find_free (fat w) (fat_length w) with
  | None => (0, emit (FatCreateChain clst 0) w)
  | Some c =>
      let f1 := <[c := EOChain]> (fat w) in
      let f2 := if clst =? 0 then f1 else <[clst := c]> f1 in
      (c, emit (FatCreateChain clst c) (set_fat f2 w))
  end.

(** Modelled from the spec: the walk of free-chain of filesys/fat.c, which
    frees [clst] and its successors up to the end of the chain. *)
Fixpoint free_chain (n : nat) (f : gmap Z Z) (clst : Z) : gmap Z Z :=
  match n with
  | O => f
  | S n' =>
      match f !! clst with
      | None => f
      | Some next => free_chain n' (delete clst f) next
      end
  end.

(** Modelled from the spec: free-chain of filesys/fat.c; with a non-zero
    [pclst] that cluster becomes the end of its chain. *)
Definition fat_remove_chain (clst pclst : Z) (w : world) : world :=
  let f1 := free_chain (size (fat w)) (fat w) clst in
  let f2 := if pclst =? 0 then f1 else <[pclst := EOChain]> f1 in
  emit (FatRemoveChain clst pclst) (set_fat f2 w).

(** ** The inode operations *)

Section Inode.

(** Declared in filesys/fat.h, which is not among the sources: the number
    of sectors of a cluster and the two address conversions. *)
Variable SECTORS_PER_CLUSTER : Z.
Variable cluster_to_sector : Z → Z.
Variable sector_to_cluster : Z → Z.

Definition inode_length (ino : inode) : Z := id_length (data ino).

Definition inode_get_inumber (ino : inode) : Z := sector ino.

Definition bytes_to_sectors (size : Z) : Z :=
  (size + DISK_SECTOR_SIZE - 1) ÷ DISK_SECTOR_SIZE.

(** [byte_to_sector]: the [for] loop applies [fat_get] [nth_cluster] times
    (no time at all when [nth_cluster <= 0]). *)
Definition byte_to_sector (f : gmap Z Z) (ino : inode) (pos : Z) : Z :=
  if pos >? id_length (data ino) then SECTOR_NONE
  else
    let nth_cluster := pos ÷ DISK_SECTOR_SIZE ÷ SECTORS_PER_CLUSTER in
    let clst :=
      Nat.iter (Z.to_nat nth_cluster) (fat_get f)
        (sector_to_cluster (id_start (data ino))) in
    let clst_ofs := pos - nth_cluster * SECTORS_PER_CLUSTER * DISK_SECTOR_SIZE in
    wrap32 (cluster_to_sector clst + clst_ofs ÷ DISK_SECTOR_SIZE).

(** [byte_to_sector] of the build without EFILESYS, where the data of a
    file is one run of consecutive sectors from [start]. *)
Definition byte_to_sector_contiguous (ino : inode) (pos : Z) : Z :=
  if pos <? id_length (data ino)
  then wrap32 (id_start (data ino) + pos ÷ DISK_SECTOR_SIZE)
  else SECTOR_NONE.

(** [inode_init]: [list_init (&open_inodes)] *)
Definition inode_init (w : world) : world := set_open_inodes [] w.

(** *** inode_create *)

(** The [while (length >= 0)] loop.  Result: [None] when a chain creation
    failed, otherwise the value of [disk_inode->start]; the world comes
    back in both cases.  Every iteration lowers [length] by a sector, so
    [fuel] beyond [length / 512 + 1] is never used. *)
Fixpoint create_loop (fuel : nat) (length startclst : Z) (first : bool)
    (start : Z) (w : world) : option Z * world :=
  if length >=? 0 then
    match fuel with
    | O => (Some start, w)
    | S fuel' =>
        let '(c, w1) := fat_create_chain startclst w in
        if c =? 0 then (None, w1)
        else
          let start' := if first then cluster_to_sector c else start in
          let w2 := disk_write (cluster_to_sector c) zeros w1 in
          create_loop fuel' (length - DISK_SECTOR_SIZE) c false start' w2
    end
  else (Some start, w).

Definition create_fuel (length : Z) : nat := S (Z.to_nat length).

(** [inode_create].  [calloc] takes the record's memory from the pool; the
    early [return false] leaves without [free]. *)
Definition inode_create (sec length : Z) (w : world) : option (bool * world) :=
  if length >=? 0 then
    match malloc w with
    | (None, w1) => Some (false, w1)
    | (Some a, w1) =>
        match create_loop (create_fuel length) length 0 true 0 w1 with
        | (None, w2) => Some (false, w2)
        | (Some start, w2) =>
            let disk_inode :=
              {| id_start := start; id_length := length;
                 id_magic := INODE_MAGIC; id_unused := replicate 500 0 |} in
            let w3 := disk_write sec (encode_inode_disk disk_inode) w2 in
            Some (true, free a w3)
        end
    end
  else None.

(** *** inode_open, inode_reopen, inode_close, inode_remove *)

(** The scan of [open_inodes] for an inode whose sector is [sec]. *)
Fixpoint find_open (h : gmap addr inode) (l : list addr) (sec : Z)
    : option addr :=
  match l with
  | [] => None
  | a :: l' =>
      match h !! a with
      | Some ino => if sector ino =? sec then Some a else find_open h l' sec
      | None => find_open h l' sec
      end
  end.

Definition inode_reopen (hd : option addr) (w : world)
    : option (option addr * world) :=
  match hd with
  | None => Some (None, w)
  | Some a =>
      match heap w !! a with
      | None => None
      | Some ino =>
          Some (Some a,
                set_heap (<[a := set_open_cnt (open_cnt ino + 1) ino]> (heap w)) w)
      end
  end.

Definition inode_open (sec : Z) (w : world) : option (option addr * world) :=
  match find_open (heap w) (open_inodes w) sec with
  | Some a => inode_reopen (Some a) w
  | None =>
      match malloc w with
      | (None, w1) => Some (None, w1)
      | (Some a, w1) =>
          let w2 := set_open_inodes (a :: open_inodes w1) w1 in
          let '(b, w3) := disk_read sec w2 in
          let ino :=
            {| sector := sec; open_cnt := 1; removed := false;
               deny_write_cnt := 0; data := decode_inode_disk b |} in
          Some (Some a, set_heap (<[a := ino]> (heap w3)) w3)
      end
  end.

(** [list_remove (&inode->elem)] *)
Definition list_remove (a : addr) (l : list addr) : list addr :=
  filter (λ x, x ≠ a) l.

Definition inode_close (hd : option addr) (w : world) : option world :=
  match hd with
  | None => Some w
  | Some a =>
      match heap w !! a with
      | None => None
      | Some ino0 =>
          let ino := set_open_cnt (open_cnt ino0 - 1) ino0 in
          if open_cnt ino =? 0 then
            let w1 := set_open_inodes (list_remove a (open_inodes w)) w in
            let w2 := disk_write (sector ino) (encode_inode_disk (data ino)) w1 in
            let w3 :=
              if removed ino then
                fat_remove_chain (sector_to_cluster (id_start (data ino))) 0
                  (fat_remove_chain (sector_to_cluster (sector ino)) 0 w2)
              else w2 in
            Some (free a (set_heap (delete a (heap w3)) w3))
          else Some (set_heap (<[a := ino]> (heap w)) w)
      end
  end.

Definition inode_remove (hd : option addr) (w : world) : option world :=
  match hd with
  | None => None
  | Some a =>
      match heap w !! a with
      | None => None
      | Some ino => Some (set_heap (<[a := set_removed true ino]> (heap w)) w)
      end
  end.

(** *** inode_deny_write, inode_allow_write *)

Definition inode_deny_write (a : addr) (w : world) : option world :=
  match heap w !! a with
  | None => None
  | Some ino0 =>
      let ino := set_deny_write_cnt (deny_write_cnt ino0 + 1) ino0 in
      if deny_write_cnt ino <=? open_cnt ino
      then Some (set_heap (<[a := ino]> (heap w)) w)
      else None
  end.

Definition inode_allow_write (a : addr) (w : world) : option world :=
  match heap w !! a with
  | None => None
  | Some ino =>
      if deny_write_cnt ino >? 0 then
        if deny_write_cnt ino <=? open_cnt ino then
          Some (set_heap
                  (<[a := set_deny_write_cnt (deny_write_cnt ino - 1) ino]>
                     (heap w)) w)
        else None
      else None
  end.

(** *** inode_read_at *)

(** [bounce == NULL ? malloc (DISK_SECTOR_SIZE) : bounce] *)
Definition get_bounce (bounce : option addr) (w : world) : option addr * world :=
  match bounce with
  | Some b => (Some b, w)
  | None => malloc w
  end.

(** The [while (size > 0)] loop of [inode_read_at].  [out] is what has been
    stored in the caller's buffer so far.  A chunk is at least one byte,
    so [fuel] beyond [size] is never used.

    The [off_t] and [int] arithmetic is done in [Z], and [memcpy] is a
    slice of the sector.  That is the source for [offset >= 0], where
    [sector_ofs] is an index into the bounce buffer.  For [offset < 0]
    the source copies from before the bounce buffer and its [inode_left]
    can leave [off_t], so the properties of the bytes and the count of a
    transfer are stated for [offset >= 0] only. *)
Fixpoint read_loop (fuel : nat) (ino : inode) (size offset bytes_read : Z)
    (out : list Z) (bounce : option addr) (w : world)
    : Z * list Z * option addr * world :=
  if size >? 0 then
    match fuel with
    | O => (bytes_read, out, bounce, w)
    | S fuel' =>
        let sector_idx := byte_to_sector (fat w) ino offset in
        let sector_ofs := Z.rem offset DISK_SECTOR_SIZE in
        let inode_left := inode_length ino - offset in
        let sector_left := DISK_SECTOR_SIZE - sector_ofs in
        let min_left := if inode_left <? sector_left then inode_left else sector_left in
        let chunk_size := if size <? min_left then size else min_left in
        if chunk_size <=? 0 then (bytes_read, out, bounce, w)
        else if (sector_ofs =? 0) && (chunk_size =? DISK_SECTOR_SIZE) then
          let '(b, w1) := disk_read sector_idx w in
          read_loop fuel' ino (size - chunk_size) (offset + chunk_size)
            (bytes_read + chunk_size) (out ++ b) bounce w1
        else
          match get_bounce bounce w with
          | (None, w1) => (bytes_read, out, None, w1)
          | (Some bn, w1) =>
              let '(b, w2) := disk_read sector_idx w1 in
              let piece := take (Z.to_nat chunk_size) (drop (Z.to_nat sector_ofs) b) in
              read_loop fuel' ino (size - chunk_size) (offset + chunk_size)
                (bytes_read + chunk_size) (out ++ piece) (Some bn) w2
          end
    end
  else (bytes_read, out, bounce, w).

(** [inode_read_at]: the count returned and the bytes stored in the
    caller's buffer. *)
Definition inode_read_at (a : addr) (size offset : Z) (w : world)
    : option (Z * list Z * world) :=
  match heap w !! a with
  | None => None
  | Some ino =>
      let '(bytes_read, out, bounce, w1) :=
        read_loop (Z.to_nat size) ino size offset 0 [] None w in
      Some (bytes_read, out, free_opt bounce w1)
  end.

(** *** file_growth *)

Definition store_length (a : addr) (ino : inode) (n : Z) (w : world) : world :=
  set_heap (<[a := set_length n ino]> (heap w)) w.

(** The [while (growth < new_length - origin_length)] loop. *)
Fixpoint growth_loop (fuel : nat) (a : addr) (ino : inode)
    (origin_length new_length growth last_clst : Z) (w : world) : bool * world :=
  if growth <? new_length - origin_length then
    match fuel with
    | O => (true, w)
    | S fuel' =>
        let '(c, w1) := fat_create_chain last_clst w in
        if c =? 0 then
          if Z.rem origin_length DISK_SECTOR_SIZE =? 0 then
            (false, store_length a ino (origin_length + growth) w1)
          else
            (false,
             store_length a ino
               (origin_length + growth - Z.rem growth DISK_SECTOR_SIZE
                + DISK_SECTOR_SIZE) w1)
        else
          let w2 := disk_write (cluster_to_sector c) zeros w1 in
          growth_loop fuel' a ino origin_length new_length
            (growth + DISK_SECTOR_SIZE) c w2
    end
  else (true, w).

Definition file_growth (a : addr) (ino : inode) (new_length : Z) (w : world)
    : bool * world :=
  let origin_length := inode_length ino in
  let last_clst := sector_to_cluster (byte_to_sector (fat w) ino origin_length) in
  let w1 := store_length a ino new_length w in
  if (Z.rem origin_length DISK_SECTOR_SIZE =? 0)
     || (new_length >?
         origin_length - Z.rem origin_length DISK_SECTOR_SIZE + DISK_SECTOR_SIZE)
  then
    growth_loop (Z.to_nat (new_length - origin_length)) a ino
      origin_length new_length 0 last_clst w1
  else (true, w1).

(** *** inode_write_at *)

(** The [while (size > 0)] loop of [inode_write_at].  As in the read loop,
    the arithmetic is done in [Z] and [memcpy] lays the chunk over the
    sector at [sector_ofs]: that is the source for [offset >= 0].  For
    [offset < 0] the source copies to an address before the bounce
    buffer, so the properties of what a transfer writes are stated for
    [offset >= 0] only. *)
Fixpoint write_loop (fuel : nat) (ino : inode) (buffer : list Z)
    (size offset bytes_written : Z) (bounce : option addr) (w : world)
    : Z * option addr * world :=
  if size >? 0 then
    match fuel with
    | O => (bytes_written, bounce, w)
    | S fuel' =>
        let sector_idx := byte_to_sector (fat w) ino offset in
        let sector_ofs := Z.rem offset DISK_SECTOR_SIZE in
        let inode_left := inode_length ino - offset in
        let sector_left := DISK_SECTOR_SIZE - sector_ofs in
        let min_left := if inode_left <? sector_left then inode_left else sector_left in
        let chunk_size := if size <? min_left then size else min_left in
        if chunk_size <=? 0 then (bytes_written, bounce, w)
        else
          let src := take (Z.to_nat chunk_size) (drop (Z.to_nat bytes_written) buffer) in
          if (sector_ofs =? 0) && (chunk_size =? DISK_SECTOR_SIZE) then
            let w1 := disk_write sector_idx src w in
            write_loop fuel' ino buffer (size - chunk_size) (offset + chunk_size)
              (bytes_written + chunk_size) bounce w1
          else
            match get_bounce bounce w with
            | (None, w1) => (bytes_written, None, w1)
            | (Some bn, w1) =>
                let '(b, w2) :=
                  if (sector_ofs >? 0) || (chunk_size <? sector_left)
                  then disk_read sector_idx w1
                  else (zeros, w1) in
                let b' :=
                  take (Z.to_nat sector_ofs) b ++ src
                    ++ drop (Z.to_nat (sector_ofs + chunk_size)) b in
                let w3 := disk_write sector_idx b' w2 in
                write_loop fuel' ino buffer (size - chunk_size)
                  (offset + chunk_size) (bytes_written + chunk_size) (Some bn) w3
            end
    end
  else (bytes_written, bounce, w).

(** [inode_write_at].  [offset + size] is the sum in [Z]: it is the [off_t]
    sum of the source as long as that stays below [2 ^ 31].  Beyond that
    the 32-bit sum of the source is negative and growth is not called,
    so the properties of writes that may grow the file are stated for
    [offset + size < 2 ^ 31]. *)
Definition inode_write_at (a : addr) (buffer : list Z) (size offset : Z)
    (w : world) : option (Z * world) :=
  match heap w !! a with
  | None => None
  | Some ino =>
      if deny_write_cnt ino =? 0 then
        let w1 :=
          if offset + size >? inode_length ino
          then snd (file_growth a ino (offset + size) w)
          else w in
        match heap w1 !! a with
        | None => None
        | Some ino1 =>
            let '(bytes_written, bounce, w2) :=
              write_loop (Z.to_nat size) ino1 buffer size offset 0 None w1 in
            Some (bytes_written, free_opt bounce w2)
        end
      else Some (0, w)
  end.

End Inode.

(** ** Page types (vm/vm.h) *)

(** [enum vm_type] *)
Definition VM_UNINIT : Z := 0.
Definition VM_ANON : Z := 1.
Definition VM_FILE : Z := 2.
Definition VM_PAGE_CACHE : Z := 3.
Definition VM_STACK : Z := 9.
Definition VM_SEG : Z := 17.
Definition VM_MARKER_0 : Z := Z.shiftl 1 3.
Definition VM_MARKER_1 : Z := Z.shiftl 1 4.

(** [#define VM_TYPE(type) ((type) & 7)] *)
Definition VM_TYPE (type : Z) : Z := Z.land type 7.

(** [#define VM_AUXTYPE(type) ((type) & 24)] *)
Definition VM_AUXTYPE (type : Z) : Z := Z.land type 24.

(** ** A small machine for the examples *)

(** Cluster [c] occupies sector [100 + c]. *)
Definition ex_c2s (c : Z) : Z := 100 + c.
Definition ex_s2c (s : Z) : Z := s - 100.

(** An open inode whose record is in sector 105 and whose data chain is
    the single cluster 1. *)
Definition ex_inode (len open deny : Z) (rm : bool) : inode :=
  {| sector := 105; open_cnt := open; removed := rm; deny_write_cnt := deny;
     data := {| id_start := 101; id_length := len; id_magic := INODE_MAGIC;
                id_unused := replicate 500 0 |} |}.

(** A machine with that inode open at address 1, every cluster of a
    six-entry table in use, and [p] as the free kernel memory. *)
Definition ex_world (ino : inode) (p : list addr) : world :=
  {| disk := {[101 := zeros]};
     fat := {[1 := EOChain; 2 := EOChain; 3 := EOChain; 4 := EOChain;
              5 := EOChain]};
     fat_length := 6;
     heap := {[1%positive := ino]};
     open_inodes := [1%positive];
     pool := p;
     trace := [] |}.

(** A machine with no open inode, where only cluster 5 (the sector of a
    future inode record) is in use. *)
Definition ex_fresh : world :=
  {| disk := ∅; fat := {[5 := EOChain]}; fat_length := 6; heap := ∅;
     open_inodes := []; pool := [1%positive; 2%positive]; trace := [] |}.

Definition ex_buffer : list Z := (λ i, i mod 251) <$> seqZ 0 700.

(** [ex_fresh] after creating a file of 700 bytes at sector 105, after
    opening it, and after writing [ex_buffer] to it. *)
Definition ex_created : world :=
  match inode_create ex_c2s 105 700 ex_fresh with
  | Some (_, w) => w
  | None => ex_fresh
  end.

Definition ex_opened : world :=
  match inode_open 105 ex_created with
  | Some (_, w) => w
  | None => ex_created
  end.

Definition ex_written : world :=
  match inode_write_at 1 ex_c2s ex_s2c 1%positive ex_buffer 700 0 ex_opened with
  | Some (_, w) => w
  | None => ex_opened
  end.

(** A table with the chain 1 -> 2 -> 3 and clusters of two sectors:
    cluster [c] occupies the sectors [100 + 2 c] and [101 + 2 c]. *)
Definition ex2_c2s (c : Z) : Z := 100 + 2 * c.
Definition ex2_s2c (s : Z) : Z := (s - 100) / 2.
Definition ex_chain : gmap Z Z := {[1 := 2; 2 := 3; 3 := EOChain]}.

(** An inode of 3000 bytes on that chain, and one whose first data sector
    is the last sector number there is. *)
Definition ex_chain_inode : inode :=
  {| sector := 120; open_cnt := 1; removed := false; deny_write_cnt := 0;
     data := {| id_start := 102; id_length := 3000; id_magic := INODE_MAGIC;
                id_unused := replicate 500 0 |} |}.
Definition ex_last_sector_inode : inode :=
  {| sector := 105; open_cnt := 1; removed := false; deny_write_cnt := 0;
     data := {| id_start := 0xFFFFFFFF; id_length := 100;
                id_magic := INODE_MAGIC; id_unused := replicate 500 0 |} |}.

(** ** Properties *)

Section Properties.

Set Default Proof Using "Type".

Variable SECTORS_PER_CLUSTER : Z.
Variable cluster_to_sector : Z → Z.
Variable sector_to_cluster : Z → Z.

(** *** Vocabulary *)

(* Chains of the allocation table *)

(** The table after [fat_create_chain prev] has returned [c]. *)
Definition link (prev c : Z) (f : gmap Z Z) : gmap Z Z :=
  let f1 := <[c := EOChain]> f in
  if prev =? 0 then f1 else <[prev := c]> f1.

(** [f'] is [f] after the clusters [cs] were appended one by one to a
    chain that ended in [prev] ([prev = 0]: a new chain). *)
Fixpoint appended (n prev : Z) (cs : list Z) (f f' : gmap Z Z) : Prop :=
  match cs with
  | [] => f' = f
  | c :: cs' => find_free f n = Some c ∧ appended n c cs' (link prev c f) f'
  end.

(** Every cluster of [cs] points to the next one, the last one to the
    terminator. *)
Definition chain_at (f : gmap Z Z) (cs : list Z) : Prop :=
  ∀ (i : nat) c, cs !! i = Some c → f !! c = Some (default EOChain (cs !! S i)).

(* Life cycle *)

(** The counters of an inode respect the write-denial invariant. *)
Definition counts_ok (ino : inode) : Prop :=
  0 ≤ deny_write_cnt ino ≤ open_cnt ino.

(** An inode for sector [sec] is in the open-inode list. *)
Definition registered (w : world) (sec : Z) (a : addr) (ino : inode) : Prop :=
  a ∈ open_inodes w ∧ heap w !! a = Some ino ∧ sector ino = sec.

(** The inode that [inode_open] builds from the sector it read. *)
Definition fresh_inode (sec : Z) (b : block) : inode :=
  {| sector := sec; open_cnt := 1; removed := false; deny_write_cnt := 0;
     data := decode_inode_disk b |}.

(** What [inode_close] logs when the last opener closes [ino]. *)
Definition last_close_events (ino : inode) : list event :=
  DiskWrite (sector ino) (encode_inode_disk (data ino))
  :: (if removed ino
      then [FatRemoveChain (sector_to_cluster (sector ino)) 0;
            FatRemoveChain (sector_to_cluster (id_start (data ino))) 0]
      else []).

(** The same events in the order of the spec's words for close: "releases
    the data chain (headed at root_block) and the record's own storage
    sector back to the Chain Allocator, in that order". *)
Definition last_close_events_spec (ino : inode) : list event :=
  DiskWrite (sector ino) (encode_inode_disk (data ino))
  :: (if removed ino
      then [FatRemoveChain (sector_to_cluster (id_start (data ino))) 0;
            FatRemoveChain (sector_to_cluster (sector ino)) 0]
      else []).

(** The allocation table after the last close of [ino]. *)
Definition last_close_fat (ino : inode) (f : gmap Z Z) : gmap Z Z :=
  if removed ino then
    let f1 := free_chain (size f) f (sector_to_cluster (sector ino)) in
    free_chain (size f1) f1 (sector_to_cluster (id_start (data ino)))
  else f.

(* Creation, growth and transfers *)

(** Memory for the bounce buffer is at hand: it is already allocated or
    the pool is not empty. *)
Definition bounce_available (bounce : option addr) (w : world) : Prop :=
  bounce ≠ None ∨ pool w ≠ [].

(** The two conversions are inverse on the clusters of the table and stay
    inside 32 bits. *)
Definition conversions_ok (n : Z) : Prop :=
  ∀ c, 1 ≤ c < n →
    sector_to_cluster (cluster_to_sector c) = c
    ∧ wrap32 (cluster_to_sector c) = cluster_to_sector c.

(** The record that [inode_create] writes. *)
Definition created_record (start length : Z) : inode_disk :=
  {| id_start := start; id_length := length; id_magic := INODE_MAGIC;
     id_unused := replicate 500 0 |}.

(** What the loop of [inode_create] logs for the clusters [cs]. *)
Fixpoint alloc_events (prev : Z) (cs : list Z) : list event :=
  match cs with
  | [] => []
  | c :: cs' =>
      FatCreateChain prev c :: DiskWrite (cluster_to_sector c) zeros
      :: alloc_events c cs'
  end.

(** How many clusters the allocator granted among the events [evs]. *)
Fixpoint granted (evs : list event) : Z :=
  match evs with
  | [] => 0
  | FatCreateChain _ res :: evs' => (if res =? 0 then 0 else 1) + granted evs'
  | _ :: evs' => granted evs'
  end.

(** The device after the first sector of every cluster of [cs] was
    zero-filled. *)
Definition zero_filled (cs : list Z) (d : gmap Z block) : gmap Z block :=
  foldl (λ d c, <[cluster_to_sector c := zeros]> d) d cs.

(** What [disk_read] finds in sector [s]. *)
Definition sector_content (d : gmap Z block) (s : Z) : block :=
  resize sector_size 0 (default [] (d !! s)).

(** The part of the buffer that belongs to sector number [j] of the
    file. *)
Definition slice (ino : inode) (buffer : list Z) (j : nat) : list Z :=
  take (Z.to_nat (Z.min 512 (inode_length ino - 512 * Z.of_nat j)))
    (drop (Z.to_nat (512 * Z.of_nat j)) buffer).

(** Sector [c] of the device starts with slice [j] of the buffer. *)
Definition holds (ino : inode) (buffer : list Z) (d : gmap Z block) (j : nat)
    (c : Z) : Prop :=
  take (length (slice ino buffer j)) (sector_content d (cluster_to_sector c))
  = slice ino buffer j.

(* Chunks of a transfer *)

(** The chunk that the loops of [inode_read_at] and [inode_write_at]
    transfer at [offset]: the least of what is left of the request, of the
    file and of the sector. *)
Definition chunk_at (len size offset : Z) : Z :=
  Z.min size
    (Z.min (len - offset) (DISK_SECTOR_SIZE - Z.rem offset DISK_SECTOR_SIZE)).

(** There is a chunk at [offset] and it is not a whole sector, so it goes
    through the bounce buffer. *)
Definition needs_bounce (len size offset : Z) : Prop :=
  0 < chunk_at len size offset
  ∧ ¬ (Z.rem offset DISK_SECTOR_SIZE = 0
       ∧ chunk_at len size offset = DISK_SECTOR_SIZE).

(** What [inode_write_at] sends to the device for its first chunk: the
    sector of [offset] is read unless the chunk is a whole sector, and
    written with the first bytes of the buffer laid over it from the
    offset inside the sector. *)
Definition first_write (ino : inode) (buffer : list Z) (size offset : Z)
    (w : world) : list event :=
  let s := byte_to_sector SECTORS_PER_CLUSTER cluster_to_sector
             sector_to_cluster (fat w) ino offset in
  let ofs := Z.rem offset DISK_SECTOR_SIZE in
  let chunk := chunk_at (inode_length ino) size offset in
  let old := sector_content (disk w) s in
  (if (ofs =? 0) && (chunk =? DISK_SECTOR_SIZE) then [] else [DiskRead s])
  ++ [DiskWrite s
        (resize sector_size 0
           (take (Z.to_nat ofs) old ++ take (Z.to_nat chunk) buffer
            ++ drop (Z.to_nat (ofs + chunk)) old))].

(** [n] calls of [inode_allow_write] in a row. *)
Fixpoint allow_write_times (n : nat) (a : addr) (w : world) : option world :=
  match n with
  | O => Some w
  | S n' =>
      match inode_allow_write a w with
      | Some w1 => allow_write_times n' a w1
      | None => None
      end
  end.

(* The table of open inodes and the records on the device *)

(** The open-inode table is in order: no address is listed twice, the
    listed addresses are exactly the live inodes, no two of them have the
    same sector, each has at least one opener, and free memory is not
    live. *)
Definition wf_world (w : world) : Prop :=
  NoDup (open_inodes w)
  ∧ (∀ a, a ∈ open_inodes w ↔ is_Some (heap w !! a))
  ∧ (∀ a b ia ib, heap w !! a = Some ia → heap w !! b = Some ib →
       sector ia = sector ib → a = b)
  ∧ (∀ a ino, heap w !! a = Some ino → 1 ≤ open_cnt ino)
  ∧ NoDup (pool w)
  ∧ (∀ a, a ∈ pool w → heap w !! a = None).

(** The fields of a record fit their C types. *)
Definition wf_record (d : inode_disk) : Prop :=
  0 ≤ id_start d < 2 ^ 32
  ∧ - 2 ^ 31 ≤ id_length d < 2 ^ 31
  ∧ 0 ≤ id_magic d < 2 ^ 32
  ∧ length (id_unused d) = 500%nat
  ∧ Forall (λ x, 0 ≤ x < 256) (id_unused d).

(** [b] is the content of a sector: 512 bytes. *)
Definition is_sector (b : block) : Prop :=
  length b = sector_size ∧ Forall (λ x, 0 ≤ x < 256) b.

(** *** Chains built by the allocator *)

#[local] Set Warnings "-clear-no-such-hyp".

Lemma find_free_Some (f : gmap Z Z) (n c : Z) :
  find_free f n = Some c → f !! c = None ∧ 1 ≤ c < n.
Proof.
  unfold find_free. intros H.
  apply fmap_Some in H as ([i x] & H & ->). cbn [snd].
  apply list_find_Some in H as (Hl & Hp & _).
  apply lookup_seqZ in Hl. split; [done | lia].
Qed.

Lemma link_lookup_ne (prev c k : Z) (f : gmap Z Z) :
  k ≠ c → k ≠ prev → link prev c f !! k = f !! k.
Proof.
  intros Hc Hp. unfold link.
  destruct (prev =? 0); by rewrite ?lookup_insert_ne by done.
Qed.

Lemma link_lookup_new (prev c : Z) (f : gmap Z Z) :
  prev ≠ c → link prev c f !! c = Some EOChain.
Proof.
  intros Hne. unfold link.
  destruct (prev =? 0); rewrite ?lookup_insert_ne by done;
    apply lookup_insert_eq.
Qed.

Lemma link_lookup_prev (prev c : Z) (f : gmap Z Z) :
  prev ≠ 0 → link prev c f !! prev = Some c.
Proof.
  intros Hne. unfold link.
  destruct (Z.eqb_spec prev 0); [done | apply lookup_insert_eq].
Qed.

Lemma link_dom (prev c : Z) (f : gmap Z Z) :
  prev = 0 ∨ is_Some (f !! prev) →
  dom (link prev c f) = dom f ∪ {[c]}.
Proof.
  clear sector_to_cluster cluster_to_sector.
  intros Hp. unfold link. destruct (Z.eqb_spec prev 0) as [-> | Hne].
  - rewrite dom_insert_L. set_solver.
  - destruct Hp as [? | Hp]; [done |]. apply elem_of_dom in Hp.
    rewrite !dom_insert_L. set_solver.
Qed.

Lemma appended_props (n : Z) (cs : list Z) :
  ∀ prev f f',
    appended n prev cs f f' → prev = 0 ∨ is_Some (f !! prev) →
    (∀ c, c ∈ cs → f !! c = None ∧ 1 ≤ c < n)
    ∧ NoDup cs
    ∧ chain_at f' cs
    ∧ (prev ≠ 0 → f' !! prev = Some (default (fat_get f prev) (cs !! 0%nat)))
    ∧ (∀ k, k ∉ cs → k ≠ prev → f' !! k = f !! k)
    ∧ dom f' = dom f ∪ list_to_set cs.
Proof.
  clear sector_to_cluster cluster_to_sector.
  induction cs as [| c cs IH]; intros prev f f'; cbn [appended].
  - intros -> Hprev. split; [by intros c ?%elem_of_nil |].
    split; [constructor |]. split; [by intros i c ? |].
    split.
    { intros Hne. destruct Hprev as [? | [v Hv]]; [done |].
      unfold fat_get. by rewrite Hv. }
    split; [done |]. cbn. set_solver.
  - intros [Hfree Happ] Hprev.
    apply find_free_Some in Hfree as [Hc Hrange].
    assert (Hpc : prev ≠ c).
    { destruct Hprev as [-> | [v Hv]]; [lia | congruence]. }
    destruct (IH c (link prev c f) f' Happ) as (Hfr & Hnd & Hch & Hpv & Hot & Hdom).
    { right. rewrite link_lookup_new by done. eauto. }
    assert (Hnin : c ∉ cs).
    { intros Hin. destruct (Hfr c Hin) as [Hn _].
      by rewrite link_lookup_new in Hn. }
    assert (Hpnin : prev ≠ 0 → prev ∉ cs).
    { intros Hne Hin. destruct (Hfr prev Hin) as [Hn _].
      by rewrite link_lookup_prev in Hn. }
    split.
    { intros k [-> | Hin]%elem_of_cons; [done |].
      destruct (Hfr k Hin) as [Hn ?]. split; [| done].
      destruct (decide (k = prev)) as [-> | ?].
      - destruct (decide (prev = 0)) as [-> | ?]; [lia |].
        by destruct (Hpnin ltac:(done)).
      - rewrite link_lookup_ne in Hn; [done | set_solver | done]. }
    split; [by constructor |].
    split.
    { intros [| i] k Hk; cbn in Hk.
      - injection Hk as <-. rewrite (Hpv ltac:(lia)). cbn [lookup].
        f_equal. unfold fat_get. rewrite link_lookup_new by done.
        by destruct cs.
      - by apply Hch. }
    split.
    { intros Hne. cbn. rewrite Hot; [| by apply Hpnin | done].
      by apply link_lookup_prev. }
    split.
    { intros k Hk Hkp.
      rewrite Hot; [| set_solver | set_solver].
      apply link_lookup_ne; [set_solver | done]. }
    rewrite Hdom, link_dom by done. cbn. set_solver.
Qed.

Lemma chain_at_iter (f : gmap Z Z) (cs : list Z) (c0 : Z) :
  chain_at f cs → cs !! 0%nat = Some c0 →
  ∀ (i : nat) c, cs !! i = Some c → Nat.iter i (fat_get f) c0 = c.
Proof.
  intros Hch H0. induction i as [| i IH]; intros c Hc.
  - cbn. congruence.
  - destruct (cs !! i) as [ci |] eqn:Hi.
    + rewrite Nat.iter_succ, (IH ci eq_refl). unfold fat_get.
      rewrite (Hch i ci Hi), Hc. done.
    + apply lookup_ge_None in Hi. apply lookup_lt_Some in Hc. lia.
Qed.

(** *** Arithmetic of offsets *)

Lemma quot_sector_cluster (pos : Z) :
  0 ≤ pos → 0 < SECTORS_PER_CLUSTER →
  pos ÷ DISK_SECTOR_SIZE ÷ SECTORS_PER_CLUSTER
  = pos / (DISK_SECTOR_SIZE * SECTORS_PER_CLUSTER).
Proof.
  unfold DISK_SECTOR_SIZE. intros Hpos Hspc.
  rewrite (Z.quot_div_nonneg pos 512) by lia.
  rewrite Z.quot_div_nonneg; [| apply Z.div_pos; lia | lia].
  now rewrite Z.div_div by lia.
Qed.

(** C6 (amended): for an offset [pos >= 0], [byte_to_sector] gives the
    sentinel when [pos] is greater than the length; otherwise it walks
    [pos / (sector size * sectors per cluster)] links from the cluster of
    the first data sector and adds the sector index inside that cluster to
    the cluster's base sector, in 32 bits.  The sentinel therefore comes
    back exactly when [pos > length] or when the sector found is itself
    the all-ones value. *)
Theorem byte_to_sector_spec (f : gmap Z Z) (ino : inode) (pos : Z) :
  0 ≤ pos → 0 < SECTORS_PER_CLUSTER →
  let unit_index := pos / (DISK_SECTOR_SIZE * SECTORS_PER_CLUSTER) in
  let unit :=
    Nat.iter (Z.to_nat unit_index) (fat_get f)
      (sector_to_cluster (id_start (data ino))) in
  let found :=
    wrap32 (cluster_to_sector unit
            + (pos - unit_index * SECTORS_PER_CLUSTER * DISK_SECTOR_SIZE)
              / DISK_SECTOR_SIZE) in
  (pos > inode_length ino →
     byte_to_sector SECTORS_PER_CLUSTER cluster_to_sector sector_to_cluster
       f ino pos = SECTOR_NONE)
  ∧ (pos ≤ inode_length ino →
     byte_to_sector SECTORS_PER_CLUSTER cluster_to_sector sector_to_cluster
       f ino pos = found)
  ∧ (byte_to_sector SECTORS_PER_CLUSTER cluster_to_sector sector_to_cluster
       f ino pos = SECTOR_NONE
     ↔ pos > inode_length ino ∨ found = SECTOR_NONE).
Proof.
  intros Hpos Hspc unit_index unit found.
  assert (Hin : pos ≤ inode_length ino →
                byte_to_sector SECTORS_PER_CLUSTER cluster_to_sector
                  sector_to_cluster f ino pos = found).
  { intros Hlen. unfold byte_to_sector, inode_length in *.
    destruct (Z.gtb_spec pos (id_length (data ino))); [lia |].
    rewrite quot_sector_cluster by done. fold unit_index. fold unit.
    subst found. f_equal. f_equal.
    assert (0 ≤ pos - unit_index * SECTORS_PER_CLUSTER * DISK_SECTOR_SIZE).
    { subst unit_index. unfold DISK_SECTOR_SIZE.
      pose proof (Z.mul_div_le pos (512 * SECTORS_PER_CLUSTER)). lia. }
    apply Z.quot_div_nonneg; [done | unfold DISK_SECTOR_SIZE; lia]. }
  assert (Hout : pos > inode_length ino →
                 byte_to_sector SECTORS_PER_CLUSTER cluster_to_sector
                   sector_to_cluster f ino pos = SECTOR_NONE).
  { intros Hlen. unfold byte_to_sector, inode_length in *.
    destruct (Z.gtb_spec pos (id_length (data ino))); [done | lia]. }
  split; [done |]. split; [done |].
  destruct (Z.le_gt_cases pos (inode_length ino)) as [Hle | Hgt].
  - rewrite (Hin Hle). split; [by right | intros [? | ?]; [lia | done]].
  - rewrite Hout by lia. split; [intros _; left; lia | done].
Qed.

Ltac world_simpl :=
  cbn [disk fat fat_length heap open_inodes pool trace fst snd
       disk_write disk_read fat_remove_chain free_opt free malloc
       set_heap set_open_inodes emit set_disk set_fat set_pool].

Lemma encode_inode_disk_length (d : inode_disk) :
  length (encode_inode_disk d) = sector_size.
Proof.
  unfold encode_inode_disk. rewrite !length_app, length_resize. reflexivity.
Qed.

Lemma resize_encode_inode_disk (d : inode_disk) :
  resize sector_size 0 (encode_inode_disk d) = encode_inode_disk d.
Proof. rewrite <- (encode_inode_disk_length d). apply resize_all. Qed.

Lemma find_open_Some (h : gmap addr inode) (l : list addr) (sec : Z) (a : addr) :
  find_open h l sec = Some a →
  a ∈ l ∧ ∃ ino, h !! a = Some ino ∧ sector ino = sec.
Proof.
  induction l as [| x l IH]; simpl; [done |].
  destruct (h !! x) as [ino |] eqn:Hx.
  - destruct (Z.eqb_spec (sector ino) sec) as [Hs | Hs].
    + intros [= <-]. split; [left | eauto].
    + intros H. destruct (IH H) as [? ?]. split; [by right | done].
  - intros H. destruct (IH H) as [? ?]. split; [by right | done].
Qed.

Lemma find_open_None (h : gmap addr inode) (l : list addr) (sec : Z) :
  find_open h l sec = None →
  ∀ a ino, a ∈ l → h !! a = Some ino → sector ino ≠ sec.
Proof.
  induction l as [| x l IH]; simpl; intros H a ino Ha Hino.
  - by apply elem_of_nil in Ha.
  - apply elem_of_cons in Ha as [-> | Ha].
    + rewrite Hino in H. destruct (Z.eqb_spec (sector ino) sec); [done | done].
    + destruct (h !! x) as [ino' |]; [| by eapply IH].
      destruct (Z.eqb_spec (sector ino') sec); [done | by eapply IH].
Qed.

Lemma find_open_is_Some (h : gmap addr inode) (l : list addr) (sec : Z) :
  (∃ a ino, a ∈ l ∧ h !! a = Some ino ∧ sector ino = sec) →
  is_Some (find_open h l sec).
Proof.
  intros (a & ino & Ha & Hino & Hs).
  destruct (find_open h l sec) eqn:E; [eauto |].
  by destruct (find_open_None _ _ _ E a ino Ha Hino).
Qed.

Lemma list_remove_not_elem (a : addr) (l : list addr) : a ∉ list_remove a l.
Proof. unfold list_remove. rewrite list_elem_of_filter. by intros [? _]. Qed.

Lemma inode_close_keep (w : world) (a : addr) (ino : inode) :
  heap w !! a = Some ino → open_cnt ino - 1 ≠ 0 →
  inode_close sector_to_cluster (Some a) w
  = Some (set_heap (<[a := set_open_cnt (open_cnt ino - 1) ino]> (heap w)) w).
Proof.
  intros Hino Hnz. cbn [inode_close]. rewrite Hino.
  cbn [open_cnt set_open_cnt].
  by destruct (Z.eqb_spec (open_cnt ino - 1) 0).
Qed.

Lemma inode_close_last (w : world) (a : addr) (ino : inode) :
  heap w !! a = Some ino → open_cnt ino - 1 = 0 →
  ∃ w', inode_close sector_to_cluster (Some a) w = Some w'
    ∧ open_inodes w' = list_remove a (open_inodes w)
    ∧ disk w' = <[sector ino := encode_inode_disk (data ino)]> (disk w)
    ∧ trace w' = trace w ++ last_close_events ino
    ∧ fat w' = last_close_fat ino (fat w)
    ∧ heap w' = delete a (heap w)
    ∧ pool w' = a :: pool w.
Proof.
  intros Hino Hz. cbn [inode_close]. rewrite Hino.
  cbn [open_cnt set_open_cnt sector removed data]. rewrite Hz. cbn [Z.eqb].
  eexists. split; [reflexivity |].
  unfold last_close_events, last_close_fat.
  destruct (removed ino); world_simpl; rewrite ?resize_encode_inode_disk;
    repeat split.
  by rewrite <- !app_assoc.
Qed.

(** C2 (amended): closing a null handle changes nothing.  Closing a live
    inode lowers [open_cnt] by one; when that gives zero the inode leaves
    [open_inodes], its record is written to its sector, and, if it was
    removed, the chain of the record's own sector is released first and
    the data chain second; then the object is freed. *)
Theorem inode_close_spec (w : world) (hd : option addr) :
  (∀ a, hd = Some a → is_Some (heap w !! a)) →
  ∃ w', inode_close sector_to_cluster hd w = Some w' ∧
    match hd with
    | None => w' = w
    | Some a =>
        ∃ ino, heap w !! a = Some ino ∧
          if (open_cnt ino - 1 =? 0)%Z then
            (open_inodes w' = list_remove a (open_inodes w)
            ∧ (a ∉ open_inodes w')
            ∧ disk w' = <[sector ino := encode_inode_disk (data ino)]> (disk w)
            ∧ trace w' = trace w ++ last_close_events ino
            ∧ fat w' = last_close_fat ino (fat w)
            ∧ heap w' = delete a (heap w)
            ∧ pool w' = a :: pool w)
          else
            w' = set_heap (<[a := set_open_cnt (open_cnt ino - 1) ino]> (heap w)) w
    end.
Proof.
  intros Hlive. destruct hd as [a |]; [| by exists w].
  destruct (Hlive a eq_refl) as [ino Hino].
  destruct (Z.eqb_spec (open_cnt ino - 1) 0) as [Hz | Hnz].
  - destruct (inode_close_last w a ino Hino Hz)
      as (w' & Hc & Hl & Hd & Ht & Hf & Hh & Hp).
    exists w'. split; [done |]. exists ino. split; [done |].
    rewrite (proj2 (Z.eqb_eq _ _) Hz).
    split; [done |]. split; [rewrite Hl; apply list_remove_not_elem |].
    by repeat split.
  - rewrite (inode_close_keep w a ino Hino Hnz). eexists. split; [reflexivity |].
    exists ino. split; [done |].
    by rewrite (proj2 (Z.eqb_neq _ _) Hnz).
Qed.

(** *** Opening *)

Lemma inode_open_registered (w : world) (sec : Z) :
  (∃ a ino, registered w sec a ino) →
  ∃ a ino, registered w sec a ino ∧
    inode_open sec w
    = Some (Some a,
            set_heap (<[a := set_open_cnt (open_cnt ino + 1) ino]> (heap w)) w).
Proof.
  intros Hreg. unfold inode_open.
  destruct (find_open_is_Some (heap w) (open_inodes w) sec) as [a Ha].
  { destruct Hreg as (a & ino & ? & ? & ?). eauto. }
  rewrite Ha. apply find_open_Some in Ha as (Hin & ino & Hino & Hsec).
  exists a, ino. split; [done |]. simpl. by rewrite Hino.
Qed.

Lemma inode_open_unregistered (w : world) (sec : Z) (a : addr) (p : list addr) :
  (∀ a ino, ¬ registered w sec a ino) → pool w = a :: p →
  inode_open sec w
  = Some (Some a,
          mk_world (disk w) (fat w) (fat_length w)
            (<[a := fresh_inode sec
                      (resize sector_size 0 (default [] (disk w !! sec)))]>
               (heap w))
            (a :: open_inodes w) p (trace w ++ [DiskRead sec])).
Proof.
  intros Hun Hpool. unfold inode_open.
  destruct (find_open (heap w) (open_inodes w) sec) as [a' |] eqn:E.
  { apply find_open_Some in E as (? & ino & ? & ?).
    by destruct (Hun a' ino). }
  unfold malloc. rewrite Hpool. reflexivity.
Qed.

(** C8: when an inode for the sector is registered, [inode_open] returns
    it with [open_cnt] raised by one and touches neither the device nor the
    list.  Otherwise, when memory is left, it returns a new inode read from
    the sector, with counters 1 and 0, not removed, put at the front of the
    list.  A second open then gives the same inode with count 2; the first
    close leaves count 1 and calls neither the device nor the allocator;
    the second close takes the inode away, writes its record, and releases
    chains exactly when [inode_remove] was called in between.  (With no
    memory left, opening an unregistered sector returns the null handle
    and changes nothing.) *)
Theorem inode_open_spec (w : world) (sec : Z) :
  ((∃ a ino, registered w sec a ino) →
   ∃ a ino w1, registered w sec a ino ∧
     inode_open sec w = Some (Some a, w1) ∧
     heap w1 = <[a := set_open_cnt (open_cnt ino + 1) ino]> (heap w) ∧
     open_inodes w1 = open_inodes w ∧ trace w1 = trace w ∧ disk w1 = disk w)
  ∧ ((∀ a ino, ¬ registered w sec a ino) →
     ∀ a p, pool w = a :: p →
     ∃ w1,
       inode_open sec w = Some (Some a, w1) ∧
       heap w1
       = <[a := fresh_inode sec
                  (resize sector_size 0 (default [] (disk w !! sec)))]> (heap w) ∧
       open_inodes w1 = a :: open_inodes w ∧
       trace w1 = trace w ++ [DiskRead sec] ∧
       ∀ rm : bool, ∃ w2 w2' w3 w4 i2 i3,
         inode_open sec w1 = Some (Some a, w2) ∧
         heap w2 !! a = Some i2 ∧ open_cnt i2 = 2 ∧
         trace w2 = trace w1 ∧
         (if rm then inode_remove (Some a) w2 else Some w2) = Some w2' ∧
         inode_close sector_to_cluster (Some a) w2' = Some w3 ∧
         heap w3 !! a = Some i3 ∧ open_cnt i3 = 1 ∧ removed i3 = rm ∧
         a ∈ open_inodes w3 ∧
         trace w3 = trace w1 ∧ disk w3 = disk w1 ∧ fat w3 = fat w1 ∧
         inode_close sector_to_cluster (Some a) w3 = Some w4 ∧
         heap w4 !! a = None ∧ (a ∉ open_inodes w4) ∧
         trace w4
         = trace w1
           ++ DiskWrite sec (encode_inode_disk (data i3))
              :: (if rm
                  then [FatRemoveChain (sector_to_cluster sec) 0;
                        FatRemoveChain
                          (sector_to_cluster (id_start (data i3))) 0]
                  else []))
  ∧ ((∀ a ino, ¬ registered w sec a ino) → pool w = [] →
     inode_open sec w = Some (None, w)).
Proof.
  split; [| split].
  3: { intros Hun Hpool. unfold inode_open.
       destruct (find_open (heap w) (open_inodes w) sec) as [a' |] eqn:E.
       { apply find_open_Some in E as (? & ino & ? & ?).
         by destruct (Hun a' ino). }
       unfold malloc. by rewrite Hpool. }
  - intros Hreg.
    destruct (inode_open_registered w sec Hreg) as (a & ino & Hr & ->).
    exists a, ino. eexists. repeat split; try reflexivity; apply Hr.
  - intros Hun a p Hpool.
    rewrite (inode_open_unregistered w sec a p Hun Hpool).
    eexists. split; [reflexivity |]. cbn [heap open_inodes trace].
    do 3 (split; [reflexivity |]). intros rm.
    set (i1 := fresh_inode sec _). set (w1 := mk_world _ _ _ _ _ _ _).
    assert (Hopen2 : inode_open sec w1
                     = Some (Some a, set_heap (<[a := set_open_cnt 2 i1]> (heap w1)) w1)).
    { unfold inode_open. subst w1. cbn [heap open_inodes find_open].
      rewrite lookup_insert_eq. cbn [sector i1 fresh_inode].
      rewrite Z.eqb_refl. unfold inode_reopen. cbn [heap].
      by rewrite lookup_insert_eq. }
    rewrite Hopen2. set (w2 := set_heap _ w1).
    set (i2 := set_open_cnt 2 i1).
    set (i2' := if rm then set_removed true i2 else i2).
    set (w2' := set_heap (<[a := i2']> (heap w2)) w2).
    set (i3 := set_open_cnt 1 i2').
    set (w3 := set_heap (<[a := i3]> (heap w2')) w2').
    assert (Hi3 : heap w3 !! a = Some i3) by apply lookup_insert_eq.
    destruct (inode_close_last w3 a i3 Hi3 eq_refl)
      as (w4 & Hc4 & H4l & _ & H4t & _ & H4h & _).
    assert (H4n : a ∉ open_inodes w4)
      by (rewrite H4l; apply list_remove_not_elem).
    exists w2, w2', w3, w4, i2, i3.
    split; [reflexivity |].
    split; [apply lookup_insert_eq |]. split; [reflexivity |].
    split; [reflexivity |].
    split.
    { destruct rm; subst w2' i2'; cbn [inode_remove].
      - subst w2. cbn [heap set_heap]. by rewrite lookup_insert_eq.
      - f_equal. subst w2. unfold set_heap. cbn [heap disk fat fat_length open_inodes pool trace].
        by rewrite insert_insert_eq. }
    split.
    { cbn [inode_close]. subst w2'. cbn [heap set_heap].
      rewrite lookup_insert_eq.
      replace (open_cnt (set_open_cnt (open_cnt i2' - 1) i2') =? 0) with false
        by (by destruct rm).
      replace (open_cnt i2' - 1) with 1 by (by destruct rm). reflexivity. }
    split; [done |]. split; [reflexivity |].
    split; [by destruct rm |].
    split; [left |].
    do 3 (split; [reflexivity |]).
    split; [done |].
    split; [rewrite H4h; apply lookup_delete_eq |].
    split; [done |].
    rewrite H4t. unfold last_close_events.
    replace (removed i3) with rm by (by destruct rm).
    replace (sector i3) with sec by (by destruct rm).
    replace (id_start (data i3)) with (id_start (data i1)) by (by destruct rm).
    replace (data i3) with (data i1) by (by destruct rm).
    reflexivity.
Qed.

(** *** Write denial *)


(** *** The transfer loops: how many bytes *)

Lemma chunk_bounds (size offset len : Z) :
  0 < size → 0 ≤ offset →
  let sector_ofs := Z.rem offset DISK_SECTOR_SIZE in
  let inode_left := len - offset in
  let sector_left := DISK_SECTOR_SIZE - sector_ofs in
  let min_left := if inode_left <? sector_left then inode_left else sector_left in
  let chunk_size := if size <? min_left then size else min_left in
  0 ≤ sector_ofs < 512 ∧ chunk_size ≤ size ∧ chunk_size ≤ sector_left ∧
  chunk_size ≤ inode_left ∧ (chunk_size ≤ 0 → len - offset ≤ 0).
Proof.
  intros Hsize Hoff. cbv zeta. unfold DISK_SECTOR_SIZE.
  pose proof (Z.rem_bound_pos offset 512 Hoff ltac:(lia)).
  destruct (Z.ltb_spec (len - offset) (512 - Z.rem offset 512));
    match goal with
    | |- context [size <? ?y] => destruct (Z.ltb_spec size y)
    end; lia.
Qed.

Lemma read_loop_count (ino : inode) (fuel : nat) :
  ∀ size offset bytes_read out bounce w,
    (Z.to_nat size ≤ fuel)%nat → 0 ≤ size → 0 ≤ offset →
    ∃ n out' bounce' w',
      read_loop SECTORS_PER_CLUSTER cluster_to_sector sector_to_cluster
        fuel ino size offset bytes_read out bounce w = (n, out', bounce', w')
      ∧ bytes_read ≤ n
        ≤ bytes_read + Z.min size (Z.max 0 (inode_length ino - offset))
      ∧ (bounce_available bounce w →
         n = bytes_read + Z.min size (Z.max 0 (inode_length ino - offset)))
      ∧ length out' = (length out + Z.to_nat (n - bytes_read))%nat
      ∧ pool (free_opt bounce' w') = pool (free_opt bounce w)
      ∧ disk w' = disk w ∧ fat w' = fat w ∧ heap w' = heap w
      ∧ open_inodes w' = open_inodes w.
Proof.
  induction fuel as [| fuel IH]; intros size offset bytes_read out bounce w
    Hfuel Hsize Hoff; cbn [read_loop].
  { destruct (Z.gtb_spec size 0); [lia |].
    eexists _, _, _, _. split; [reflexivity |]. repeat split; try lia. }
  destruct (Z.gtb_spec size 0) as [Hpos |];
    [| eexists _, _, _, _; split; [reflexivity |]; repeat split; try lia].
  pose proof (chunk_bounds size offset (inode_length ino) Hpos Hoff) as Hb.
  cbv zeta in Hb.
  set (sector_ofs := Z.rem offset DISK_SECTOR_SIZE) in *.
  set (sector_left := DISK_SECTOR_SIZE - sector_ofs) in *.
  set (min_left := if inode_length ino - offset <? sector_left
                   then inode_length ino - offset else sector_left) in *.
  set (chunk_size := if size <? min_left then size else min_left) in *.
  destruct Hb as (Hofs & Hcs & Hcl & Hci & Hc0).
  destruct (Z.leb_spec chunk_size 0) as [Hle | Hgt].
  { eexists _, _, _, _. split; [reflexivity |]. repeat split; try lia. }
  assert (Hpiece : ∀ b : block,
             length (take (Z.to_nat chunk_size)
                       (drop (Z.to_nat sector_ofs) (resize sector_size 0 b)))
             = Z.to_nat chunk_size).
  { intros b. rewrite length_take, length_drop, length_resize.
    unfold sector_size. unfold sector_left, DISK_SECTOR_SIZE in Hcl. lia. }
  destruct ((sector_ofs =? 0) && (chunk_size =? DISK_SECTOR_SIZE)) eqn:Hfull;
    [apply andb_true_iff in Hfull as [_ Hfull%Z.eqb_eq]
    | unfold get_bounce, malloc;
      destruct bounce as [bn |]; [| destruct (pool w) as [| bn p] eqn:Hpool0]].
  3: { eexists _, _, _, _. split; [reflexivity |].
       split; [lia |]. split; [intros [? | ?]; done |].
       repeat split; try done. lia. }
  all: unfold disk_read at 1;
    match goal with
    | |- context [read_loop _ _ _ _ _ ?sz ?off ?br ?o ?b ?w1] =>
        destruct (IH sz off br o b w1)
          as (n & out' & b' & w' & -> & Hn & Hav & Hlen & Hpool & Hd & Hf & Hh & Ho);
        [lia | lia | lia |]
    end;
    eexists _, _, _, _; (split; [reflexivity |]);
    (split; [lia |]).
  - split; [intros Ha; rewrite Hav; [lia | destruct Ha; [by left | by right]] |].
    split.
    { rewrite Hlen, length_app, length_resize.
      unfold sector_size. unfold DISK_SECTOR_SIZE in Hfull. lia. }
    split; [rewrite Hpool; by destruct bounce |]. by repeat split.
  - split; [intros _; rewrite Hav; [lia | by left] |].
    split; [rewrite Hlen, length_app, Hpiece; lia |]. by repeat split.
  - split; [intros _; rewrite Hav; [lia | by left] |].
    split; [rewrite Hlen, length_app, Hpiece; lia |].
    split; [rewrite Hpool; cbn [free_opt free set_pool emit pool]; done |].
    by repeat split.
Qed.

Lemma write_loop_count (ino : inode) (buffer : list Z) (fuel : nat) :
  ∀ size offset bytes_written bounce w,
    (Z.to_nat size ≤ fuel)%nat → 0 ≤ size → 0 ≤ offset →
    ∃ n bounce' w',
      write_loop SECTORS_PER_CLUSTER cluster_to_sector sector_to_cluster
        fuel ino buffer size offset bytes_written bounce w = (n, bounce', w')
      ∧ bytes_written ≤ n
        ≤ bytes_written + Z.min size (Z.max 0 (inode_length ino - offset))
      ∧ (bounce_available bounce w →
         n = bytes_written + Z.min size (Z.max 0 (inode_length ino - offset)))
      ∧ pool (free_opt bounce' w') = pool (free_opt bounce w)
      ∧ fat w' = fat w ∧ heap w' = heap w ∧ open_inodes w' = open_inodes w.
Proof.
  induction fuel as [| fuel IH]; intros size offset bytes_written bounce w
    Hfuel Hsize Hoff; cbn [write_loop].
  { destruct (Z.gtb_spec size 0); [lia |].
    eexists _, _, _. split; [reflexivity |]. repeat split; try lia. }
  destruct (Z.gtb_spec size 0) as [Hpos |];
    [| eexists _, _, _; split; [reflexivity |]; repeat split; try lia].
  pose proof (chunk_bounds size offset (inode_length ino) Hpos Hoff) as Hb.
  cbv zeta in Hb.
  set (sector_ofs := Z.rem offset DISK_SECTOR_SIZE) in *.
  set (sector_left := DISK_SECTOR_SIZE - sector_ofs) in *.
  set (min_left := if inode_length ino - offset <? sector_left
                   then inode_length ino - offset else sector_left) in *.
  set (chunk_size := if size <? min_left then size else min_left) in *.
  destruct Hb as (Hofs & Hcs & Hcl & Hci & Hc0).
  destruct (Z.leb_spec chunk_size 0) as [Hle | Hgt].
  { eexists _, _, _. split; [reflexivity |]. repeat split; try lia. }
  destruct ((sector_ofs =? 0) && (chunk_size =? DISK_SECTOR_SIZE)) eqn:Hfull;
    [| unfold get_bounce, malloc;
       destruct bounce as [bn |];
       [destruct ((sector_ofs >? 0) || (chunk_size <? sector_left))
       | destruct (pool w) as [| bn p] eqn:Hpool0;
         [| destruct ((sector_ofs >? 0) || (chunk_size <? sector_left))]]].
  all: try unfold disk_read at 1; cbv beta iota zeta.
  all: try match goal with
    | |- context [write_loop _ _ _ _ _ _ ?sz ?off ?bw ?b ?w1] =>
        destruct (IH sz off bw b w1)
          as (n & b' & w' & -> & Hn & Hav & Hpool & Hf & Hh & Ho);
        [lia | lia | lia |]
    end.
  all: eexists _, _, _; (split; [reflexivity |]); (split; [lia |]).
  - split; [intros Ha; rewrite Hav; [lia | destruct Ha; [by left | by right]] |].
    split; [rewrite Hpool; by destruct bounce |]. by repeat split.
  - split; [intros _; rewrite Hav; [lia | by left] |]. by repeat split.
  - split; [intros _; rewrite Hav; [lia | by left] |]. by repeat split.
  - split; [intros [? | ?]; done |]. by repeat split.
  - split; [intros _; rewrite Hav; [lia | by left] |].
    split; [rewrite Hpool; cbn [free_opt free set_pool emit pool]; done |].
    by repeat split.
  - split; [intros _; rewrite Hav; [lia | by left] |].
    split; [rewrite Hpool; cbn [free_opt free set_pool emit pool]; done |].
    by repeat split.
Qed.


(** *** Growth and writes *)

Lemma fat_create_chain_frame (clst : Z) (w : world) :
  heap (fat_create_chain clst w).2 = heap w
  ∧ pool (fat_create_chain clst w).2 = pool w
  ∧ open_inodes (fat_create_chain clst w).2 = open_inodes w
  ∧ disk (fat_create_chain clst w).2 = disk w
  ∧ fat_length (fat_create_chain clst w).2 = fat_length w.
Proof.
  unfold fat_create_chain.
  by destruct (find_free (fat w) (fat_length w)).
Qed.

Lemma growth_loop_frame (a : addr) (ino : inode) (origin_length new_length : Z)
    (fuel : nat) :
  ∀ growth last_clst w,
    heap w !! a = Some (set_length new_length ino) →
    ∃ ok w1 len1,
      growth_loop cluster_to_sector fuel a ino origin_length new_length
        growth last_clst w = (ok, w1)
      ∧ heap w1 !! a = Some (set_length len1 ino)
      ∧ pool w1 = pool w
      ∧ (ok = true → len1 = new_length).
Proof.
  induction fuel as [| fuel IH]; intros growth last_clst w Hh;
    cbn [growth_loop].
  { destruct (growth <? new_length - origin_length);
      eexists _, _, _; (split; [reflexivity |]); by repeat split. }
  destruct (growth <? new_length - origin_length);
    [| eexists _, _, _; (split; [reflexivity |]); by repeat split].
  destruct (fat_create_chain_frame last_clst w) as (Hfh & Hfp & _).
  destruct (fat_create_chain last_clst w) as [c w1]. cbn [snd] in Hfh, Hfp.
  destruct (c =? 0).
  - destruct (Z.rem origin_length DISK_SECTOR_SIZE =? 0);
      eexists _, _, _; (split; [reflexivity |]);
      (split; [apply lookup_insert_eq |]); by split.
  - destruct (IH (growth + DISK_SECTOR_SIZE) c
                (disk_write (cluster_to_sector c) zeros w1))
      as (ok & w2 & len1 & -> & Hh2 & Hp2 & Hok).
    { world_simpl. by rewrite Hfh. }
    eexists _, _, _. split; [reflexivity |]. split; [done |].
    split; [by rewrite Hp2 |]. done.
Qed.

Lemma file_growth_frame (a : addr) (ino : inode) (new_length : Z) (w : world) :
  ∃ ok w1 len1,
    file_growth SECTORS_PER_CLUSTER cluster_to_sector sector_to_cluster
      a ino new_length w = (ok, w1)
    ∧ heap w1 !! a = Some (set_length len1 ino)
    ∧ pool w1 = pool w
    ∧ (ok = true → len1 = new_length).
Proof.
  unfold file_growth.
  destruct ((Z.rem (inode_length ino) DISK_SECTOR_SIZE =? 0)
            || (new_length >?
                inode_length ino - Z.rem (inode_length ino) DISK_SECTOR_SIZE
                + DISK_SECTOR_SIZE)).
  - match goal with
    | |- context [growth_loop _ ?fl _ _ ?o ?nl ?g ?l ?w0] =>
        destruct (growth_loop_frame a ino o nl fl g l w0)
          as (ok & w1 & len1 & -> & ? & ? & ?); [apply lookup_insert_eq |]
    end.
    eexists _, _, _. split; [reflexivity |]. split; [eassumption |].
    by split.
  - eexists _, _, _. split; [reflexivity |].
    split; [apply lookup_insert_eq |]. by split.
Qed.

Lemma granted_app (evs1 evs2 : list event) :
  granted (evs1 ++ evs2) = granted evs1 + granted evs2.
Proof.
  induction evs1 as [| e evs1 IH]; cbn [app granted]; [lia |].
  destruct e; lia.
Qed.

Lemma growth_loop_rollback (a : addr) (ino : inode) (origin_length new_length : Z)
    (fuel : nat) :
  ∀ growth last_clst w w',
    Z.rem growth DISK_SECTOR_SIZE = 0 →
    growth_loop cluster_to_sector fuel a ino origin_length new_length
      growth last_clst w = (false, w') →
    ∃ evs,
      trace w' = trace w ++ evs
      ∧ heap w' !! a
        = Some (set_length
                  (origin_length + growth + DISK_SECTOR_SIZE * granted evs
                   + (if Z.rem origin_length DISK_SECTOR_SIZE =? 0
                      then 0 else DISK_SECTOR_SIZE)) ino).
Proof.
  clear sector_to_cluster.
  induction fuel as [| fuel IH]; intros growth last_clst w w' Hrem;
    cbn [growth_loop].
  { by destruct (growth <? new_length - origin_length). }
  destruct (growth <? new_length - origin_length); [| done].
  unfold fat_create_chain.
  destruct (find_free (fat w) (fat_length w)) as [c |] eqn:Hfree.
  - pose proof (find_free_Some _ _ _ Hfree) as [_ Hrange].
    destruct (Z.eqb_spec c 0) as [-> | Hc0]; [lia |].
    intros Hloop. apply IH in Hloop as (evs & Htr & Hh).
    2: { unfold DISK_SECTOR_SIZE in *. Z.to_euclidean_division_equations. lia. }
    eexists. split.
    { rewrite Htr. world_simpl. rewrite <- !app_assoc. reflexivity. }
    rewrite Hh. do 2 f_equal. rewrite !granted_app. cbn [granted].
    destruct (Z.eqb_spec c 0); [done |]. unfold DISK_SECTOR_SIZE. lia.
  - rewrite Z.eqb_refl.
    destruct (Z.rem origin_length DISK_SECTOR_SIZE =? 0);
      intros [= <-]; exists [FatCreateChain last_clst 0];
      (split; [reflexivity |]); unfold store_length; world_simpl;
      rewrite lookup_insert_eq; do 2 f_equal; cbn [granted Z.eqb];
      rewrite ?Hrem; unfold DISK_SECTOR_SIZE; lia.
Qed.

(** What [file_growth] leaves as the length when the allocator runs out
    after granting [k] clusters: [origin_length + 512 * k] for a
    sector-aligned [origin_length], and a whole sector more than that
    otherwise. *)
Lemma file_growth_rollback (a : addr) (ino : inode) (new_length : Z)
    (w w' : world) :
  file_growth SECTORS_PER_CLUSTER cluster_to_sector sector_to_cluster
    a ino new_length w = (false, w') →
  ∃ evs,
    trace w' = trace w ++ evs
    ∧ heap w' !! a
      = Some (set_length
                (inode_length ino + DISK_SECTOR_SIZE * granted evs
                 + (if Z.rem (inode_length ino) DISK_SECTOR_SIZE =? 0
                    then 0 else DISK_SECTOR_SIZE)) ino).
Proof.
  unfold file_growth.
  destruct ((Z.rem (inode_length ino) DISK_SECTOR_SIZE =? 0)
            || (new_length >?
                inode_length ino - Z.rem (inode_length ino) DISK_SECTOR_SIZE
                + DISK_SECTOR_SIZE)); [| done].
  intros Hloop. apply growth_loop_rollback in Hloop as (evs & Htr & Hh);
    [| reflexivity].
  exists evs. split; [exact Htr |]. rewrite Hh. do 2 f_equal. lia.
Qed.

(** The count of [inode_write_at] on an inode that accepts writes, in
    terms of the inode [ino'] that the growth step leaves at [a]. *)
Lemma chunk_at_eq (len size offset : Z) :
  (let sector_ofs := Z.rem offset DISK_SECTOR_SIZE in
   let inode_left := len - offset in
   let sector_left := DISK_SECTOR_SIZE - sector_ofs in
   let min_left := if inode_left <? sector_left then inode_left else sector_left in
   if size <? min_left then size else min_left)
  = chunk_at len size offset.
Proof.
  clear SECTORS_PER_CLUSTER cluster_to_sector sector_to_cluster.
  cbv zeta. unfold chunk_at.
  destruct (Z.ltb_spec (len - offset)
              (DISK_SECTOR_SIZE - Z.rem offset DISK_SECTOR_SIZE));
    match goal with |- (if ?x <? ?y then _ else _) = _ =>
      destruct (Z.ltb_spec x y) end; lia.
Qed.

(** Where the loop of [inode_write_at] stops: at the end of the request or
    of the file, or at a chunk that needs the bounce buffer when none can
    be had. *)
Lemma write_loop_stop (ino : inode) (buffer : list Z) (fuel : nat) :
  ∀ size offset bytes_written bounce w,
    (Z.to_nat size ≤ fuel)%nat → 0 ≤ size → 0 ≤ offset →
    ∃ n bounce' w',
      write_loop SECTORS_PER_CLUSTER cluster_to_sector sector_to_cluster
        fuel ino buffer size offset bytes_written bounce w = (n, bounce', w')
      ∧ (n = bytes_written + Z.min size (Z.max 0 (inode_length ino - offset))
         ∨ (bounce = None ∧ pool w = [] ∧ bytes_written ≤ n
            ∧ needs_bounce (inode_length ino) (size - (n - bytes_written))
                (offset + (n - bytes_written)))).
Proof.
  induction fuel as [| fuel IH]; intros size offset bytes_written bounce w
    Hfuel Hsize Hoff; cbn [write_loop].
  { destruct (Z.gtb_spec size 0); [lia |].
    eexists _, _, _. split; [reflexivity |]. left. lia. }
  destruct (Z.gtb_spec size 0) as [Hpos |];
    [| eexists _, _, _; split; [reflexivity |]; left; lia].
  pose proof (chunk_bounds size offset (inode_length ino) Hpos Hoff) as Hb.
  pose proof (chunk_at_eq (inode_length ino) size offset) as Hca.
  cbv zeta in Hb, Hca.
  set (sector_ofs := Z.rem offset DISK_SECTOR_SIZE) in *.
  set (sector_left := DISK_SECTOR_SIZE - sector_ofs) in *.
  set (min_left := if inode_length ino - offset <? sector_left
                   then inode_length ino - offset else sector_left) in *.
  set (chunk_size := if size <? min_left then size else min_left) in *.
  destruct Hb as (Hofs & Hcs & Hcl & Hci & Hc0).
  destruct (Z.leb_spec chunk_size 0) as [Hle | Hgt].
  { eexists _, _, _. split; [reflexivity |]. left. lia. }
  destruct ((sector_ofs =? 0) && (chunk_size =? DISK_SECTOR_SIZE)) eqn:Hfull;
    [| unfold get_bounce, malloc;
       destruct bounce as [bn |];
       [destruct ((sector_ofs >? 0) || (chunk_size <? sector_left))
       | destruct (pool w) as [| bn p] eqn:Hpool0;
         [| destruct ((sector_ofs >? 0) || (chunk_size <? sector_left))]]].
  all: try unfold disk_read at 1; cbv beta iota zeta.
  all: try match goal with
    | |- context [write_loop _ _ _ _ _ _ ?sz ?off ?bw ?b ?w1] =>
        destruct (IH sz off bw b w1) as (n & b' & w' & -> & Hstop);
        [lia | lia | lia |]
    end.
  all: eexists _, _, _; (split; [reflexivity |]).
  - destruct Hstop as [-> | (Hb0 & Hp & Hn & Hnb)]; [left; lia |].
    right. split; [done |]. split; [done |]. split; [lia |].
    replace (size - (n - bytes_written))
      with (size - chunk_size - (n - (bytes_written + chunk_size))) by lia.
    replace (offset + (n - bytes_written))
      with (offset + chunk_size + (n - (bytes_written + chunk_size))) by lia.
    done.
  - destruct Hstop as [-> | (? & _)]; [left; lia | done].
  - destruct Hstop as [-> | (? & _)]; [left; lia | done].
  - right. split; [done |]. split; [done |]. split; [lia |].
    rewrite Z.sub_diag, Z.sub_0_r, Z.add_0_r. unfold needs_bounce.
    rewrite <- Hca. split; [lia |]. intros [H1 H2].
    fold sector_ofs in H1. rewrite H1, H2 in Hfull. done.
  - destruct Hstop as [-> | (? & _)]; [left; lia | done].
  - destruct Hstop as [-> | (? & _)]; [left; lia | done].
Qed.

(** The loop of [inode_write_at] only adds to the log of device calls. *)
Lemma write_loop_trace (ino : inode) (buffer : list Z) (fuel : nat) :
  ∀ size offset bytes_written bounce w,
    ∃ evs,
      trace (write_loop SECTORS_PER_CLUSTER cluster_to_sector
               sector_to_cluster fuel ino buffer size offset bytes_written
               bounce w).2
      = trace w ++ evs.
Proof.
  induction fuel as [| fuel IH]; intros size offset bytes_written bounce w;
    cbn [write_loop].
  { destruct (size >? 0); exists []; by rewrite app_nil_r. }
  destruct (size >? 0); [| exists []; by rewrite app_nil_r].
  set (sector_ofs := Z.rem offset DISK_SECTOR_SIZE).
  set (sector_left := DISK_SECTOR_SIZE - sector_ofs).
  set (min_left := if inode_length ino - offset <? sector_left
                   then inode_length ino - offset else sector_left).
  set (chunk_size := if size <? min_left then size else min_left).
  destruct (chunk_size <=? 0); [exists []; by rewrite app_nil_r |].
  destruct ((sector_ofs =? 0) && (chunk_size =? DISK_SECTOR_SIZE));
    [| unfold get_bounce, malloc;
       destruct bounce as [bn |];
       [destruct ((sector_ofs >? 0) || (chunk_size <? sector_left))
       | destruct (pool w) as [| bn p] eqn:Hpool0;
         [| destruct ((sector_ofs >? 0) || (chunk_size <? sector_left))]]].
  all: try unfold disk_read at 1; cbv beta iota zeta.
  all: try match goal with
    | |- context [write_loop _ _ _ _ _ _ ?sz ?off ?bw ?b ?w1] =>
        destruct (IH sz off bw b w1) as (evs & ->)
    end.
  all: world_simpl; eexists; rewrite <- ?app_assoc; try reflexivity.
  by rewrite app_nil_r.
Qed.

(** When the loop of [inode_write_at] has transferred anything, the log
    continues with the device calls of the first chunk. *)
Lemma write_loop_first (ino : inode) (buffer : list Z) (fuel : nat)
    (size offset : Z) (bounce : option addr) (w : world) (n : Z)
    (bounce' : option addr) (w' : world) :
  0 ≤ offset →
  write_loop SECTORS_PER_CLUSTER cluster_to_sector sector_to_cluster
    fuel ino buffer size offset 0 bounce w = (n, bounce', w') →
  0 < n →
  ∃ evs, trace w' = trace w ++ first_write ino buffer size offset w ++ evs.
Proof.
  intros Hoff. destruct fuel as [| fuel]; cbn [write_loop].
  { destruct (size >? 0); intros [= <- _ _]; lia. }
  destruct (Z.gtb_spec size 0) as [Hpos |]; [| intros [= <- _ _]; lia].
  pose proof (chunk_bounds size offset (inode_length ino) Hpos Hoff) as Hb.
  pose proof (chunk_at_eq (inode_length ino) size offset) as Hca.
  cbv zeta in Hb, Hca. unfold first_write. rewrite <- Hca. clear Hca.
  set (s := byte_to_sector SECTORS_PER_CLUSTER cluster_to_sector
              sector_to_cluster (fat w) ino offset).
  set (sector_ofs := Z.rem offset DISK_SECTOR_SIZE) in *.
  set (sector_left := DISK_SECTOR_SIZE - sector_ofs) in *.
  set (min_left := if inode_length ino - offset <? sector_left
                   then inode_length ino - offset else sector_left) in *.
  set (chunk_size := if size <? min_left then size else min_left) in *.
  destruct Hb as (Hofs & Hcs & Hcl & Hci & Hc0).
  destruct (Z.leb_spec chunk_size 0) as [Hle | Hgt]; [intros [= <- _ _]; lia |].
  assert (Hold : length (sector_content (disk w) s) = 512%nat)
    by apply length_resize.
  change (Z.to_nat 0) with 0%nat. rewrite drop_0.
  destruct ((sector_ofs =? 0) && (chunk_size =? DISK_SECTOR_SIZE)) eqn:Hfull.
  - apply andb_true_iff in Hfull as [H1%Z.eqb_eq H2%Z.eqb_eq].
    intros Hloop _.
    match type of Hloop with
    | write_loop _ _ _ ?fl _ _ ?sz ?off ?bw ?b ?w1 = _ =>
        destruct (write_loop_trace ino buffer fl sz off bw b w1) as [evs Hev]
    end.
    rewrite Hloop in Hev. cbn [snd] in Hev. exists evs. rewrite Hev.
    world_simpl. rewrite <- !app_assoc. cbn [app]. do 4 f_equal.
    rewrite H1, H2. change (Z.to_nat 0) with 0%nat. rewrite take_0.
    rewrite (drop_ge (sector_content (disk w) s))
      by (rewrite Hold; unfold DISK_SECTOR_SIZE; lia).
    by rewrite app_nil_r.
  - assert (Hread : (sector_ofs >? 0) || (chunk_size <? sector_left) = true).
    { apply andb_false_iff in Hfull.
      destruct (Z.gtb_spec sector_ofs 0); [done |].
      destruct (Z.ltb_spec chunk_size sector_left); [done |].
      assert (sector_ofs = 0) as E0 by lia.
      destruct Hfull as [Hx | Hx]; apply Z.eqb_neq in Hx; [done |].
      unfold sector_left, DISK_SECTOR_SIZE in *. lia. }
    rewrite Hread. unfold get_bounce, malloc.
    destruct bounce as [bn |];
      [| destruct (pool w) as [| bn p] eqn:Hpool0; [intros [= <- _ _]; lia |]].
    all: unfold disk_read at 1; cbv beta iota zeta; intros Hloop _;
      match type of Hloop with
      | write_loop _ _ _ ?fl _ _ ?sz ?off ?bw ?b ?w1 = _ =>
          destruct (write_loop_trace ino buffer fl sz off bw b w1) as [evs Hev]
      end;
      rewrite Hloop in Hev; cbn [snd] in Hev; exists evs; rewrite Hev;
      world_simpl; by rewrite <- !app_assoc.
Qed.

(** The outcome of a write that is not refused. *)
Lemma inode_write_at_outcome (w : world) (a : addr) (ino : inode)
    (buffer : list Z) (size offset : Z) :
  heap w !! a = Some ino → deny_write_cnt ino = 0 → 0 < size → 0 ≤ offset →
  let grow := offset + size >? inode_length ino in
  let g := file_growth SECTORS_PER_CLUSTER cluster_to_sector sector_to_cluster
             a ino (offset + size) w in
  let wg := if grow then g.2 else w in
  ∃ n w' ino',
    inode_write_at SECTORS_PER_CLUSTER cluster_to_sector sector_to_cluster
      a buffer size offset w = Some (n, w')
    ∧ heap wg !! a = Some ino' ∧ heap w' !! a = Some ino'
    ∧ 0 ≤ n ≤ Z.min size (Z.max 0 (inode_length ino' - offset))
    ∧ (n = Z.min size (Z.max 0 (inode_length ino' - offset))
       ∨ (pool w = []
          ∧ needs_bounce (inode_length ino') (size - n) (offset + n)))
    ∧ (grow = false → ino' = ino)
    ∧ (grow = true → g.1 = true → inode_length ino' = offset + size)
    ∧ (0 < n →
       ∃ evs,
         trace w' = trace wg ++ first_write ino' buffer size offset wg ++ evs).
Proof.
  intros Hino Hdeny Hsize Hoff grow g wg. unfold inode_write_at.
  rewrite Hino, Hdeny. cbn [Z.eqb]. fold grow. fold g. fold wg.
  destruct (file_growth_frame a ino (offset + size) w)
    as (ok & wg' & len1 & Hg & Hgh & Hgp & Hok). fold g in Hg.
  assert (Hw1 : ∃ ino1, heap wg !! a = Some ino1 ∧ pool wg = pool w
                ∧ (grow = false → ino1 = ino)
                ∧ (grow = true → g.1 = true →
                   inode_length ino1 = offset + size)).
  { subst wg. destruct grow.
    - rewrite Hg. cbn [fst snd]. exists (set_length len1 ino).
      split; [done |]. split; [done |]. split; [done |].
      intros _ Htrue. by rewrite (Hok Htrue).
    - exists ino. by repeat split. }
  destruct Hw1 as (ino1 & Hh1 & Hp1 & Hsame & Hgrown). rewrite Hh1.
  destruct (write_loop SECTORS_PER_CLUSTER cluster_to_sector sector_to_cluster
              (Z.to_nat size) ino1 buffer size offset 0 None wg)
    as [[n b'] w'] eqn:E.
  destruct (write_loop_count ino1 buffer (Z.to_nat size) size offset 0 None wg)
    as (n1 & b1 & w1 & E1 & Hn & _ & _ & _ & Hh & _); [lia | lia | done |].
  rewrite E in E1. injection E1 as <- <- <-.
  destruct (write_loop_stop ino1 buffer (Z.to_nat size) size offset 0 None wg)
    as (n2 & b2 & w2 & E2 & Hstop); [lia | lia | done |].
  rewrite E in E2. injection E2 as <- <- <-.
  exists n, (free_opt b' w'), ino1. split; [reflexivity |].
  split; [done |].
  split; [replace (heap (free_opt b' w')) with (heap w') by (by destruct b');
          by rewrite Hh |].
  split; [lia |].
  split.
  { destruct Hstop as [-> | (_ & Hp & _ & Hnb)]; [left; lia |].
    right. split; [by rewrite <- Hp1 |].
    by rewrite Z.sub_0_r in Hnb. }
  split; [done |]. split; [done |].
  intros Hpos.
  replace (trace (free_opt b' w')) with (trace w') by (by destruct b').
  by eapply write_loop_first.
Qed.


Lemma allow_write_times_all (a : addr) (d : nat) :
  ∀ w ino,
    heap w !! a = Some ino → deny_write_cnt ino = Z.of_nat d →
    Z.of_nat d ≤ open_cnt ino →
    allow_write_times d a w
    = Some (set_heap (<[a := set_deny_write_cnt 0 ino]> (heap w)) w).
Proof.
  clear SECTORS_PER_CLUSTER cluster_to_sector sector_to_cluster.
  induction d as [| d IH]; intros w ino Hino Hd Hopen; cbn [allow_write_times].
  - f_equal. destruct w as [dk f n h l p t], ino as [s c r dw dt].
    cbn in *. subst dw. unfold set_heap. cbn. f_equal.
    symmetry. by apply insert_id.
  - unfold inode_allow_write. rewrite Hino.
    destruct (Z.gtb_spec (deny_write_cnt ino) 0); [| lia].
    destruct (Z.leb_spec (deny_write_cnt ino) (open_cnt ino)); [| lia].
    rewrite (IH _ (set_deny_write_cnt (deny_write_cnt ino - 1) ino));
      [| cbn [set_heap heap]; apply lookup_insert_eq | cbn; lia | cbn; lia].
    f_equal. cbn [set_heap heap disk fat fat_length open_inodes pool trace].
    unfold set_heap. cbn. f_equal. by rewrite insert_insert_eq.
Qed.


(** *** Creation *)

Lemma resize_zeros : resize sector_size 0 zeros = zeros.
Proof. reflexivity. Qed.

Lemma zero_filled_lookup (cs : list Z) :
  ∀ d c, c ∈ cs → zero_filled cs d !! cluster_to_sector c = Some zeros.
Proof.
  unfold zero_filled.
  induction cs as [| x cs IH] using rev_ind; intros d c Hc.
  - by apply elem_of_nil in Hc.
  - rewrite foldl_app. cbn [foldl].
    destruct (decide (cluster_to_sector x = cluster_to_sector c)) as [-> | Hne].
    + apply lookup_insert_eq.
    + rewrite lookup_insert_ne by done. apply IH.
      apply elem_of_app in Hc as [? | Hc]; [done |].
      apply list_elem_of_singleton in Hc. by subst.
Qed.

Lemma create_loop_success (fuel : nat) :
  ∀ length startclst first start w start' w',
    -512 ≤ length → (Z.to_nat (length / 512 + 1) ≤ fuel)%nat →
    create_loop cluster_to_sector fuel length startclst first start w
    = (Some start', w') →
    ∃ cs,
      List.length cs = Z.to_nat (length / 512 + 1)
      ∧ appended (fat_length w) startclst cs (fat w) (fat w')
      ∧ trace w' = trace w ++ alloc_events startclst cs
      ∧ disk w' = zero_filled cs (disk w)
      ∧ start' = (if first then default start (cluster_to_sector <$> cs !! 0%nat)
                  else start)
      ∧ heap w' = heap w ∧ pool w' = pool w ∧ open_inodes w' = open_inodes w
      ∧ fat_length w' = fat_length w.
Proof.
  clear SECTORS_PER_CLUSTER sector_to_cluster.
  induction fuel as [| fuel IH];
    intros length startclst first start w start' w' Hlo Hfuel;
    cbn [create_loop].
  - destruct (Z.geb_spec length 0) as [Hge | Hlt].
    { assert (0 ≤ length / 512) by (apply Z.div_pos; lia). lia. }
    intros [= <- <-]. exists []. cbn [List.length].
    assert (length / 512 = -1) by (Z.to_euclidean_division_equations; lia).
    split; [lia |]. cbn. rewrite app_nil_r.
    repeat split; by destruct first.
  - destruct (Z.geb_spec length 0) as [Hge | Hlt].
    2: { intros [= <- <-]. exists []. cbn [List.length].
         assert (length / 512 = -1) by (Z.to_euclidean_division_equations; lia).
         split; [lia |]. cbn. rewrite app_nil_r.
         repeat split; by destruct first. }
    unfold fat_create_chain.
    destruct (find_free (fat w) (fat_length w)) as [c |] eqn:Hfree;
      [| by rewrite Z.eqb_refl].
    pose proof (find_free_Some _ _ _ Hfree) as [_ Hrange].
    destruct (Z.eqb_spec c 0) as [-> | Hc0]; [lia |].
    intros Hloop.
    assert (Hdiv : (length - DISK_SECTOR_SIZE) / 512 + 1 = length / 512).
    { unfold DISK_SECTOR_SIZE. Z.to_euclidean_division_equations. lia. }
    apply IH in Hloop as (cs & Hlen & Happ & Htr & Hd & Hst & Hh & Hp & Ho & Hfl);
      [| unfold DISK_SECTOR_SIZE; lia
       | rewrite Hdiv;
         assert (0 ≤ length / 512) by (apply Z.div_pos; lia); lia].
    exists (c :: cs). cbn [List.length appended alloc_events].
    split.
    { rewrite Hlen, Hdiv.
      assert (0 ≤ length / 512) by (apply Z.div_pos; lia). lia. }
    split; [split; [done |]; exact Happ |].
    split.
    { rewrite Htr. world_simpl. rewrite resize_zeros.
      by rewrite <- !app_assoc. }
    split.
    { rewrite Hd. world_simpl. by rewrite resize_zeros. }
    split; [by destruct first |].
    by repeat split.
Qed.

(** What a successful [inode_create] leaves behind: the clusters [cs] it
    took, all free before and chained in order, and the new record. *)
Lemma inode_create_success (w w' : world) (sec length : Z) :
  inode_create cluster_to_sector sec length w = Some (true, w') →
  0 ≤ length ∧
  ∃ cs first_c,
    List.length cs = Z.to_nat (length / 512 + 1)
    ∧ cs !! 0%nat = Some first_c
    ∧ appended (fat_length w) 0 cs (fat w) (fat w')
    ∧ trace w'
      = trace w ++ alloc_events 0 cs
        ++ [DiskWrite sec
              (encode_inode_disk
                 (created_record (cluster_to_sector first_c) length))]
    ∧ disk w'
      = <[sec := encode_inode_disk
                   (created_record (cluster_to_sector first_c) length)]>
          (zero_filled cs (disk w))
    ∧ heap w' = heap w ∧ pool w' = pool w ∧ open_inodes w' = open_inodes w
    ∧ fat_length w' = fat_length w.
Proof.
  clear sector_to_cluster.
  unfold inode_create.
  destruct (Z.geb_spec length 0) as [Hge | ?]; [| done].
  unfold malloc. destruct (pool w) as [| a p] eqn:Hpool; [done |].
  destruct (create_loop _ _ _ _ _ _ _) as [[start |] w2] eqn:Hloop; [| done].
  intros [= <-]. split; [lia |].
  apply create_loop_success in Hloop
    as (cs & Hlen & Happ & Htr & Hd & Hst & Hh & Hp & Ho & Hfl);
    [| lia
     | unfold create_fuel; assert (length / 512 ≤ length)
         by (Z.to_euclidean_division_equations; lia); lia].
  destruct cs as [| c cs].
  { cbn [List.length] in Hlen.
    assert (0 ≤ length / 512) by (apply Z.div_pos; lia). lia. }
  exists (c :: cs), c. cbn in Hst. subst start.
  split; [done |]. split; [done |]. split; [done |].
  world_simpl. rewrite !resize_encode_inode_disk.
  split; [by rewrite Htr, <- app_assoc |].
  split; [by rewrite Hd |].
  cbn [set_pool heap pool open_inodes fat_length] in Hh, Hp, Ho, Hfl.
  by rewrite Hh, Hp, Ho, Hfl.
Qed.

(** C10: a successful [inode_create] of [length >= 0] bytes takes exactly
    [length / 512 + 1] clusters that were free, chains them in order, and
    zero-fills the first sector of each before it writes the record; that
    is one more than [bytes_to_sectors length] when [length] is a multiple
    of the sector size, and one cluster for an empty file.  With one
    sector per cluster, translating offset [length] lands on the last
    cluster of the chain. *)
Theorem inode_create_units (w w' : world) (sec length : Z) :
  inode_create cluster_to_sector sec length w = Some (true, w') →
  0 ≤ length ∧
  ∃ cs first_c last_c,
    Z.of_nat (List.length cs) = length / DISK_SECTOR_SIZE + 1
    ∧ cs !! 0%nat = Some first_c ∧ last cs = Some last_c
    ∧ (∀ c, c ∈ cs → fat w !! c = None)
    ∧ NoDup cs
    ∧ dom (fat w') = dom (fat w) ∪ list_to_set cs
    ∧ chain_at (fat w') cs
    ∧ trace w'
      = trace w ++ alloc_events 0 cs
        ++ [DiskWrite sec
              (encode_inode_disk
                 (created_record (cluster_to_sector first_c) length))]
    ∧ (∀ c, c ∈ cs → cluster_to_sector c ≠ sec →
       disk w' !! cluster_to_sector c = Some zeros)
    ∧ (length mod DISK_SECTOR_SIZE = 0 →
       Z.of_nat (List.length cs) = bytes_to_sectors length + 1)
    ∧ (SECTORS_PER_CLUSTER = 1 → conversions_ok (fat_length w) →
       ∀ ino, data ino = created_record (cluster_to_sector first_c) length →
         sector_to_cluster
           (byte_to_sector SECTORS_PER_CLUSTER cluster_to_sector
              sector_to_cluster (fat w') ino length)
         = last_c).
Proof.
  intros Hc.
  apply inode_create_success in Hc
    as (Hge & cs & first_c & Hlen & Hfirst & Happ & Htr & Hd & _).
  split; [done |].
  destruct (appended_props _ _ _ _ _ Happ ltac:(by left))
    as (Hfree & Hnd & Hch & _ & _ & Hdom).
  assert (Hdiv : 0 ≤ length / 512) by (apply Z.div_pos; lia).
  destruct (last cs) as [last_c |] eqn:Hlast.
  2: { apply last_None in Hlast. by subst cs. }
  exists cs, first_c, last_c. unfold DISK_SECTOR_SIZE.
  split; [lia |]. split; [done |]. split; [done |].
  split; [intros c Hin; by apply Hfree |].
  split; [done |]. split; [done |]. split; [done |]. split; [done |].
  split.
  { intros c Hin Hne. rewrite Hd, lookup_insert_ne by done.
    by apply zero_filled_lookup. }
  split.
  { intros Hmod. unfold bytes_to_sectors, DISK_SECTOR_SIZE.
    rewrite Z.quot_div_nonneg by lia.
    Z.to_euclidean_division_equations. lia. }
  intros Hspc Hconv ino Hdata.
  unfold byte_to_sector. rewrite Hdata, Hspc. cbn [id_length id_start created_record].
  destruct (Z.gtb_spec length length); [lia |].
  unfold DISK_SECTOR_SIZE. rewrite Z.quot_1_r, Z.mul_1_r.
  rewrite !Z.quot_div_nonneg;
    [| Z.to_euclidean_division_equations; lia | lia | lia | lia].
  rewrite last_lookup in Hlast.
  assert (Hf : 1 ≤ first_c < fat_length w).
  { apply Hfree. eapply list_elem_of_lookup_2. exact Hfirst. }
  assert (Hl : 1 ≤ last_c < fat_length w).
  { apply Hfree. eapply list_elem_of_lookup_2. exact Hlast. }
  destruct (Hconv first_c Hf) as [-> _].
  rewrite (chain_at_iter (fat w') cs first_c Hch Hfirst
             (Z.to_nat (length / 512)) last_c).
  2: { rewrite <- Hlast. f_equal. lia. }
  replace ((length - length / 512 * 512) / 512) with 0
    by (Z.to_euclidean_division_equations; lia).
  rewrite Z.add_0_r. destruct (Hconv last_c Hl) as [Hs Hw]. by rewrite Hw.
Qed.

(** *** Writing a created file and reading it back *)

Lemma write_loop_done (ino : inode) (buffer : list Z) (fuel : nat)
    (size offset bytes_written : Z) (bounce : option addr) (w : world) :
  size ≤ 0 →
  write_loop SECTORS_PER_CLUSTER cluster_to_sector sector_to_cluster fuel ino
    buffer size offset bytes_written bounce w = (bytes_written, bounce, w).
Proof.
  intros Hs. destruct fuel; cbn [write_loop];
    by destruct (Z.gtb_spec size 0); [lia |].
Qed.

Lemma read_loop_done (ino : inode) (fuel : nat) (size offset bytes_read : Z)
    (out : list Z) (bounce : option addr) (w : world) :
  size ≤ 0 →
  read_loop SECTORS_PER_CLUSTER cluster_to_sector sector_to_cluster fuel ino
    size offset bytes_read out bounce w = (bytes_read, out, bounce, w).
Proof.
  intros Hs. destruct fuel; cbn [read_loop];
    by destruct (Z.gtb_spec size 0); [lia |].
Qed.

Section RoundTrip.

Hypothesis Hspc : SECTORS_PER_CLUSTER = 1.
Variable n : Z.
Hypothesis Hconv : conversions_ok n.
Variable f : gmap Z Z.
Variable cs : list Z.
Variable ino : inode.
Variable buffer : list Z.
Hypothesis Hchain : chain_at f cs.
Hypothesis Hrange : ∀ c, c ∈ cs → 1 ≤ c < n.
Hypothesis Hnodup : NoDup cs.
Hypothesis Hstart :
  ∃ c0, cs !! 0%nat = Some c0 ∧ id_start (data ino) = cluster_to_sector c0.
Hypothesis Hcount : Z.of_nat (length cs) = inode_length ino / 512 + 1.
Hypothesis Hbuf : Z.of_nat (length buffer) = inode_length ino.

Lemma chain_index (i : nat) :
  512 * Z.of_nat i ≤ inode_length ino → ∃ c, cs !! i = Some c.
Proof using All.
  intros Hi. apply lookup_lt_is_Some.
  assert (Z.of_nat i ≤ inode_length ino / 512); [| lia].
  apply Z.div_le_lower_bound; lia.
Qed.

Lemma chain_sector_inj (i j : nat) (c c' : Z) :
  cs !! i = Some c → cs !! j = Some c' →
  cluster_to_sector c = cluster_to_sector c' → i = j.
Proof using All.
  intros Hi Hj Heq.
  destruct (Hconv c) as [Hc _];
    [apply Hrange; by eapply list_elem_of_lookup_2 |].
  destruct (Hconv c') as [Hc' _];
    [apply Hrange; by eapply list_elem_of_lookup_2 |].
  assert (c = c') by congruence. subst c'.
  by eapply NoDup_lookup.
Qed.

Lemma byte_to_sector_chain (i : nat) (c pos : Z) :
  cs !! i = Some c →
  512 * Z.of_nat i ≤ pos < 512 * Z.of_nat i + 512 → pos ≤ inode_length ino →
  byte_to_sector SECTORS_PER_CLUSTER cluster_to_sector sector_to_cluster
    f ino pos = cluster_to_sector c.
Proof using All.
  intros Hi Hpos Hle. unfold byte_to_sector, inode_length in *.
  destruct (Z.gtb_spec pos (id_length (data ino))); [lia |].
  rewrite Hspc. unfold DISK_SECTOR_SIZE. rewrite Z.quot_1_r, Z.mul_1_r.
  assert (Hq : pos ÷ 512 = Z.of_nat i).
  { rewrite Z.quot_div_nonneg by lia. Z.to_euclidean_division_equations. lia. }
  rewrite Hq, Nat2Z.id.
  destruct Hstart as (c0 & H0 & ->).
  destruct (Hconv c0) as [-> _];
    [apply Hrange; by eapply list_elem_of_lookup_2 |].
  rewrite (chain_at_iter f cs c0 Hchain H0 i c Hi).
  replace ((pos - Z.of_nat i * 512) ÷ 512) with 0.
  2: { rewrite Z.quot_div_nonneg by lia. Z.to_euclidean_division_equations. lia. }
  rewrite Z.add_0_r.
  by destruct (Hconv c) as [_ ->];
    [apply Hrange; by eapply list_elem_of_lookup_2 |].
Qed.

Lemma slice_length (j : nat) :
  512 * Z.of_nat j ≤ inode_length ino →
  length (slice ino buffer j)
  = Z.to_nat (Z.min 512 (inode_length ino - 512 * Z.of_nat j)).
Proof using All.
  intros Hj. unfold slice. rewrite length_take, length_drop. lia.
Qed.

(** One turn of the write loop at the start of sector [i]. *)
Lemma write_loop_step (fuel i : nat) (c : Z) (bounce : option addr) (w : world) :
  let off := 512 * Z.of_nat i in
  let r := inode_length ino - off in
  cs !! i = Some c → 0 < r → fat w = f →
  write_loop SECTORS_PER_CLUSTER cluster_to_sector sector_to_cluster (S fuel)
    ino buffer r off off bounce w
  = if 512 <=? r then
      write_loop SECTORS_PER_CLUSTER cluster_to_sector sector_to_cluster fuel
        ino buffer (r - 512) (off + 512) (off + 512) bounce
        (disk_write (cluster_to_sector c) (slice ino buffer i) w)
    else
      match get_bounce bounce w with
      | (None, w1) => (off, None, w1)
      | (Some bn, w1) =>
          (off + r, Some bn,
           disk_write (cluster_to_sector c)
             (slice ino buffer i
              ++ drop (Z.to_nat r)
                   (sector_content (disk w1) (cluster_to_sector c)))
             (emit (DiskRead (cluster_to_sector c)) w1))
      end.
Proof using All.
  intros off r Hc Hr Hf. cbn [write_loop].
  destruct (Z.gtb_spec r 0); [| lia].
  rewrite Hf, (byte_to_sector_chain i c off Hc) by (subst off r; lia).
  assert (Hrem : Z.rem off DISK_SECTOR_SIZE = 0).
  { unfold DISK_SECTOR_SIZE. subst off. rewrite Z.mul_comm. apply Z.rem_mul. lia. }
  rewrite Hrem. unfold inode_length in *. fold r. unfold DISK_SECTOR_SIZE.
  rewrite Z.sub_0_r. fold off.
  replace (id_length (data ino) - off) with r by (subst r; reflexivity).
  destruct (Z.leb_spec 512 r) as [Hfull | Hpart].
  - destruct (Z.ltb_spec r 512); [lia |].
    destruct (Z.ltb_spec r 512); [lia |].
    cbn [Z.leb Z.compare Z.eqb andb].
    unfold slice. replace (Z.min 512 (inode_length ino - 512 * Z.of_nat i)) with 512
      by (unfold inode_length; subst r off; lia).
    reflexivity.
  - destruct (Z.ltb_spec r 512); [| lia].
    destruct (Z.ltb_spec r r); [lia |].
    destruct (Z.leb_spec r 0); [lia |].
    replace (r =? 512) with false by (symmetry; apply Z.eqb_neq; lia).
    cbn [Z.eqb andb Z.gtb Z.compare orb].
    destruct (get_bounce bounce w) as [[bn |] w1]; [| done].
    unfold disk_read. rewrite (proj2 (Z.ltb_lt r 512)) by lia.
    cbv beta iota zeta.
    rewrite (write_loop_done _ _ _ (r - r)) by lia.
    unfold slice, sector_content. unfold inode_length. fold off. fold r.
    replace (Z.min 512 r) with r by lia.
    cbn [Z.to_nat take app emit disk]. rewrite Z.add_0_l. reflexivity.
Qed.

(** One turn of the read loop at the start of sector [i]. *)
Lemma read_loop_step (fuel i : nat) (c : Z) (out : list Z)
    (bounce : option addr) (w : world) :
  let off := 512 * Z.of_nat i in
  let r := inode_length ino - off in
  cs !! i = Some c → 0 < r → fat w = f →
  read_loop SECTORS_PER_CLUSTER cluster_to_sector sector_to_cluster (S fuel)
    ino r off off out bounce w
  = if 512 <=? r then
      read_loop SECTORS_PER_CLUSTER cluster_to_sector sector_to_cluster fuel
        ino (r - 512) (off + 512) (off + 512)
        (out ++ sector_content (disk w) (cluster_to_sector c)) bounce
        (emit (DiskRead (cluster_to_sector c)) w)
    else
      match get_bounce bounce w with
      | (None, w1) => (off, out, None, w1)
      | (Some bn, w1) =>
          (off + r,
           out ++ take (Z.to_nat r)
                    (sector_content (disk w1) (cluster_to_sector c)),
           Some bn, emit (DiskRead (cluster_to_sector c)) w1)
      end.
Proof using All.
  intros off r Hc Hr Hf. cbn [read_loop].
  destruct (Z.gtb_spec r 0); [| lia].
  rewrite Hf, (byte_to_sector_chain i c off Hc) by (subst off r; lia).
  assert (Hrem : Z.rem off DISK_SECTOR_SIZE = 0).
  { unfold DISK_SECTOR_SIZE. subst off. rewrite Z.mul_comm. apply Z.rem_mul. lia. }
  rewrite Hrem. unfold inode_length in *. fold r. unfold DISK_SECTOR_SIZE.
  rewrite Z.sub_0_r. fold off.
  replace (id_length (data ino) - off) with r by (subst r; reflexivity).
  destruct (Z.leb_spec 512 r) as [Hfull | Hpart].
  - destruct (Z.ltb_spec r 512); [lia |].
    destruct (Z.ltb_spec r 512); [lia |].
    cbn [Z.leb Z.compare Z.eqb andb]. reflexivity.
  - destruct (Z.ltb_spec r 512); [| lia].
    destruct (Z.ltb_spec r r); [lia |].
    destruct (Z.leb_spec r 0); [lia |].
    replace (r =? 512) with false by (symmetry; apply Z.eqb_neq; lia).
    cbn [Z.eqb andb].
    destruct (get_bounce bounce w) as [[bn |] w1]; [| done].
    unfold disk_read. cbv beta iota zeta.
    rewrite (read_loop_done _ _ (r - r)) by lia.
    reflexivity.
Qed.

Lemma get_bounce_frame (bounce : option addr) (w : world) :
  disk (get_bounce bounce w).2 = disk w ∧ fat (get_bounce bounce w).2 = fat w.
Proof using All.
  unfold get_bounce, malloc. destruct bounce; [done |]. by destruct (pool w).
Qed.

(** A write loop that starts at sector [i] and reports the whole rest of
    the file as written has put every slice into its sector, has touched
    no other sector, and has allocated the bounce buffer if the file ends
    inside a sector. *)
Lemma write_loop_aligned (fuel : nat) :
  ∀ (i : nat) bounce w m b' w',
    512 * Z.of_nat i ≤ inode_length ino →
    (Z.to_nat (inode_length ino - 512 * Z.of_nat i) ≤ fuel)%nat →
    fat w = f →
    write_loop SECTORS_PER_CLUSTER cluster_to_sector sector_to_cluster fuel
      ino buffer (inode_length ino - 512 * Z.of_nat i)
      (512 * Z.of_nat i) (512 * Z.of_nat i) bounce w = (m, b', w') →
    m = inode_length ino →
    (∀ (j : nat) c, cs !! j = Some c → (i ≤ j)%nat →
       512 * Z.of_nat j < inode_length ino → holds ino buffer (disk w') j c)
    ∧ (∀ s, (∀ (j : nat) c, cs !! j = Some c → (i ≤ j)%nat →
               s ≠ cluster_to_sector c) →
         disk w' !! s = disk w !! s)
    ∧ (inode_length ino mod 512 ≠ 0 →
       512 * Z.of_nat i < inode_length ino → b' ≠ None).
Proof using All.
  induction fuel as [| fuel IH]; intros i bounce w m b' w' Hi Hfuel Hf Hloop Hm.
  { rewrite write_loop_done in Hloop by lia. injection Hloop as <- <- <-.
    repeat split; intros; lia || done. }
  destruct (Z.le_gt_cases (inode_length ino - 512 * Z.of_nat i) 0) as [Hz | Hr].
  { rewrite write_loop_done in Hloop by lia. injection Hloop as <- <- <-.
    repeat split; intros; lia || done. }
  destruct (chain_index i Hi) as [c Hc].
  rewrite (write_loop_step fuel i c bounce w Hc ltac:(lia) Hf) in Hloop.
  destruct (Z.leb_spec 512 (inode_length ino - 512 * Z.of_nat i)) as [Hfull | Hpart].
  - replace (inode_length ino - 512 * Z.of_nat i - 512)
      with (inode_length ino - 512 * Z.of_nat (S i)) in Hloop by lia.
    replace (512 * Z.of_nat i + 512) with (512 * Z.of_nat (S i)) in Hloop by lia.
    apply IH in Hloop as (Hh & Hfr & Hb); [| lia | lia | done | done].
    assert (Hci : disk w' !! cluster_to_sector c = Some (slice ino buffer i)).
    { rewrite Hfr.
      - world_simpl. rewrite lookup_insert_eq. f_equal.
        apply resize_all_alt. rewrite slice_length by done.
        unfold sector_size. lia.
      - intros j c' Hj Hij Heq.
        pose proof (chain_sector_inj i j c c' Hc Hj Heq). lia. }
    split.
    { intros j c' Hj Hij Hlt.
      destruct (decide (j = i)) as [-> | Hne]; [| apply Hh; [done | lia | done]].
      assert (c' = c) by congruence. subst c'.
      unfold holds, sector_content. rewrite Hci. cbn [default from_option id].
      rewrite resize_all_alt
        by (rewrite slice_length by done; unfold sector_size; lia).
      by apply take_ge. }
    split.
    { intros s Hs. rewrite Hfr by (intros j c' ? ?; apply (Hs j c'); [done | lia]).
      world_simpl. apply lookup_insert_ne. intros Heq. by eapply (Hs i c). }
    intros Hmod _. apply Hb; [done |].
    destruct (Z.eq_dec (inode_length ino) (512 * Z.of_nat (S i))) as [Heq | ?];
      [| lia].
    rewrite Heq, Z.mul_comm, Z.mod_mul in Hmod by lia. done.
  - pose proof (get_bounce_frame bounce w) as [Hgd Hgf].
    destruct (get_bounce bounce w) as [[bn |] w1];
      [| injection Hloop as <- <- <-; lia].
    cbn [snd] in Hgd, Hgf. injection Hloop as <- <- <-.
    assert (Hci : sector_content
                    (disk (disk_write (cluster_to_sector c)
                       (slice ino buffer i ++ drop (Z.to_nat (inode_length ino - 512 * Z.of_nat i))
                                     (sector_content (disk w1) (cluster_to_sector c)))
                       (emit (DiskRead (cluster_to_sector c)) w1)))
                    (cluster_to_sector c)
                  = slice ino buffer i ++ drop (length (slice ino buffer i))
                                 (sector_content (disk w1) (cluster_to_sector c))).
    { unfold sector_content at 1. world_simpl. rewrite lookup_insert_eq.
      cbn [default from_option id]. rewrite resize_resize by done.
      rewrite slice_length by done.
      replace (Z.min 512 (inode_length ino - 512 * Z.of_nat i))
        with (inode_length ino - 512 * Z.of_nat i) by lia.
      apply resize_all_alt.
      rewrite length_app, length_drop, slice_length by done.
      unfold sector_content. rewrite length_resize. unfold sector_size. lia. }
    split.
    { intros j c' Hj Hij Hlt.
      assert (j = i) by lia. subst j.
      assert (c' = c) by congruence. subst c'.
      unfold holds. rewrite Hci. by rewrite take_app_length. }
    split.
    { intros s Hs. world_simpl. rewrite lookup_insert_ne, Hgd; [done |].
      intros Heq. by eapply (Hs i c). }
    done.
Qed.

(** A read loop that starts at sector [i] of a file whose sectors hold the
    slices of the buffer returns the rest of the buffer. *)
Lemma read_loop_aligned (fuel : nat) :
  ∀ (i : nat) out bounce w,
    512 * Z.of_nat i ≤ inode_length ino →
    (Z.to_nat (inode_length ino - 512 * Z.of_nat i) ≤ fuel)%nat →
    fat w = f →
    (∀ (j : nat) c, cs !! j = Some c → (i ≤ j)%nat →
       512 * Z.of_nat j < inode_length ino → holds ino buffer (disk w) j c) →
    (inode_length ino mod 512 ≠ 0 → bounce_available bounce w) →
    ∃ b' w',
      read_loop SECTORS_PER_CLUSTER cluster_to_sector sector_to_cluster fuel
        ino (inode_length ino - 512 * Z.of_nat i)
        (512 * Z.of_nat i) (512 * Z.of_nat i) out bounce w
      = (inode_length ino, out ++ drop (Z.to_nat (512 * Z.of_nat i)) buffer,
         b', w').
Proof using All.
  induction fuel as [| fuel IH]; intros i out bounce w Hi Hfuel Hf Hh Hav.
  { rewrite read_loop_done by lia. eexists _, _.
    rewrite drop_ge, app_nil_r by lia. do 3 f_equal. lia. }
  destruct (Z.le_gt_cases (inode_length ino - 512 * Z.of_nat i) 0) as [Hz | Hr].
  { rewrite read_loop_done by lia. eexists _, _.
    rewrite drop_ge, app_nil_r by lia. do 3 f_equal. lia. }
  destruct (chain_index i Hi) as [c Hc].
  rewrite (read_loop_step fuel i c out bounce w Hc ltac:(lia) Hf).
  pose proof (Hh i c Hc ltac:(lia) ltac:(lia)) as Hci. unfold holds in Hci.
  rewrite slice_length in Hci by done.
  destruct (Z.leb_spec 512 (inode_length ino - 512 * Z.of_nat i)) as [Hfull | Hpart].
  - replace (inode_length ino - 512 * Z.of_nat i - 512)
      with (inode_length ino - 512 * Z.of_nat (S i)) by lia.
    replace (512 * Z.of_nat i + 512) with (512 * Z.of_nat (S i)) by lia.
    destruct (IH (S i) (out ++ sector_content (disk w) (cluster_to_sector c))
                bounce (emit (DiskRead (cluster_to_sector c)) w))
      as (b' & w' & ->); [lia | lia | done | | |].
    { intros j c' Hj Hij Hlt. apply (Hh j c' Hj); [lia | done]. }
    { intros Hmod. destruct (Hav Hmod); [by left | by right]. }
    eexists _, _. do 3 f_equal.
    rewrite <- app_assoc. f_equal.
    rewrite take_ge in Hci
      by (unfold sector_content; rewrite length_resize; unfold sector_size; lia).
    rewrite Hci. unfold slice.
    replace (Z.min 512 (inode_length ino - 512 * Z.of_nat i)) with 512 by lia.
    replace (Z.to_nat (512 * Z.of_nat (S i)))
      with (Z.to_nat (512 * Z.of_nat i) + Z.to_nat 512)%nat by lia.
    rewrite <- drop_drop. apply take_drop.
  - assert (Hmod : inode_length ino mod 512 ≠ 0).
    { intros Hmod. Z.to_euclidean_division_equations. lia. }
    replace (Z.min 512 (inode_length ino - 512 * Z.of_nat i))
      with (inode_length ino - 512 * Z.of_nat i) in Hci by lia.
    assert (Hs : slice ino buffer i = drop (Z.to_nat (512 * Z.of_nat i)) buffer).
    { unfold slice. apply take_ge. rewrite length_drop. lia. }
    replace (512 * Z.of_nat i + (inode_length ino - 512 * Z.of_nat i))
      with (inode_length ino) by lia.
    unfold get_bounce, malloc.
    destruct bounce as [bn |]; [| destruct (pool w) as [| bn p] eqn:Hpool].
    + eexists _, _. by rewrite Hci, Hs.
    + by destruct (Hav Hmod).
    + eexists _, _. cbn [disk set_pool]. by rewrite Hci, Hs.
Qed.

End RoundTrip.

Lemma from_le32_le32 (x : Z) : 0 ≤ x < 2 ^ 32 → from_le32 (le32 x) = x.
Proof.
  clear sector_to_cluster cluster_to_sector.
  intros Hx. unfold from_le32, le32. cbn [nth].
  Z.to_euclidean_division_equations. lia.
Qed.

Lemma signed32_wrap32 (x : Z) :
  - 2 ^ 31 ≤ x < 2 ^ 31 → signed32 (wrap32 x) = x.
Proof.
  clear sector_to_cluster cluster_to_sector.
  intros Hx. unfold signed32, wrap32.
  destruct (Z.ltb_spec (x mod 2 ^ 32) (2 ^ 31));
    Z.to_euclidean_division_equations; lia.
Qed.

Lemma decode_encode_created (start length : Z) :
  0 ≤ start < 2 ^ 32 → 0 ≤ length < 2 ^ 31 →
  decode_inode_disk (encode_inode_disk (created_record start length))
  = created_record start length.
Proof.
  intros Hs Hl. unfold decode_inode_disk, created_record. f_equal.
  - exact (from_le32_le32 start Hs).
  - transitivity (signed32 (from_le32 (le32 (wrap32 length)))); [reflexivity |].
    rewrite from_le32_le32 by (unfold wrap32; apply Z.mod_pos_bound; lia).
    apply signed32_wrap32. lia.
Qed.

(** C4: after [inode_create] has made a file of [length] bytes at a sector
    that no open inode uses, [inode_open] has returned a handle and
    [inode_write_at] has written the [length] bytes of [buffer] at offset
    0 (it returned [length]), [inode_read_at] of [length] bytes at offset
    0 returns [length] and exactly [buffer]. *)
Theorem write_read_round_trip (w0 w1 w2 w3 : world) (sec length : Z)
    (a : addr) (buffer : list Z) :
  SECTORS_PER_CLUSTER = 1 → conversions_ok (fat_length w0) →
  length < 2 ^ 31 → Z.of_nat (List.length buffer) = length →
  (∀ a' ino, ¬ registered w0 sec a' ino) →
  inode_create cluster_to_sector sec length w0 = Some (true, w1) →
  inode_open sec w1 = Some (Some a, w2) →
  inode_write_at SECTORS_PER_CLUSTER cluster_to_sector sector_to_cluster
    a buffer length 0 w2 = Some (length, w3) →
  ∃ w4,
    inode_read_at SECTORS_PER_CLUSTER cluster_to_sector sector_to_cluster
      a length 0 w3 = Some (length, buffer, w4).
Proof.
  intros Hspc Hconv Hmax Hbuf Hun Hcreate Hopen Hwrite.
  apply inode_create_success in Hcreate
    as (Hge & cs & first_c & Hlen & Hfirst & Happ & _ & Hd1 & Hh1 & Hp1 & Ho1 & Hfl1).
  destruct (appended_props _ _ _ _ _ Happ ltac:(by left))
    as (Hfree & Hnd & Hch & _ & _ & _).
  assert (Hrange : ∀ c, c ∈ cs → 1 ≤ c < fat_length w0)
    by (intros c Hc; by apply Hfree).
  assert (Hfr : 1 ≤ first_c < fat_length w0).
  { apply Hrange. by eapply list_elem_of_lookup_2. }
  set (rec := created_record (cluster_to_sector first_c) length) in *.
  (* the handle *)
  assert (Hun1 : ∀ a' ino, ¬ registered w1 sec a' ino).
  { intros a' ino (Hin & Hino & Hs). apply (Hun a' ino).
    unfold registered. by rewrite <- Ho1, <- Hh1. }
  destruct (pool w1) as [| a' p] eqn:Hpool1.
  { unfold inode_open in Hopen.
    destruct (find_open (heap w1) (open_inodes w1) sec) as [x |] eqn:E.
    - apply find_open_Some in E as (? & i & ? & ?). by destruct (Hun1 x i).
    - unfold malloc in Hopen. by rewrite Hpool1 in Hopen. }
  rewrite (inode_open_unregistered w1 sec a' p Hun1 Hpool1) in Hopen.
  injection Hopen as -> <-.
  set (ino := fresh_inode sec _) in *.
  assert (Hdata : data ino = rec).
  { subst ino. unfold fresh_inode. cbn [data].
    rewrite Hd1, lookup_insert_eq. cbn [default from_option id].
    rewrite resize_encode_inode_disk. subst rec.
    apply decode_encode_created; [| lia].
    destruct (Hconv first_c Hfr) as [_ <-]. unfold wrap32.
    apply Z.mod_pos_bound. lia. }
  assert (Hilen : inode_length ino = length)
    by (unfold inode_length; by rewrite Hdata).
  (* the write *)
  unfold inode_write_at in Hwrite. cbn [heap] in Hwrite.
  rewrite lookup_insert_eq in Hwrite.
  cbn [deny_write_cnt ino fresh_inode Z.eqb] in Hwrite.
  rewrite Hilen in Hwrite.
  destruct (Z.gtb_spec (0 + length) length); [lia |].
  cbn [heap] in Hwrite. rewrite lookup_insert_eq in Hwrite.
  set (w2 := mk_world _ _ _ _ _ _ _) in *.
  destruct (write_loop_count ino buffer (Z.to_nat length) length 0 0 None w2)
    as (m & b' & w' & Hloop & _ & _ & Hpool & Hf' & Hh' & _); [lia | lia | lia |].
  rewrite Hloop in Hwrite. injection Hwrite as -> <-.
  assert (Hcount : Z.of_nat (List.length cs) = inode_length ino / 512 + 1).
  { rewrite Hilen, Hlen. assert (0 ≤ length / 512) by (apply Z.div_pos; lia). lia. }
  assert (Hstart : ∃ c0, cs !! 0%nat = Some c0
                         ∧ id_start (data ino) = cluster_to_sector c0).
  { exists first_c. by rewrite Hdata. }
  rewrite <- Hilen in Hbuf.
  pose proof (write_loop_aligned Hspc (fat_length w0) Hconv (fat w1) cs ino buffer
                Hch Hrange Hnd Hstart Hcount Hbuf (Z.to_nat length) 0%nat None w2
                length b' w') as Hwl.
  rewrite Hilen in Hwl. cbn [Z.of_nat] in Hwl.
  rewrite Z.mul_0_r, Z.sub_0_r in Hwl.
  destruct (Hwl ltac:(lia) ltac:(lia) eq_refl Hloop eq_refl) as (Hholds & _ & Hb').
  (* the read *)
  unfold inode_read_at.
  assert (Hh3 : heap (free_opt b' w') !! a = Some ino).
  { replace (heap (free_opt b' w')) with (heap w') by (by destruct b').
    rewrite Hh'. apply lookup_insert_eq. }
  rewrite Hh3.
  pose proof (read_loop_aligned Hspc (fat_length w0) Hconv (fat w1) cs ino buffer
                Hch Hrange Hnd Hstart Hcount Hbuf (Z.to_nat length) 0%nat []
                None (free_opt b' w')) as Hrl.
  rewrite Hilen in Hrl. cbn [Z.of_nat] in Hrl.
  rewrite Z.mul_0_r, Z.sub_0_r in Hrl.
  destruct Hrl as (b'' & w'' & ->); [lia | lia | | | |].
  - replace (fat (free_opt b' w')) with (fat w') by (by destruct b'). done.
  - intros j c Hj _ Hlt.
    replace (disk (free_opt b' w')) with (disk w') by (by destruct b').
    apply Hholds; [done | lia | done].
  - intros Hmod. right.
    assert (length ≠ 0) by (intros ->; by rewrite Z.mod_0_l in Hmod).
    destruct b' as [bn |]; [done |]. by destruct (Hb' Hmod ltac:(lia)).
  - eexists. reflexivity.
Qed.

End Properties.

(** ** Further properties *)

(** *** The record on the device *)

Lemma le32_bytes (n : Z) : Forall (λ x, 0 ≤ x < 256) (le32 n).
Proof.
  unfold le32. repeat constructor; apply Z.mod_pos_bound; lia.
Qed.

Lemma le32_from_le32 (b0 b1 b2 b3 : Z) :
  0 ≤ b0 < 256 → 0 ≤ b1 < 256 → 0 ≤ b2 < 256 → 0 ≤ b3 < 256 →
  le32 (from_le32 [b0; b1; b2; b3]) = [b0; b1; b2; b3]
  ∧ 0 ≤ from_le32 [b0; b1; b2; b3] < 2 ^ 32.
Proof.
  intros H0 H1 H2 H3. unfold le32, from_le32. cbn [nth].
  split; [| lia].
  repeat f_equal; Z.to_euclidean_division_equations; lia.
Qed.

Lemma wrap32_signed32 (x : Z) :
  0 ≤ x < 2 ^ 32 → wrap32 (signed32 x) = x ∧ - 2 ^ 31 ≤ signed32 x < 2 ^ 31.
Proof.
  intros Hx. unfold signed32, wrap32.
  destruct (Z.ltb_spec x (2 ^ 31)); (split; [| lia]).
  - apply Z.mod_small. lia.
  - Z.to_euclidean_division_equations. lia.
Qed.

Lemma decode_encode (d : inode_disk) :
  wf_record d → decode_inode_disk (encode_inode_disk d) = d.
Proof.
  intros (Hs & Hl & Hm & Hu & _). destruct d as [s l m u].
  cbn [id_start id_length id_magic id_unused] in *.
  unfold decode_inode_disk, encode_inode_disk.
  cbn [id_start id_length id_magic id_unused]. f_equal.
  - exact (from_le32_le32 s Hs).
  - transitivity (signed32 (from_le32 (le32 (wrap32 l)))); [reflexivity |].
    rewrite from_le32_le32 by (unfold wrap32; apply Z.mod_pos_bound; lia).
    by apply signed32_wrap32.
  - exact (from_le32_le32 m Hm).
  - transitivity (resize 500 0 (resize 500 0 u)); [reflexivity |].
    rewrite <- Hu. by rewrite !resize_all.
Qed.

(** X13: a record whose fields fit their C types is written as exactly one
    sector of bytes, and reading that sector gives the record back. *)
Theorem inode_disk_decode_encode (d : inode_disk) :
  wf_record d →
  is_sector (encode_inode_disk d)
  ∧ decode_inode_disk (encode_inode_disk d) = d.
Proof.
  intros Hd. split; [| by apply decode_encode].
  destruct Hd as (_ & _ & _ & _ & Hb). split.
  - apply encode_inode_disk_length.
  - unfold encode_inode_disk. rewrite !Forall_app.
    split_and!; try apply le32_bytes. apply Forall_resize; [lia | done].
Qed.

(** X14: every sector of bytes is the image of a record whose fields fit
    their C types: reading it as a record and writing the record gives the
    same sector. *)
Theorem inode_disk_encode_decode (b : block) :
  is_sector b →
  wf_record (decode_inode_disk b)
  ∧ encode_inode_disk (decode_inode_disk b) = b.
Proof.
  intros [Hlen Hb].
  do 12 (destruct b as [| ? b]; [done |]).
  rewrite !Forall_cons in Hb.
  destruct Hb as (H0 & H1 & H2 & H3 & H4 & H5 & H6 & H7 & H8 & H9 & H10
                  & H11 & Hb).
  unfold decode_inode_disk, encode_inode_disk.
  cbn [take drop id_start id_length id_magic id_unused].
  rewrite take_0, !drop_0.
  destruct (le32_from_le32 _ _ _ _ H0 H1 H2 H3) as [E1 R1].
  destruct (le32_from_le32 _ _ _ _ H4 H5 H6 H7) as [E2 R2].
  destruct (le32_from_le32 _ _ _ _ H8 H9 H10 H11) as [E3 R3].
  destruct (wrap32_signed32 _ R2) as [E4 R4].
  assert (Hr : resize 500 0 b = b).
  { cbn [length] in Hlen. unfold sector_size in Hlen.
    replace 500%nat with (length b) by lia. apply resize_all. }
  split.
  - unfold wf_record. cbn [id_start id_length id_magic id_unused].
    rewrite Hr. split_and!; try done; try lia.
    cbn [length] in Hlen. unfold sector_size in Hlen. lia.
  - rewrite E1, E4, E2, E3, !Hr. reflexivity.
Qed.

(** *** The build without a FAT *)

(** X18: without EFILESYS, [byte_to_sector] maps the offsets of a file
    onto the [bytes_to_sectors length] consecutive sectors from [start],
    in order and without wrapping, and gives the sentinel exactly for the
    offsets at or after the end of the file. *)
Theorem byte_to_sector_contiguous_extent (ino : inode) (pos : Z) :
  0 ≤ pos → 0 ≤ id_start (data ino) →
  id_start (data ino) + bytes_to_sectors (inode_length ino) < 2 ^ 32 →
  (pos < inode_length ino →
   byte_to_sector_contiguous ino pos = id_start (data ino) + pos / 512
   ∧ id_start (data ino) ≤ byte_to_sector_contiguous ino pos
     < id_start (data ino) + bytes_to_sectors (inode_length ino))
  ∧ (byte_to_sector_contiguous ino pos = SECTOR_NONE ↔ inode_length ino ≤ pos).
Proof.
  intros Hpos Hstart Hext.
  unfold byte_to_sector_contiguous, bytes_to_sectors, inode_length,
    DISK_SECTOR_SIZE in *.
  change SECTOR_NONE with (2 ^ 32 - 1).
  destruct (Z.ltb_spec pos (id_length (data ino))) as [Hlt | Hge].
  - rewrite (Z.quot_div_nonneg pos 512) by lia.
    rewrite (Z.quot_div_nonneg (id_length (data ino) + 512 - 1) 512) in *
      by lia.
    assert (Hq : pos / 512 < (id_length (data ino) + 512 - 1) / 512)
      by (Z.to_euclidean_division_equations; lia).
    assert (0 ≤ pos / 512) by (apply Z.div_pos; lia).
    assert (Hw : wrap32 (id_start (data ino) + pos / 512)
                 = id_start (data ino) + pos / 512)
      by (unfold wrap32; apply Z.mod_small; lia).
    rewrite Hw. split; [intros _; split; [done | lia] |].
    split; intros; lia.
  - split; [intros; lia |]. split; [done | done].
Qed.

(** ** Page types *)

(** X19: a page type is a base type in the low three bits and marker
    bits above them: [VM_TYPE] is the value modulo 8, [VM_TYPE] and
    [VM_AUXTYPE] split the low five bits without overlap, and the stack
    and segment types are anonymous pages with one marker each. *)
Theorem VM_TYPE_split (type : Z) :
  VM_TYPE type = type mod 8
  ∧ Z.lor (VM_TYPE type) (VM_AUXTYPE type) = Z.land type 31
  ∧ Z.land (VM_TYPE type) (VM_AUXTYPE type) = 0
  ∧ VM_STACK = Z.lor VM_ANON VM_MARKER_0
  ∧ VM_SEG = Z.lor VM_ANON VM_MARKER_1.
Proof.
  unfold VM_TYPE, VM_AUXTYPE. split; [apply (Z.land_ones type 3); lia |].
  split; [by rewrite <- Z.land_lor_distr_r |].
  split; [| done].
  rewrite <- Z.land_assoc, (Z.land_comm 7), <- Z.land_assoc.
  change (Z.land 24 7) with 0. by rewrite !Z.land_0_r.
Qed.

(** X20: packing a base type with marker bits and unpacking it is the
    identity: [VM_TYPE] gives back the base type whatever the markers,
    and [VM_AUXTYPE] gives back the two markers below bit 5. *)
Theorem VM_TYPE_markers (base markers : Z) :
  0 ≤ base < 8 → Z.land markers 7 = 0 →
  VM_TYPE (Z.lor base markers) = base
  ∧ VM_AUXTYPE (Z.lor base markers) = Z.land markers 24.
Proof.
  intros Hb Hm. unfold VM_TYPE, VM_AUXTYPE.
  rewrite !Z.land_lor_distr_l, Hm, Z.lor_0_r.
  assert (Hb7 : Z.land base 7 = base).
  { change 7 with (Z.ones 3). rewrite Z.land_ones by lia.
    apply Z.mod_small. lia. }
  split; [done |].
  rewrite <- Hb7, <- Z.land_assoc. change (Z.land 7 24) with 0.
  by rewrite Z.land_0_r, Z.lor_0_l.
Qed.

Section Further.
Set Default Proof Using "Type".
Variable SECTORS_PER_CLUSTER : Z.
Variable cluster_to_sector sector_to_cluster : Z → Z.
#[local] Set Warnings "-clear-no-such-hyp".

(** *** The table of open inodes stays in order *)

Lemma wf_world_update (w : world) (a : addr) (ino ino' : inode) :
  wf_world w → heap w !! a = Some ino →
  sector ino' = sector ino → 1 ≤ open_cnt ino' →
  wf_world (set_heap (<[a := ino']> (heap w)) w).
Proof.
  intros (Hnd & Hreg & Hsec & Hcnt & Hpnd & Hpool) Hino Hs Hc.
  unfold wf_world. cbn [set_heap open_inodes heap pool].
  split; [done |]. split.
  { intros x. rewrite Hreg. destruct (decide (x = a)) as [-> | Hne].
    - rewrite lookup_insert_eq, Hino. split; eauto.
    - by rewrite lookup_insert_ne. }
  split.
  { intros x y ix iy Hx Hy Heq.
    destruct (decide (x = a)) as [-> | Hxa], (decide (y = a)) as [-> | Hya];
      (rewrite ?lookup_insert_eq, ?lookup_insert_ne in Hx by done);
      (rewrite ?lookup_insert_eq, ?lookup_insert_ne in Hy by done).
    - done.
    - injection Hx as <-. apply (Hsec a y ino iy); congruence.
    - injection Hy as <-. apply (Hsec x a ix ino); congruence.
    - by apply (Hsec x y ix iy). }
  split.
  { intros x ix Hx. destruct (decide (x = a)) as [-> | Hxa];
      rewrite ?lookup_insert_eq, ?lookup_insert_ne in Hx by done.
    - by injection Hx as <-.
    - by apply (Hcnt x). }
  split; [done |].
  intros x Hx. rewrite lookup_insert_ne; [by apply Hpool |].
  intros <-. rewrite (Hpool a Hx) in Hino. done.
Qed.

Lemma wf_world_frame (w w' : world) :
  wf_world w → heap w' = heap w → open_inodes w' = open_inodes w →
  pool w' = pool w → wf_world w'.
Proof. unfold wf_world. by intros H -> -> ->. Qed.

Lemma inode_open_fresh_wf (w : world) (sec : Z) (a : addr) (p : list addr)
    (b : block) (tr : list event) :
  wf_world w → pool w = a :: p →
  (∀ x ix, x ∈ open_inodes w → heap w !! x = Some ix → sector ix ≠ sec) →
  wf_world (mk_world (disk w) (fat w) (fat_length w)
              (<[a := fresh_inode sec b]> (heap w)) (a :: open_inodes w) p tr).
Proof.
  intros (Hnd & Hreg & Hsec & Hcnt & Hpnd & Hpool) Hp Hun.
  rewrite Hp in Hpnd, Hpool.
  assert (Hfresh : heap w !! a = None) by (apply Hpool; left).
  assert (Hnin : a ∉ open_inodes w).
  { rewrite Hreg, Hfresh. by intros [? ?]. }
  unfold wf_world. cbn [heap open_inodes pool].
  split; [by constructor |]. split.
  { intros x. rewrite elem_of_cons, Hreg.
    destruct (decide (x = a)) as [-> | Hne].
    - rewrite lookup_insert_eq. split; eauto.
    - rewrite lookup_insert_ne by done. split; [by intros [? | ?] | eauto]. }
  split.
  { intros x y ix iy Hx Hy Heq.
    destruct (decide (x = a)) as [-> | Hxa], (decide (y = a)) as [-> | Hya];
      (rewrite ?lookup_insert_eq, ?lookup_insert_ne in Hx by done);
      (rewrite ?lookup_insert_eq, ?lookup_insert_ne in Hy by done).
    - done.
    - injection Hx as <-. cbn in Heq. exfalso.
      eapply (Hun y iy); [apply Hreg; eauto | done | done].
    - injection Hy as <-. cbn in Heq. exfalso.
      eapply (Hun x ix); [apply Hreg; eauto | done | done].
    - by apply (Hsec x y ix iy). }
  split.
  { intros x ix Hx. destruct (decide (x = a)) as [-> | Hxa];
      rewrite ?lookup_insert_eq, ?lookup_insert_ne in Hx by done.
    - injection Hx as <-. cbn. lia.
    - by apply (Hcnt x). }
  apply NoDup_cons in Hpnd as [Hap Hpnd]. split; [done |].
  intros x Hx. rewrite lookup_insert_ne; [apply Hpool; by right |].
  by intros <-.
Qed.

(** X1: [inode_open] keeps the table of open inodes in order, and the
    handle it returns is a listed inode whose number is the asked sector;
    without memory it returns the null handle and changes nothing. *)
Theorem inode_open_wf (w w' : world) (sec : Z) (hd : option addr) :
  wf_world w → inode_open sec w = Some (hd, w') →
  wf_world w'
  ∧ match hd with
    | Some a => ∃ ino, registered w' sec a ino ∧ inode_get_inumber ino = sec
    | None => w' = w
    end.
Proof.
  intros Hwf. pose proof Hwf as (Hnd & Hreg & Hsec & Hcnt & Hpnd & Hpool).
  destruct (find_open (heap w) (open_inodes w) sec) as [a |] eqn:E.
  - unfold inode_open. rewrite E.
    apply find_open_Some in E as (Hin & ino & Hino & Hs).
    cbn [inode_reopen]. rewrite Hino. intros [= <- <-].
    split; [apply (wf_world_update w a ino); [done | done | done |];
            cbn; specialize (Hcnt a ino Hino); lia |].
    exists (set_open_cnt (open_cnt ino + 1) ino). split; [| done].
    unfold registered. cbn [open_inodes heap set_heap].
    by rewrite lookup_insert_eq.
  - destruct (pool w) as [| a p] eqn:Hp.
    { unfold inode_open, malloc. rewrite E, Hp. by intros [= <- <-]. }
    rewrite (inode_open_unregistered w sec a p);
      [| intros x ix (Hx1 & Hx2 & Hx3);
         by eapply (find_open_None _ _ _ E x ix) | done].
    intros [= <- <-]. split.
    + apply inode_open_fresh_wf; [done | done |].
      apply (find_open_None _ _ _ E).
    + exists (fresh_inode sec
                (resize sector_size 0 (default [] (disk w !! sec)))).
      split; [| reflexivity]. unfold registered.
      cbn [open_inodes heap]. rewrite lookup_insert_eq.
      split; [left | done].
Qed.

(** X2: [inode_close] keeps the table of open inodes in order.  When the
    last opener closes an inode, the inode leaves the list, its memory
    goes back to the allocator, and the other inodes and list entries
    stay; while openers remain, only the count of openers goes down by
    one: the inode stays listed, memory, device and log are as before.
    Closing the null handle changes nothing. *)
Theorem inode_close_wf (w w' : world) (a : addr) (ino : inode) :
  wf_world w → heap w !! a = Some ino →
  inode_close sector_to_cluster (Some a) w = Some w' →
  wf_world w'
  ∧ (∀ b, b ≠ a → heap w' !! b = heap w !! b)
  ∧ (open_cnt ino = 1 →
     (a ∉ open_inodes w') ∧ heap w' !! a = None ∧ pool w' = a :: pool w
     ∧ ∀ b, b ≠ a → (b ∈ open_inodes w' ↔ b ∈ open_inodes w))
  ∧ (open_cnt ino ≠ 1 →
     a ∈ open_inodes w' ∧ open_inodes w' = open_inodes w
     ∧ heap w' !! a = Some (set_open_cnt (open_cnt ino - 1) ino)
     ∧ pool w' = pool w ∧ disk w' = disk w ∧ fat w' = fat w
     ∧ trace w' = trace w)
  ∧ inode_close sector_to_cluster None w = Some w.
Proof.
  intros Hwf Hino. pose proof Hwf as (Hnd & Hreg & Hsec & Hcnt & Hpnd & Hpool).
  destruct (Z.eq_dec (open_cnt ino - 1) 0) as [Hz | Hnz].
  - destruct (inode_close_last sector_to_cluster w a ino Hino Hz)
      as (w1 & -> & Hl & _ & _ & _ & Hh & Hp).
    intros [= <-]. split.
    { unfold wf_world. rewrite Hl, Hh, Hp.
      split; [by apply NoDup_filter |]. split.
      { intros x. unfold list_remove. rewrite list_elem_of_filter, Hreg.
        destruct (decide (x = a)) as [-> | Hne].
        - rewrite lookup_delete_eq. split; [by intros [? _] | by intros [? ?]].
        - rewrite lookup_delete_ne by done. split; [by intros [_ ?] | done]. }
      split.
      { intros x y ix iy Hx Hy. apply lookup_delete_Some in Hx as [_ Hx].
        apply lookup_delete_Some in Hy as [_ Hy]. by apply (Hsec x y). }
      split.
      { intros x ix Hx. apply lookup_delete_Some in Hx as [_ Hx].
        by apply (Hcnt x). }
      split.
      { constructor; [| done]. intros Hin. rewrite (Hpool a Hin) in Hino.
        done. }
      intros x [-> | Hx]%elem_of_cons; [apply lookup_delete_eq |].
      destruct (decide (x = a)) as [-> | Hne]; [apply lookup_delete_eq |].
      rewrite lookup_delete_ne by done. by apply Hpool. }
    split; [intros b Hb; by rewrite Hh, lookup_delete_ne |].
    split.
    { intros _. rewrite Hl, Hh, Hp.
      split; [apply list_remove_not_elem |].
      split; [apply lookup_delete_eq |]. split; [done |].
      intros b Hb. unfold list_remove. rewrite list_elem_of_filter.
      split; [by intros [_ ?] | done]. }
    split; [intros ?; lia | done].
  - rewrite (inode_close_keep sector_to_cluster w a ino Hino Hnz).
    intros [= <-]. split.
    { apply (wf_world_update w a ino); [done | done | done |].
      cbn. specialize (Hcnt a ino Hino). lia. }
    cbn [set_heap heap open_inodes pool disk fat trace].
    split; [intros b Hb; by rewrite lookup_insert_ne |].
    split; [intros ?; lia |].
    split; [| done]. intros _.
    split; [apply Hreg; eauto |]. split; [done |].
    split; [apply lookup_insert_eq |]. by repeat split.
Qed.

(** X3: [inode_reopen], [inode_remove], [inode_deny_write] and
    [inode_allow_write] change one inode in memory and nothing else: the
    device, the allocation table and the log of device calls stay as they
    are, the other inodes are untouched, the changed inode keeps its
    sector and its record, and the table of open inodes stays in order. *)
Theorem inode_flags_frame (w w' : world) (a : addr) :
  wf_world w →
  (∃ hd, inode_reopen (Some a) w = Some (hd, w'))
  ∨ inode_remove (Some a) w = Some w'
  ∨ inode_deny_write a w = Some w'
  ∨ inode_allow_write a w = Some w' →
  wf_world w'
  ∧ disk w' = disk w ∧ fat w' = fat w ∧ trace w' = trace w
  ∧ (∀ b, b ≠ a → heap w' !! b = heap w !! b)
  ∧ ∃ ino ino', heap w !! a = Some ino ∧ heap w' !! a = Some ino'
      ∧ sector ino' = sector ino ∧ data ino' = data ino.
Proof.
  intros Hwf H.
  assert (∃ ino ino', heap w !! a = Some ino ∧ sector ino' = sector ino
            ∧ data ino' = data ino ∧ 1 ≤ open_cnt ino'
            ∧ w' = set_heap (<[a := ino']> (heap w)) w)
    as (ino & ino' & Hino & Hs & Hd & Hc & ->).
  { pose proof Hwf as (_ & _ & _ & Hcnt & _).
    destruct H as [[hd H] | [H | [H | H]]];
      [cbn [inode_reopen] in H | cbn [inode_remove] in H
       | unfold inode_deny_write in H | unfold inode_allow_write in H];
      destruct (heap w !! a) as [ino |] eqn:Hino; try done;
      specialize (Hcnt a ino Hino).
    - injection H as <- <-.
      exists ino, (set_open_cnt (open_cnt ino + 1) ino).
      split_and!; try done. cbn. lia.
    - injection H as <-. exists ino, (set_removed true ino).
      by split_and!.
    - cbv zeta in H.
      destruct (deny_write_cnt _ <=? open_cnt _); [| done].
      injection H as <-.
      exists ino, (set_deny_write_cnt (deny_write_cnt ino + 1) ino).
      by split_and!.
    - destruct (deny_write_cnt ino >? 0); [| done].
      destruct (deny_write_cnt ino <=? open_cnt ino); [| done].
      injection H as <-.
      exists ino, (set_deny_write_cnt (deny_write_cnt ino - 1) ino).
      by split_and!. }
  split; [by apply (wf_world_update w a ino) |].
  cbn [set_heap disk fat trace heap]. repeat split.
  - intros b Hb. by rewrite lookup_insert_ne.
  - exists ino, ino'. by rewrite lookup_insert_eq.
Qed.

(** X4: [inode_init] on a machine without live inodes gives a table in
    order, and the first [inode_open] after it never finds the sector in
    the table: it takes memory, lists the new inode alone and reads the
    sector from the device. *)
Theorem inode_init_spec (w : world) (sec : Z) (a : addr) (p : list addr) :
  heap w = ∅ → NoDup (pool w) → pool w = a :: p →
  wf_world (inode_init w)
  ∧ ∃ w', inode_open sec (inode_init w) = Some (Some a, w')
      ∧ open_inodes w' = [a]
      ∧ trace w' = trace w ++ [DiskRead sec]
      ∧ wf_world w'.
Proof.
  intros Hh Hnd Hp.
  assert (Hwf : wf_world (inode_init w)).
  { unfold wf_world, inode_init. cbn [set_open_inodes open_inodes heap pool].
    rewrite Hh. split; [constructor |]. split.
    { intros x. rewrite lookup_empty. split; [by intros ?%elem_of_nil |].
      by intros [? ?]. }
    split; [intros x y ix iy Hx; by rewrite lookup_empty in Hx |].
    split; [intros x ix Hx; by rewrite lookup_empty in Hx |].
    split; [done |]. intros x _. apply lookup_empty. }
  split; [done |].
  rewrite (inode_open_unregistered (inode_init w) sec a p);
    [| by intros x ix [?%elem_of_nil _] | done].
  eexists. split; [reflexivity |]. split; [done |]. split; [done |].
  apply inode_open_fresh_wf; [done | done |].
  by intros x ix ?%elem_of_nil.
Qed.

(** X5: opening a sector that is already open and closing the handle
    again is the identity: [inode_open] returns the listed inode, and the
    [inode_close] that follows gives back the machine as it was, without
    a device access. *)
Theorem inode_open_close_id (w : world) (sec : Z) (a : addr) (ino : inode) :
  wf_world w → registered w sec a ino →
  ∃ w1, inode_open sec w = Some (Some a, w1)
    ∧ inode_close sector_to_cluster (Some a) w1 = Some w.
Proof.
  intros (_ & _ & Hsec & Hcnt & _) (Hin & Hino & Hs).
  destruct (inode_open_registered w sec) as (a' & ino' & (_ & Hino' & Hs') & ->);
    [by exists a, ino |].
  assert (a' = a) as -> by (apply (Hsec a' a ino' ino); congruence).
  assert (ino' = ino) as -> by congruence.
  eexists. split; [reflexivity |].
  specialize (Hcnt a ino Hino).
  rewrite (inode_close_keep sector_to_cluster _ a
             (set_open_cnt (open_cnt ino + 1) ino));
    [| cbn [set_heap heap]; apply lookup_insert_eq | cbn; lia].
  f_equal. destruct w as [d f n h l p t], ino as [s c r dw dt].
  cbn in *. unfold set_heap. cbn. f_equal.
  rewrite insert_insert_eq. replace (c + 1 - 1) with c by lia.
  by apply insert_id.
Qed.

(** X6: [inode_deny_write] followed by [inode_allow_write] on the same
    inode is the identity, whenever the inode has an opener that has not
    denied writes yet. *)
Theorem inode_deny_allow_id (w : world) (a : addr) (ino : inode) :
  heap w !! a = Some ino → 0 ≤ deny_write_cnt ino < open_cnt ino →
  ∃ w1, inode_deny_write a w = Some w1 ∧ inode_allow_write a w1 = Some w.
Proof.
  intros Hino Hc. unfold inode_deny_write. rewrite Hino. cbv zeta.
  cbn [deny_write_cnt open_cnt set_deny_write_cnt].
  destruct (Z.leb_spec (deny_write_cnt ino + 1) (open_cnt ino)); [| lia].
  eexists. split; [reflexivity |].
  unfold inode_allow_write. cbn [set_heap heap]. rewrite lookup_insert_eq.
  cbn [deny_write_cnt open_cnt set_deny_write_cnt].
  destruct (Z.gtb_spec (deny_write_cnt ino + 1) 0); [| lia].
  destruct (Z.leb_spec (deny_write_cnt ino + 1) (open_cnt ino)); [| lia].
  f_equal. destruct w as [d f n h l p t], ino as [s c r dw dt].
  cbn in *. unfold set_heap. cbn. f_equal.
  rewrite insert_insert_eq. replace (dw + 1 - 1) with dw by lia.
  by apply insert_id.
Qed.

(** X7: a read that asks for no bytes, or that starts at or after the end
    of the file, returns 0 bytes and leaves the machine as it was: no
    sector is read and no bounce buffer is taken. *)
Theorem inode_read_at_nothing (w : world) (a : addr) (ino : inode)
    (size offset : Z) :
  heap w !! a = Some ino → size ≤ 0 ∨ inode_length ino ≤ offset →
  inode_read_at SECTORS_PER_CLUSTER cluster_to_sector sector_to_cluster
    a size offset w = Some (0, [], w).
Proof.
  intros Hino H. unfold inode_read_at. rewrite Hino.
  destruct (Z.gtb_spec size 0) as [Hpos | Hle].
  - destruct H as [? | Hoff]; [lia |].
    destruct (Z.to_nat size) as [| fuel] eqn:Hf; [lia |].
    cbn [read_loop]. destruct (Z.gtb_spec size 0); [| lia].
    assert (Hr : Z.rem offset 512 < 512)
      by (Z.to_euclidean_division_equations; lia).
    unfold DISK_SECTOR_SIZE.
    destruct (Z.ltb_spec (inode_length ino - offset) (512 - Z.rem offset 512));
      [| lia].
    destruct (Z.ltb_spec size (inode_length ino - offset)); [lia |].
    destruct (Z.leb_spec (inode_length ino - offset) 0); [| lia].
    destruct w; reflexivity.
  - destruct (Z.to_nat size) as [| fuel]; cbn [read_loop];
      (destruct (Z.gtb_spec size 0); [lia |]); destruct w; reflexivity.
Qed.

(** *** What reads and writes leave alone *)

Ltac world_cbn :=
  cbn [disk fat fat_length heap open_inodes pool trace fst snd
       disk_write disk_read fat_remove_chain free_opt free malloc
       set_heap set_open_inodes emit set_disk set_fat set_pool store_length].

Lemma set_length_id (ino : inode) : set_length (inode_length ino) ino = ino.
Proof. by destruct ino as [? ? ? ? []]. Qed.

Lemma read_loop_frame (ino : inode) (fuel : nat) :
  ∀ size offset bytes_read out bounce w,
    ∃ n out' bounce' w',
      read_loop SECTORS_PER_CLUSTER cluster_to_sector sector_to_cluster
        fuel ino size offset bytes_read out bounce w = (n, out', bounce', w')
      ∧ bytes_read ≤ n ≤ bytes_read + Z.max 0 size
      ∧ pool (free_opt bounce' w') = pool (free_opt bounce w)
      ∧ disk w' = disk w ∧ fat w' = fat w ∧ heap w' = heap w
      ∧ open_inodes w' = open_inodes w ∧ fat_length w' = fat_length w.
Proof.
  induction fuel as [| fuel IH]; intros size offset bytes_read out bounce w;
    cbn [read_loop].
  { destruct (Z.gtb_spec size 0);
      eexists _, _, _, _; (split; [reflexivity |]); repeat split; lia. }
  destruct (Z.gtb_spec size 0) as [Hpos |];
    [| eexists _, _, _, _; split; [reflexivity |]; repeat split; lia].
  set (sector_ofs := Z.rem offset DISK_SECTOR_SIZE) in *.
  set (sector_left := DISK_SECTOR_SIZE - sector_ofs) in *.
  set (min_left := if inode_length ino - offset <? sector_left
                   then inode_length ino - offset else sector_left) in *.
  set (chunk_size := if size <? min_left then size else min_left) in *.
  assert (Hcs : chunk_size ≤ size)
    by (unfold chunk_size; destruct (Z.ltb_spec size min_left); lia).
  destruct (Z.leb_spec chunk_size 0) as [Hle | Hgt].
  { eexists _, _, _, _. split; [reflexivity |]. repeat split; lia. }
  destruct ((sector_ofs =? 0) && (chunk_size =? DISK_SECTOR_SIZE));
    [| unfold get_bounce, malloc;
       destruct bounce as [bn |]; [| destruct (pool w) as [| bn p] eqn:Hpool0]].
  3: { eexists _, _, _, _. split; [reflexivity |].
       split; [lia |]. by repeat split. }
  all: unfold disk_read at 1;
    match goal with
    | |- context [read_loop _ _ _ _ _ ?sz ?off ?br ?o ?b ?w1] =>
        destruct (IH sz off br o b w1)
          as (n & out' & b' & w' & -> & Hn & Hpool & Hd & Hf & Hh & Ho & Hfl)
    end;
    eexists _, _, _, _; (split; [reflexivity |]);
    (split; [lia |]).
  - split; [rewrite Hpool; by destruct bounce |]. by repeat split.
  - by repeat split.
  - split; [rewrite Hpool; cbn [free_opt free set_pool emit pool]; done |].
    by repeat split.
Qed.

Lemma write_loop_frame (ino : inode) (buffer : list Z) (fuel : nat) :
  ∀ size offset bytes_written bounce w,
    ∃ n bounce' w',
      write_loop SECTORS_PER_CLUSTER cluster_to_sector sector_to_cluster
        fuel ino buffer size offset bytes_written bounce w = (n, bounce', w')
      ∧ bytes_written ≤ n ≤ bytes_written + Z.max 0 size
      ∧ pool (free_opt bounce' w') = pool (free_opt bounce w)
      ∧ fat w' = fat w ∧ heap w' = heap w ∧ open_inodes w' = open_inodes w
      ∧ fat_length w' = fat_length w.
Proof.
  induction fuel as [| fuel IH]; intros size offset bytes_written bounce w;
    cbn [write_loop].
  { destruct (Z.gtb_spec size 0);
      eexists _, _, _; (split; [reflexivity |]); repeat split; lia. }
  destruct (Z.gtb_spec size 0) as [Hpos |];
    [| eexists _, _, _; split; [reflexivity |]; repeat split; lia].
  set (sector_ofs := Z.rem offset DISK_SECTOR_SIZE) in *.
  set (sector_left := DISK_SECTOR_SIZE - sector_ofs) in *.
  set (min_left := if inode_length ino - offset <? sector_left
                   then inode_length ino - offset else sector_left) in *.
  set (chunk_size := if size <? min_left then size else min_left) in *.
  assert (Hcs : chunk_size ≤ size)
    by (unfold chunk_size; destruct (Z.ltb_spec size min_left); lia).
  destruct (Z.leb_spec chunk_size 0) as [Hle | Hgt].
  { eexists _, _, _. split; [reflexivity |]. repeat split; lia. }
  destruct ((sector_ofs =? 0) && (chunk_size =? DISK_SECTOR_SIZE));
    [| unfold get_bounce, malloc;
       destruct bounce as [bn |];
       [destruct ((sector_ofs >? 0) || (chunk_size <? sector_left))
       | destruct (pool w) as [| bn p] eqn:Hpool0;
         [| destruct ((sector_ofs >? 0) || (chunk_size <? sector_left))]]].
  all: try unfold disk_read at 1; cbv beta iota zeta.
  all: try match goal with
    | |- context [write_loop _ _ _ _ _ _ ?sz ?off ?bw ?b ?w1] =>
        destruct (IH sz off bw b w1)
          as (n & b' & w' & -> & Hn & Hpool & Hf & Hh & Ho & Hfl)
    end.
  all: eexists _, _, _; (split; [reflexivity |]); (split; [lia |]).
  - split; [rewrite Hpool; by destruct bounce |]. by repeat split.
  - by repeat split.
  - by repeat split.
  - by repeat split.
  - split; [rewrite Hpool; cbn [free_opt free set_pool emit pool]; done |].
    by repeat split.
  - split; [rewrite Hpool; cbn [free_opt free set_pool emit pool]; done |].
    by repeat split.
Qed.

Lemma growth_loop_effect (a : addr) (ino : inode) (origin_length new_length : Z)
    (h0 : gmap addr inode) (fuel : nat) :
  ∀ growth last_clst w,
    heap w = <[a := set_length new_length ino]> h0 → 0 ≤ growth →
    ∃ ok w1 len1,
      growth_loop cluster_to_sector fuel a ino origin_length new_length
        growth last_clst w = (ok, w1)
      ∧ heap w1 = <[a := set_length len1 ino]> h0
      ∧ pool w1 = pool w ∧ open_inodes w1 = open_inodes w
      ∧ fat_length w1 = fat_length w
      ∧ (ok = true → len1 = new_length)
      ∧ (origin_length ≤ new_length → origin_length ≤ len1).
Proof.
  induction fuel as [| fuel IH]; intros growth last_clst w Hh Hg;
    cbn [growth_loop].
  { destruct (Z.ltb_spec growth (new_length - origin_length));
      eexists _, _, _; (split; [reflexivity |]); by repeat split. }
  destruct (Z.ltb_spec growth (new_length - origin_length)) as [Hlt | Hge];
    [| eexists _, _, _; (split; [reflexivity |]); by repeat split].
  destruct (fat_create_chain last_clst w) as [c w1] eqn:Hc.
  pose proof (fat_create_chain_frame last_clst w) as (Hh1 & Hp1 & Ho1 & _ & Hl1).
  rewrite Hc in Hh1, Hp1, Ho1, Hl1. cbn [snd] in Hh1, Hp1, Ho1, Hl1.
  destruct (Z.eqb_spec c 0) as [-> | Hne].
  - assert (Hr : 0 ≤ Z.rem growth DISK_SECTOR_SIZE < 512)
      by (apply Z.rem_bound_pos; [done | unfold DISK_SECTOR_SIZE; lia]).
    destruct (Z.rem origin_length DISK_SECTOR_SIZE =? 0);
      eexists false, _, _; (split; [reflexivity |]); world_cbn;
      rewrite Hh1, Hh, insert_insert_eq;
      (split; [reflexivity |]); repeat split; try done;
      unfold DISK_SECTOR_SIZE in *; lia.
  - destruct (IH (growth + DISK_SECTOR_SIZE) c
                (disk_write (cluster_to_sector c) zeros w1))
      as (ok & w2 & len1 & -> & Hh2 & Hp2 & Ho2 & Hl2 & Hok & Hmono).
    { world_cbn. by rewrite Hh1. }
    { unfold DISK_SECTOR_SIZE. lia. }
    exists ok, w2, len1. split; [reflexivity |]. split; [done |].
    split; [by rewrite Hp2 |]. split; [by rewrite Ho2 |].
    split; [by rewrite Hl2 |]. by split.
Qed.

Lemma file_growth_effect (a : addr) (ino : inode) (new_length : Z) (w : world) :
  ∃ ok w1 len1,
    file_growth SECTORS_PER_CLUSTER cluster_to_sector sector_to_cluster
      a ino new_length w = (ok, w1)
    ∧ heap w1 = <[a := set_length len1 ino]> (heap w)
    ∧ pool w1 = pool w ∧ open_inodes w1 = open_inodes w
    ∧ fat_length w1 = fat_length w
    ∧ (ok = true → len1 = new_length)
    ∧ (inode_length ino ≤ new_length → inode_length ino ≤ len1).
Proof.
  unfold file_growth.
  destruct ((Z.rem (inode_length ino) DISK_SECTOR_SIZE =? 0)
            || (new_length >?
                inode_length ino - Z.rem (inode_length ino) DISK_SECTOR_SIZE
                + DISK_SECTOR_SIZE)).
  - match goal with
    | |- context [growth_loop _ ?fl _ _ ?o ?nl ?g ?l ?w0] =>
        destruct (growth_loop_effect a ino o nl (heap w) fl g l w0)
          as (ok & w1 & len1 & -> & Hh & Hp & Ho & Hl & Hok & Hmono);
          [reflexivity | lia |]
    end.
    exists ok, w1, len1. split; [reflexivity |]. split; [done |].
    split; [done |]. split; [done |]. split; [done |].
    by split.
  - exists true, (store_length a ino new_length w), new_length.
    split; [reflexivity |]. by repeat split.
Qed.


(** The loop of [inode_read_at] adds only sector reads to the log. *)
Lemma read_loop_trace (ino : inode) (fuel : nat) :
  ∀ size offset bytes_read out bounce w,
    ∃ evs,
      trace (read_loop SECTORS_PER_CLUSTER cluster_to_sector
               sector_to_cluster fuel ino size offset bytes_read out
               bounce w).2
      = trace w ++ evs
      ∧ Forall (λ e, ∃ s, e = DiskRead s) evs.
Proof.
  induction fuel as [| fuel IH]; intros size offset bytes_read out bounce w;
    cbn [read_loop].
  { destruct (size >? 0); exists []; by rewrite app_nil_r. }
  destruct (size >? 0); [| exists []; by rewrite app_nil_r].
  set (sector_ofs := Z.rem offset DISK_SECTOR_SIZE).
  set (sector_left := DISK_SECTOR_SIZE - sector_ofs).
  set (min_left := if inode_length ino - offset <? sector_left
                   then inode_length ino - offset else sector_left).
  set (chunk_size := if size <? min_left then size else min_left).
  destruct (chunk_size <=? 0); [exists []; by rewrite app_nil_r |].
  destruct ((sector_ofs =? 0) && (chunk_size =? DISK_SECTOR_SIZE));
    [| unfold get_bounce, malloc;
       destruct bounce as [bn |]; [| destruct (pool w) as [| bn p] eqn:Hpool0]].
  3: { exists []. by rewrite app_nil_r. }
  all: unfold disk_read at 1;
    match goal with
    | |- context [read_loop _ _ _ _ _ ?sz ?off ?br ?o ?b ?w1] =>
        destruct (IH sz off br o b w1) as (evs & -> & Hev)
    end;
    world_cbn; eexists (_ :: evs); rewrite <- app_assoc;
    (split; [reflexivity |]); constructor; eauto.
Qed.

(** X9: a read at an offset [0 <= offset], whatever its size, returns a
    count between 0 and [size], gives the bounce buffer back, and
    changes nothing but the log of device calls, to which it adds sector
    reads only: the device, the allocation table, the inodes, the list of
    open inodes and the free memory are as before. *)
Theorem inode_read_at_effect (w : world) (a : addr) (ino : inode)
    (size offset : Z) :
  heap w !! a = Some ino → 0 ≤ offset →
  ∃ n out w' evs,
    inode_read_at SECTORS_PER_CLUSTER cluster_to_sector sector_to_cluster
      a size offset w = Some (n, out, w')
    ∧ 0 ≤ n ≤ Z.max 0 size
    ∧ trace w' = trace w ++ evs ∧ Forall (λ e, ∃ s, e = DiskRead s) evs
    ∧ disk w' = disk w ∧ fat w' = fat w ∧ heap w' = heap w
    ∧ open_inodes w' = open_inodes w ∧ pool w' = pool w
    ∧ (wf_world w → wf_world w').
Proof.
  intros Hino _. unfold inode_read_at. rewrite Hino.
  destruct (read_loop_trace ino (Z.to_nat size) size offset 0 [] None w)
    as (evs & Htr & Hev).
  destruct (read_loop_frame ino (Z.to_nat size) size offset 0 [] None w)
    as (n & out & b' & w1 & E & Hn & Hpool & Hd & Hf & Hh & Ho & _).
  rewrite E in Htr |- *. cbn [snd] in Htr.
  exists n, out, (free_opt b' w1), evs. split; [reflexivity |].
  assert (Hh' : heap (free_opt b' w1) = heap w)
    by (destruct b'; cbn [free_opt free set_pool heap]; congruence).
  assert (Ho' : open_inodes (free_opt b' w1) = open_inodes w)
    by (destruct b'; cbn [free_opt free set_pool open_inodes]; congruence).
  assert (Hp' : pool (free_opt b' w1) = pool w)
    by (rewrite Hpool; by cbn [free_opt]).
  split; [lia |].
  split; [destruct b'; cbn [free_opt free set_pool trace]; congruence |].
  split; [done |].
  split; [destruct b'; cbn [free_opt free set_pool disk]; congruence |].
  split; [destruct b'; cbn [free_opt free set_pool fat]; congruence |].
  split_and!; try done. intros Hwf. by apply (wf_world_frame w).
Qed.

(** *** A write inside one sector *)

Lemma chunk_one_sector (size offset len : Z) :
  0 ≤ offset → 0 < size → offset + size ≤ len →
  Z.rem offset 512 + size ≤ 512 →
  (let sector_ofs := Z.rem offset DISK_SECTOR_SIZE in
   let inode_left := len - offset in
   let sector_left := DISK_SECTOR_SIZE - sector_ofs in
   let min_left := if inode_left <? sector_left then inode_left else sector_left in
   if size <? min_left then size else min_left) = size
  ∧ 0 ≤ Z.rem offset 512
  ∧ ((Z.rem offset 512 =? 0) && (size =? 512) = (size =? 512))
  ∧ ((Z.rem offset 512 =? 0) && (size =? 512) = false →
     (Z.rem offset 512 >? 0) || (size <? 512 - Z.rem offset 512) = true).
Proof.
  clear SECTORS_PER_CLUSTER cluster_to_sector sector_to_cluster.
  intros Hoff Hsize Hlen Hsec. cbv zeta. unfold DISK_SECTOR_SIZE.
  assert (Hr : 0 ≤ Z.rem offset 512) by (apply Z.rem_nonneg; lia).
  split.
  { destruct (Z.ltb_spec (len - offset) (512 - Z.rem offset 512));
      match goal with |- (if ?x <? ?y then _ else _) = _ =>
        destruct (Z.ltb_spec x y) end; lia. }
  split; [done |]. split.
  - destruct (Z.eqb_spec (Z.rem offset 512) 0), (Z.eqb_spec size 512);
      cbn; try done; lia.
  - destruct (Z.eqb_spec (Z.rem offset 512) 0), (Z.eqb_spec size 512),
      (Z.gtb_spec (Z.rem offset 512) 0),
      (Z.ltb_spec size (512 - Z.rem offset 512)); cbn; try done; lia.
Qed.

Lemma write_loop_one_sector (ino : inode) (buffer : list Z) (fuel : nat)
    (size offset bytes_written : Z) (w : world) (bn : addr) (p : list addr) :
  0 ≤ offset → 0 < size → offset + size ≤ inode_length ino →
  Z.rem offset 512 + size ≤ 512 → pool w = bn :: p → fuel ≠ O →
  let s := byte_to_sector SECTORS_PER_CLUSTER cluster_to_sector
             sector_to_cluster (fat w) ino offset in
  let old := sector_content (disk w) s in
  let src := take (Z.to_nat size) (drop (Z.to_nat bytes_written) buffer) in
  write_loop SECTORS_PER_CLUSTER cluster_to_sector sector_to_cluster
    fuel ino buffer size offset bytes_written None w
  = if size =? 512
    then (bytes_written + size, None, disk_write s src w)
    else (bytes_written + size, Some bn,
          disk_write s
            (take (Z.to_nat (Z.rem offset 512)) old ++ src
             ++ drop (Z.to_nat (Z.rem offset 512 + size)) old)
            (emit (DiskRead s) (set_pool p w))).
Proof.
  intros Hoff Hsize Hlen Hsec Hpool Hfuel s old src.
  destruct fuel as [| fuel]; [done |]. clear Hfuel.
  destruct (chunk_one_sector size offset (inode_length ino))
    as (Hchunk & Hr & Hfull & Hread); [done | done | done | done |].
  cbv zeta in Hchunk. cbn [write_loop].
  destruct (Z.gtb_spec size 0); [| lia]. cbv zeta. rewrite Hchunk.
  destruct (Z.leb_spec size 0); [lia |].
  change (Z.rem offset DISK_SECTOR_SIZE) with (Z.rem offset 512).
  change (size =? DISK_SECTOR_SIZE) with (size =? 512).
  change (DISK_SECTOR_SIZE - Z.rem offset 512) with (512 - Z.rem offset 512).
  rewrite Hfull. destruct (size =? 512) eqn:E.
  - by rewrite write_loop_done by lia.
  - unfold get_bounce, malloc. rewrite Hpool. rewrite Hread by done.
    unfold disk_read. by rewrite write_loop_done by lia.
Qed.

Lemma read_loop_one_sector (ino : inode) (fuel : nat)
    (size offset bytes_read : Z) (out : list Z) (w : world) (bn : addr)
    (p : list addr) :
  0 ≤ offset → 0 < size → offset + size ≤ inode_length ino →
  Z.rem offset 512 + size ≤ 512 → pool w = bn :: p → fuel ≠ O →
  let s := byte_to_sector SECTORS_PER_CLUSTER cluster_to_sector
             sector_to_cluster (fat w) ino offset in
  let b := sector_content (disk w) s in
  read_loop SECTORS_PER_CLUSTER cluster_to_sector sector_to_cluster
    fuel ino size offset bytes_read out None w
  = if size =? 512
    then (bytes_read + size, out ++ b, None, emit (DiskRead s) w)
    else (bytes_read + size,
          out ++ take (Z.to_nat size) (drop (Z.to_nat (Z.rem offset 512)) b),
          Some bn, emit (DiskRead s) (set_pool p w)).
Proof.
  intros Hoff Hsize Hlen Hsec Hpool Hfuel s b.
  destruct fuel as [| fuel]; [done |]. clear Hfuel.
  destruct (chunk_one_sector size offset (inode_length ino))
    as (Hchunk & Hr & Hfull & Hread); [done | done | done | done |].
  cbv zeta in Hchunk. cbn [read_loop].
  destruct (Z.gtb_spec size 0); [| lia]. cbv zeta. rewrite Hchunk.
  destruct (Z.leb_spec size 0); [lia |].
  change (Z.rem offset DISK_SECTOR_SIZE) with (Z.rem offset 512).
  change (size =? DISK_SECTOR_SIZE) with (size =? 512).
  rewrite Hfull. destruct (size =? 512) eqn:E.
  - unfold disk_read. by rewrite read_loop_done by lia.
  - unfold get_bounce, malloc. rewrite Hpool.
    unfold disk_read. by rewrite read_loop_done by lia.
Qed.

(** X10: a write of [size > 0] bytes that stays inside one sector of the
    file transfers all of them with one sector write, which is preceded
    by a read of that sector unless the whole sector is written.  The
    sector keeps its bytes before and after the written range; the inode,
    the allocation table and the free memory are as before, and reading the
    same range back returns the bytes written. *)
Theorem inode_write_read_one_sector (w : world) (a : addr) (ino : inode)
    (buffer : list Z) (size offset : Z) :
  heap w !! a = Some ino → deny_write_cnt ino = 0 → pool w ≠ [] →
  0 ≤ offset → 0 < size → offset + size ≤ inode_length ino →
  Z.rem offset 512 + size ≤ 512 → (Z.to_nat size ≤ length buffer)%nat →
  let s := byte_to_sector SECTORS_PER_CLUSTER cluster_to_sector
             sector_to_cluster (fat w) ino offset in
  let old := sector_content (disk w) s in
  let new := take (Z.to_nat (Z.rem offset 512)) old
             ++ take (Z.to_nat size) buffer
             ++ drop (Z.to_nat (Z.rem offset 512 + size)) old in
  ∃ w' w'',
    inode_write_at SECTORS_PER_CLUSTER cluster_to_sector sector_to_cluster
      a buffer size offset w = Some (size, w')
    ∧ disk w' = <[s := new]> (disk w)
    ∧ trace w'
      = trace w ++ (if size =? 512 then [] else [DiskRead s])
        ++ [DiskWrite s new]
    ∧ heap w' = heap w ∧ fat w' = fat w ∧ pool w' = pool w
    ∧ inode_read_at SECTORS_PER_CLUSTER cluster_to_sector sector_to_cluster
        a size offset w' = Some (size, take (Z.to_nat size) buffer, w'').
Proof.
  intros Hino Hdeny Hpool Hoff Hsize Hlen Hsec Hbuf s old new.
  destruct (pool w) as [| bn p] eqn:Hp; [done |].
  assert (Hr : 0 ≤ Z.rem offset 512) by (apply Z.rem_nonneg; lia).
  assert (Hold : length old = 512%nat) by apply length_resize.
  assert (Hnew : length new = 512%nat).
  { unfold new. rewrite !length_app, !length_take, length_drop, Hold. lia. }
  assert (Hrs : resize sector_size 0 new = new)
    by (rewrite <- Hnew at 1; apply resize_all).
  assert (Hsrc : size = 512 →
            take (Z.to_nat size) (drop (Z.to_nat 0) buffer) = new).
  { intros ->. unfold new. replace (Z.rem offset 512) with 0 by lia.
    change (Z.to_nat 0) with 0%nat. rewrite take_0, drop_0.
    rewrite (drop_ge old) by (rewrite Hold; lia). by rewrite app_nil_r. }
  assert (Hfuel : Z.to_nat size ≠ O) by lia.
  unfold inode_write_at. rewrite Hino, Hdeny. cbn [Z.eqb].
  destruct (Z.gtb_spec (offset + size) (inode_length ino)); [lia |].
  rewrite Hino.
  rewrite (write_loop_one_sector ino buffer (Z.to_nat size) size offset 0 w bn p)
    by done.
  fold s. fold old. change (0 + size) with size.
  destruct (Z.eqb_spec size 512) as [E | E].
  - rewrite (Hsrc E). eexists _, _. split; [reflexivity |].
    cbn [free_opt]. world_cbn. rewrite Hrs.
    split; [done |]. split; [done |]. split; [done |]. split; [done |].
    split; [done |].
    unfold inode_read_at. world_cbn. rewrite Hino.
    rewrite (read_loop_one_sector ino (Z.to_nat size) size offset 0 [] _ bn p);
      [| done | done | done | done | done | done].
    world_cbn. fold s. destruct (Z.eqb_spec size 512); [| done].
    cbn [free_opt app]. unfold sector_content. world_cbn.
    rewrite lookup_insert_eq. cbn [default from_option id].
    rewrite !Hrs, <- (Hsrc E). change (Z.to_nat 0) with 0%nat.
    by rewrite drop_0.
  - change (Z.to_nat 0) with 0%nat. rewrite drop_0. fold new.
    eexists _, _. split; [reflexivity |].
    cbn [free_opt]. world_cbn. rewrite Hrs.
    split; [done |]. split; [by rewrite <- app_assoc |].
    split; [done |]. split; [done |]. split; [done |].
    unfold inode_read_at. world_cbn. rewrite Hino.
    rewrite (read_loop_one_sector ino (Z.to_nat size) size offset 0 [] _ bn p);
      [| done | done | done | done | done | done].
    world_cbn. fold s. destruct (Z.eqb_spec size 512); [done |].
    cbn [free_opt app]. unfold sector_content. world_cbn.
    rewrite lookup_insert_eq. cbn [default from_option id].
    rewrite !Hrs. unfold new.
    rewrite drop_app_length' by (rewrite length_take, Hold; lia).
    rewrite take_app_length' by (rewrite length_take; lia).
    reflexivity.
Qed.

(** *** Growth that succeeds, creation that fails *)

Lemma growth_loop_success (a : addr) (ino : inode) (origin_length new_length : Z)
    (fuel : nat) :
  ∀ growth last_clst w w',
    (Z.to_nat (new_length - origin_length - growth) ≤ fuel)%nat →
    growth_loop cluster_to_sector fuel a ino origin_length new_length
      growth last_clst w = (true, w') →
    ∃ cs,
      length cs
      = Z.to_nat ((new_length - origin_length - growth + 511) / 512)
      ∧ appended (fat_length w) last_clst cs (fat w) (fat w')
      ∧ trace w' = trace w ++ alloc_events cluster_to_sector last_clst cs
      ∧ disk w' = zero_filled cluster_to_sector cs (disk w)
      ∧ heap w' = heap w ∧ pool w' = pool w.
Proof.
  clear sector_to_cluster.
  induction fuel as [| fuel IH]; intros growth last_clst w w' Hfuel;
    cbn [growth_loop].
  - destruct (Z.ltb_spec growth (new_length - origin_length)); [lia |].
    intros [= <-]. exists [].
    assert ((new_length - origin_length - growth + 511) / 512 ≤ 0)
      by (Z.to_euclidean_division_equations; lia).
    cbn. rewrite app_nil_r. split; [lia |]. by repeat split.
  - destruct (Z.ltb_spec growth (new_length - origin_length)) as [Hlt | Hge].
    2: { intros [= <-]. exists [].
         assert ((new_length - origin_length - growth + 511) / 512 ≤ 0)
           by (Z.to_euclidean_division_equations; lia).
         cbn. rewrite app_nil_r. split; [lia |]. by repeat split. }
    unfold fat_create_chain.
    destruct (find_free (fat w) (fat_length w)) as [c |] eqn:Hfree.
    2: { rewrite Z.eqb_refl.
         by destruct (Z.rem origin_length DISK_SECTOR_SIZE =? 0). }
    pose proof (find_free_Some _ _ _ Hfree) as [_ Hrange].
    destruct (Z.eqb_spec c 0) as [-> | Hc0]; [lia |].
    intros Hloop.
    assert (Hdiv : (new_length - origin_length - (growth + DISK_SECTOR_SIZE)
                    + 511) / 512 + 1
                   = (new_length - origin_length - growth + 511) / 512).
    { unfold DISK_SECTOR_SIZE. Z.to_euclidean_division_equations. lia. }
    assert (0 < (new_length - origin_length - growth + 511) / 512)
      by (Z.to_euclidean_division_equations; lia).
    apply IH in Hloop as (cs & Hlen & Happ & Htr & Hd & Hh & Hp);
      [| unfold DISK_SECTOR_SIZE; lia].
    exists (c :: cs). cbn [length appended alloc_events].
    split; [rewrite Hlen; lia |].
    split; [split; [done |]; exact Happ |].
    split.
    { rewrite Htr. world_cbn. rewrite resize_zeros. by rewrite <- !app_assoc. }
    split; [rewrite Hd; world_cbn; by rewrite resize_zeros |].
    by split.
Qed.


Lemma create_loop_failure (fuel : nat) :
  ∀ len startclst first start w w',
    create_loop cluster_to_sector fuel len startclst first start w
    = (None, w') →
    ∃ cs,
      512 * Z.of_nat (length cs) ≤ len
      ∧ appended (fat_length w) startclst cs (fat w) (fat w')
      ∧ find_free (fat w') (fat_length w) = None
      ∧ trace w'
        = trace w ++ alloc_events cluster_to_sector startclst cs
          ++ [FatCreateChain (default startclst (last cs)) 0]
      ∧ disk w' = zero_filled cluster_to_sector cs (disk w)
      ∧ heap w' = heap w ∧ pool w' = pool w ∧ open_inodes w' = open_inodes w.
Proof.
  induction fuel as [| fuel IH]; intros len startclst first start w w';
    cbn [create_loop].
  { by destruct (len >=? 0). }
  destruct (Z.geb_spec len 0) as [Hge | Hlt]; [| done].
  unfold fat_create_chain.
  destruct (find_free (fat w) (fat_length w)) as [c |] eqn:Hfree.
  2: { rewrite Z.eqb_refl. intros [= <-]. exists [].
       cbn. split; [lia |]. by repeat split. }
  pose proof (find_free_Some _ _ _ Hfree) as [_ Hrange].
  destruct (Z.eqb_spec c 0) as [-> | Hc0]; [lia |].
  intros Hloop.
  apply IH in Hloop as (cs & Hlen & Happ & Hnone & Htr & Hd & Hh & Hp & Ho).
  exists (c :: cs). cbn [length appended alloc_events].
  split; [unfold DISK_SECTOR_SIZE in Hlen; lia |].
  split; [split; [done |]; exact Happ |].
  split; [done |].
  split.
  { rewrite Htr. world_cbn. rewrite resize_zeros. rewrite <- !app_assoc.
    cbn [app]. do 4 f_equal. rewrite last_cons. by destruct (last cs). }
  split; [rewrite Hd; world_cbn; by rewrite resize_zeros |].
  by repeat split.
Qed.

(** X12: [inode_create] fails in two ways.  Without memory for the record
    it returns false and the machine is as before.  When the allocator
    runs out in the middle of the loop it returns false at once: the
    record is not written, the clusters granted so far (too few for the
    file) stay chained and zero-filled, no chain is released, and the
    memory of the record is not given back. *)
Theorem inode_create_failure (w w' : world) (sec len : Z) :
  inode_create cluster_to_sector sec len w = Some (false, w') →
  0 ≤ len
  ∧ ((pool w = [] ∧ w' = w)
     ∨ ∃ a cs,
         pool w = a :: pool w'
         ∧ 512 * Z.of_nat (length cs) ≤ len
         ∧ appended (fat_length w) 0 cs (fat w) (fat w')
         ∧ find_free (fat w') (fat_length w) = None
         ∧ trace w'
           = trace w ++ alloc_events cluster_to_sector 0 cs
             ++ [FatCreateChain (default 0 (last cs)) 0]
         ∧ disk w' = zero_filled cluster_to_sector cs (disk w)
         ∧ heap w' = heap w).
Proof.
  unfold inode_create.
  destruct (Z.geb_spec len 0) as [Hge | ?]; [| done].
  unfold malloc. destruct (pool w) as [| a p] eqn:Hpool.
  { intros [= <-]. split; [lia |]. by left. }
  destruct (create_loop _ _ _ _ _ _ _) as [[start |] w2] eqn:Hloop; [done |].
  intros [= <-]. split; [lia |]. right.
  apply create_loop_failure in Hloop
    as (cs & Hlen & Happ & Hnone & Htr & Hd & Hh & Hp & Ho).
  exists a, cs. cbn [set_pool pool fat fat_length trace disk heap] in *.
  rewrite Hp. by repeat split.
Qed.

(** *** Closing, creating and opening again *)

(** X15: what the last close writes is what the next open reads.  After
    the last opener of an inode with a well-formed record has closed it,
    removed or not, [inode_open] of its sector reads the sector again and
    returns an inode with the same record, one opener, writes allowed
    and not removed. *)
Theorem inode_close_open (w : world) (a : addr) (ino : inode) :
  wf_world w → heap w !! a = Some ino → open_cnt ino = 1 →
  wf_record (data ino) →
  ∃ w1 a' w2,
    inode_close sector_to_cluster (Some a) w = Some w1
    ∧ inode_open (sector ino) w1 = Some (Some a', w2)
    ∧ heap w2 !! a'
      = Some {| sector := sector ino; open_cnt := 1; removed := false;
                deny_write_cnt := 0; data := data ino |}
    ∧ trace w2
      = trace w ++ last_close_events sector_to_cluster ino
        ++ [DiskRead (sector ino)].
Proof.
  intros (_ & Hreg & Hsec & _) Hino Hc Hd.
  destruct (inode_close_last sector_to_cluster w a ino Hino)
    as (w1 & -> & Hl & Hdisk & Htr & _ & Hh & Hp); [lia |].
  exists w1, a. eexists. split; [done |].
  rewrite (inode_open_unregistered w1 (sector ino) a (pool w)); [| | done].
  2: { intros x ix (Hx & Hix & Hs). rewrite Hh in Hix.
       apply lookup_delete_Some in Hix as [Hne Hix].
       apply Hne. symmetry. by apply (Hsec x a ix ino). }
  split; [reflexivity |]. cbn [heap trace].
  rewrite lookup_insert_eq, Hdisk, lookup_insert_eq, Htr.
  cbn [default from_option id]. rewrite resize_encode_inode_disk.
  unfold fresh_inode. rewrite (decode_encode _ Hd).
  split; [done |]. by rewrite <- app_assoc.
Qed.

(** X16: an inode that [inode_create] has made and that is not open yet
    is opened with the length it was created with, its first data sector
    at the first cluster granted, one opener, writes allowed and not
    removed. *)
Theorem inode_create_open (w w1 : world) (sec len : Z) :
  inode_create cluster_to_sector sec len w = Some (true, w1) →
  len < 2 ^ 31 →
  (∀ a ino, ¬ registered w sec a ino) →
  (∀ c, 1 ≤ c < fat_length w → 0 ≤ cluster_to_sector c < 2 ^ 32) →
  ∃ a w2 first_c ino,
    inode_open sec w1 = Some (Some a, w2)
    ∧ heap w2 !! a = Some ino
    ∧ find_free (fat w) (fat_length w) = Some first_c
    ∧ ino = {| sector := sec; open_cnt := 1; removed := false;
               deny_write_cnt := 0;
               data := created_record (cluster_to_sector first_c) len |}
    ∧ inode_length ino = len ∧ inode_get_inumber ino = sec.
Proof.
  intros Hcreate Hlen Hun Hrange.
  assert (∃ a p, pool w = a :: p) as (a & p & Hpool).
  { unfold inode_create, malloc in Hcreate.
    destruct (len >=? 0); [| done].
    destruct (pool w) as [| a p]; [done | eauto]. }
  apply inode_create_success
    in Hcreate as (Hge & cs & first_c & _ & Hfirst & Happ & _ & Hdisk
                   & Hh & Hp & Ho & _).
  destruct cs as [| c cs]; [done |]. injection Hfirst as ->.
  destruct Happ as [Hfree _].
  destruct (find_free_Some _ _ _ Hfree) as [_ Hc].
  exists a. eexists. exists first_c. eexists.
  rewrite (inode_open_unregistered w1 sec a p);
    [| intros x ix (Hx & Hix & Hs); apply (Hun x ix); unfold registered;
       by rewrite <- Ho, <- Hh
     | by rewrite Hp].
  split; [reflexivity |]. cbn [heap].
  rewrite lookup_insert_eq, Hdisk, lookup_insert_eq.
  cbn [default from_option id]. rewrite resize_encode_inode_disk.
  unfold fresh_inode.
  rewrite decode_encode_created by (try apply Hrange; lia).
  by split_and!.
Qed.

(** *** Giving the clusters back *)

Lemma free_chain_stop (n : nat) (f : gmap Z Z) (c : Z) :
  f !! c = None → free_chain n f c = f.
Proof. intros H. destruct n; cbn [free_chain]; [done |]. by rewrite H. Qed.

Lemma free_chain_chain (cs : list Z) :
  ∀ (n : nat) f c0,
    chain_at f cs → NoDup cs → cs !! 0%nat = Some c0 →
    f !! EOChain = None → (length cs ≤ n)%nat →
    free_chain n f c0 = foldl (λ f c, delete c f) f cs.
Proof.
  clear SECTORS_PER_CLUSTER cluster_to_sector sector_to_cluster.
  induction cs as [| c cs IH]; intros n f c0 Hch Hnd H0 Heo Hn; [done |].
  injection H0 as <-. cbn [length] in Hn.
  destruct n as [| n]; [lia |].
  apply NoDup_cons in Hnd as [Hc Hnd].
  pose proof (Hch 0%nat c eq_refl) as Hc0.
  assert (Hce : c ≠ EOChain) by (intros ->; congruence).
  cbn [free_chain foldl]. rewrite Hc0.
  destruct cs as [| c1 cs].
  - cbn. apply free_chain_stop. by rewrite lookup_delete_ne.
  - cbn. apply IH; [| done | done | by rewrite lookup_delete_ne | lia].
    intros i ci Hi.
    rewrite lookup_delete_ne
      by (intros <-; apply Hc; by eapply list_elem_of_lookup_2).
    exact (Hch (S i) ci Hi).
Qed.

Lemma lookup_foldl_delete (cs : list Z) :
  ∀ (f : gmap Z Z) k,
    foldl (λ f c, delete c f) f cs !! k
    = if decide (k ∈ cs) then None else f !! k.
Proof.
  clear SECTORS_PER_CLUSTER cluster_to_sector sector_to_cluster.
  induction cs as [| c cs IH]; intros f k; cbn [foldl].
  - destruct (decide (k ∈ [])) as [?%elem_of_nil | _]; done.
  - rewrite IH. destruct (decide (k ∈ cs)) as [Hin | Hnin].
    + destruct (decide (k ∈ c :: cs)) as [_ | Hn]; [done |].
      destruct Hn. by right.
    + destruct (decide (k = c)) as [-> | Hne].
      * rewrite lookup_delete_eq.
        destruct (decide (c ∈ c :: cs)) as [_ | Hn]; [done |].
        destruct Hn. left.
      * rewrite lookup_delete_ne by done.
        destruct (decide (k ∈ c :: cs)) as [[? | ?]%elem_of_cons | _]; done.
Qed.

Lemma appended_lookup_other (n : Z) (cs : list Z) :
  ∀ prev f f' k,
    appended n prev cs f f' → k ∉ cs → prev = 0 ∨ k ≠ prev →
    f' !! k = f !! k.
Proof.
  clear SECTORS_PER_CLUSTER cluster_to_sector sector_to_cluster.
  induction cs as [| c cs IH]; intros prev f f' k; cbn [appended].
  - by intros ->.
  - intros [Hfree Happ] Hk Hprev.
    apply not_elem_of_cons in Hk as [Hkc Hk].
    rewrite (IH c _ f' k Happ Hk) by by right.
    unfold link. destruct (Z.eqb_spec prev 0) as [-> | Hne].
    + by rewrite lookup_insert_ne.
    + destruct Hprev as [? | ?]; [done |].
      by rewrite !lookup_insert_ne.
Qed.

Lemma list_remove_absent (a : addr) (l : list addr) :
  a ∉ l → list_remove a l = l.
Proof.
  unfold list_remove. induction l as [| y l IH]; [done |].
  intros [Hne Hl]%not_elem_of_cons.
  rewrite filter_cons_True by done. by rewrite IH.
Qed.

(** X17: a file that is created, opened, removed and closed gives back
    every cluster it took.  When the record's sector is a one-cluster
    chain of its own, the allocation table after the close is the table
    from before the create without the record's cluster, and memory and
    the table of open inodes are as before. *)
Theorem inode_create_remove_close (w w1 : world) (sec len : Z) :
  inode_create cluster_to_sector sec len w = Some (true, w1) →
  len < 2 ^ 31 → wf_world w →
  (∀ a ino, ¬ registered w sec a ino) →
  conversions_ok cluster_to_sector sector_to_cluster (fat_length w) →
  fat w !! sector_to_cluster sec = Some EOChain →
  fat w !! EOChain = None → fat_length w ≤ EOChain →
  ∃ a w2 w3 w4,
    inode_open sec w1 = Some (Some a, w2)
    ∧ inode_remove (Some a) w2 = Some w3
    ∧ inode_close sector_to_cluster (Some a) w3 = Some w4
    ∧ fat w4 = delete (sector_to_cluster sec) (fat w)
    ∧ heap w4 = heap w ∧ pool w4 = pool w ∧ open_inodes w4 = open_inodes w.
Proof.
  intros Hcreate Hlen Hwf Hun Hconv Hrec Heo Hfl.
  destruct Hwf as (_ & Hreg & _ & _ & Hpnd & Hpool).
  assert (∃ a p, pool w = a :: p) as (a & p & Hp0).
  { unfold inode_create, malloc in Hcreate.
    destruct (len >=? 0); [| done].
    destruct (pool w) as [| a p]; [done | eauto]. }
  assert (Hfresh : heap w !! a = None) by (apply Hpool; rewrite Hp0; left).
  assert (Hnin : a ∉ open_inodes w).
  { rewrite Hreg, Hfresh. by intros [? ?]. }
  apply inode_create_success
    in Hcreate as (Hge & cs & first_c & _ & Hfirst & Happ & _ & Hdisk
                   & Hh & Hp & Ho & _).
  destruct (appended_props (fat_length w) cs 0 (fat w) (fat w1) Happ)
    as (Hfree & Hnd & Hch & _ & _ & Hdom); [by left |].
  assert (Hc : 1 ≤ first_c < fat_length w).
  { apply Hfree. by eapply list_elem_of_lookup_2. }
  destruct (Hconv first_c Hc) as [Hs2c Hw32].
  exists a.
  rewrite (inode_open_unregistered w1 sec a p);
    [| intros x ix (Hx & Hix & Hs); apply (Hun x ix); unfold registered;
       by rewrite <- Ho, <- Hh
     | by rewrite Hp].
  match goal with
  | |- ∃ _ _ _, Some (Some a, ?W) = _ ∧ _ => set (w2 := W)
  end.
  set (ino2 := fresh_inode sec
                 (resize sector_size 0 (default [] (disk w1 !! sec)))) in *.
  assert (Hw2 : heap w2 !! a = Some ino2) by apply lookup_insert_eq.
  set (w3 := set_heap (<[a := set_removed true ino2]> (heap w2)) w2).
  assert (Hrm : inode_remove (Some a) w2 = Some w3)
    by (cbn [inode_remove]; by rewrite Hw2).
  destruct (inode_close_last sector_to_cluster w3 a (set_removed true ino2))
    as (w4 & E & Hl4 & _ & _ & Hf4 & Hh4 & Hp4);
    [apply lookup_insert_eq | done |].
  exists w2, w3, w4. split; [done |]. split; [done |]. split; [done |].
  subst w3 w2. cbn [set_heap heap open_inodes pool fat] in Hl4, Hf4, Hh4, Hp4.
  subst ino2.
  split.
  { rewrite Hf4. unfold last_close_fat.
    cbn [set_removed removed sector data fresh_inode].
    rewrite Hdisk, lookup_insert_eq. cbn [default from_option id].
    rewrite resize_encode_inode_disk.
    rewrite decode_encode_created
      by (try lia; rewrite <- Hw32; unfold wrap32;
          apply Z.mod_pos_bound; lia).
    cbn [created_record id_start]. rewrite Hs2c.
    assert (Hrcs : sector_to_cluster sec ∉ cs).
    { intros Hin. destruct (Hfree _ Hin) as [Hnone _]. congruence. }
    assert (Hr1 : fat w1 !! sector_to_cluster sec = Some EOChain).
    { rewrite (appended_lookup_other _ _ _ _ _ _ Happ Hrcs); [done | by left]. }
    assert (Heocs : EOChain ∉ cs).
    { intros Hin. destruct (Hfree _ Hin) as [_ ?]. lia. }
    assert (Heo1 : fat w1 !! EOChain = None).
    { rewrite (appended_lookup_other _ _ _ _ _ _ Happ Heocs); [done | by left]. }
    assert (Hsz : (0 < size (fat w1))%nat).
    { destruct (size (fat w1)) eqn:Hs0; [| lia].
      apply map_size_empty_inv in Hs0. rewrite Hs0 in Hr1. done. }
    destruct (size (fat w1)) as [| n1] eqn:Hs1; [lia |].
    cbn [free_chain]. rewrite Hr1.
    assert (Hd1 : delete (sector_to_cluster sec) (fat w1) !! EOChain = None).
    { destruct (decide (EOChain = sector_to_cluster sec)) as [He | Hne];
        [rewrite He; apply lookup_delete_eq | by rewrite lookup_delete_ne]. }
    rewrite (free_chain_stop n1 _ EOChain Hd1).
    rewrite (free_chain_chain cs _ _ first_c); [| | done | done | done |].
    - apply map_eq. intros k. rewrite lookup_foldl_delete.
      destruct (decide (k ∈ cs)) as [Hkin | Hknin].
      + destruct (Hfree _ Hkin) as [Hnone _].
        destruct (decide (k = sector_to_cluster sec)) as [-> | ?];
          [by rewrite lookup_delete_eq | by rewrite lookup_delete_ne].
      + destruct (decide (k = sector_to_cluster sec)) as [-> | ?];
          [by rewrite !lookup_delete_eq |].
        rewrite !lookup_delete_ne by done.
        apply (appended_lookup_other _ _ _ _ _ _ Happ Hknin). by left.
    - intros i ci Hi. rewrite lookup_delete_ne; [by apply Hch |].
      intros <-. apply Hrcs. by eapply list_elem_of_lookup_2.
    - assert (Hsub : list_to_set cs
                     ⊆ dom (delete (sector_to_cluster sec) (fat w1))).
      { rewrite dom_delete_L, Hdom.
        intros k Hk. apply elem_of_difference. split; [set_solver |].
        apply not_elem_of_singleton. intros ->.
        apply Hrcs. by apply elem_of_list_to_set in Hk. }
      apply subseteq_size in Hsub.
      rewrite size_list_to_set in Hsub by done.
      by rewrite size_dom in Hsub. }
  split.
  { rewrite Hh4, delete_insert_eq, delete_insert_id; by rewrite Hh. }
  split; [rewrite Hp4; by rewrite Hp0 |].
  rewrite Hl4. unfold list_remove.
  rewrite filter_cons_False by (intros H; by apply H).
  rewrite Ho. by apply list_remove_absent.
Qed.

(** X21: a write of zero bytes that starts beyond the end of the file
    still runs the growth: it returns 0, transfers nothing, and when the
    growth succeeds the file is [offset] bytes long. *)
Theorem inode_write_at_empty_grows (w : world) (a : addr) (ino : inode)
    (buffer : list Z) (offset : Z) :
  heap w !! a = Some ino → deny_write_cnt ino = 0 →
  inode_length ino < offset →
  ∃ ok w',
    file_growth SECTORS_PER_CLUSTER cluster_to_sector sector_to_cluster
      a ino offset w = (ok, w')
    ∧ inode_write_at SECTORS_PER_CLUSTER cluster_to_sector sector_to_cluster
        a buffer 0 offset w = Some (0, w')
    ∧ (ok = true → heap w' !! a = Some (set_length offset ino)).
Proof.
  intros Hino Hdeny Hoff.
  destruct (file_growth_effect a ino offset w)
    as (ok & w1 & len1 & E & Hh & _ & _ & _ & Hok & _).
  exists ok, w1. split; [done |]. split.
  - unfold inode_write_at. rewrite Hino, Hdeny, Z.add_0_r, E. cbn [Z.eqb snd].
    destruct (Z.gtb_spec offset (inode_length ino)); [| lia].
    rewrite Hh, lookup_insert_eq. by rewrite write_loop_done.
  - intros Hk. by rewrite Hh, lookup_insert_eq, (Hok Hk).
Qed.

(** *** The transfer loops end by their own test *)

Lemma read_loop_fuel (ino : inode) (fuel1 : nat) :
  ∀ fuel2 size offset bytes_read out bounce w,
    (Z.to_nat size ≤ fuel1)%nat → (Z.to_nat size ≤ fuel2)%nat →
    read_loop SECTORS_PER_CLUSTER cluster_to_sector sector_to_cluster
      fuel1 ino size offset bytes_read out bounce w
    = read_loop SECTORS_PER_CLUSTER cluster_to_sector sector_to_cluster
        fuel2 ino size offset bytes_read out bounce w.
Proof.
  induction fuel1 as [| fuel1 IH];
    intros fuel2 size offset bytes_read out bounce w H1 H2.
  { by rewrite !read_loop_done by lia. }
  destruct fuel2 as [| fuel2]; [by rewrite !read_loop_done by lia |].
  cbn [read_loop]. destruct (Z.gtb_spec size 0) as [Hpos |]; [| done].
  set (sector_ofs := Z.rem offset DISK_SECTOR_SIZE).
  set (sector_left := DISK_SECTOR_SIZE - sector_ofs).
  set (min_left := if inode_length ino - offset <? sector_left
                   then inode_length ino - offset else sector_left).
  set (chunk_size := if size <? min_left then size else min_left).
  destruct (Z.leb_spec chunk_size 0) as [Hle | Hgt]; [done |].
  destruct ((sector_ofs =? 0) && (chunk_size =? DISK_SECTOR_SIZE)).
  - unfold disk_read. apply IH; lia.
  - destruct (get_bounce bounce w) as [[bn |] w1]; [| done].
    unfold disk_read. apply IH; lia.
Qed.

Lemma write_loop_fuel (ino : inode) (buffer : list Z) (fuel1 : nat) :
  ∀ fuel2 size offset bytes_written bounce w,
    (Z.to_nat size ≤ fuel1)%nat → (Z.to_nat size ≤ fuel2)%nat →
    write_loop SECTORS_PER_CLUSTER cluster_to_sector sector_to_cluster
      fuel1 ino buffer size offset bytes_written bounce w
    = write_loop SECTORS_PER_CLUSTER cluster_to_sector sector_to_cluster
        fuel2 ino buffer size offset bytes_written bounce w.
Proof.
  induction fuel1 as [| fuel1 IH];
    intros fuel2 size offset bytes_written bounce w H1 H2.
  { by rewrite !write_loop_done by lia. }
  destruct fuel2 as [| fuel2]; [by rewrite !write_loop_done by lia |].
  cbn [write_loop]. destruct (Z.gtb_spec size 0) as [Hpos |]; [| done].
  set (sector_ofs := Z.rem offset DISK_SECTOR_SIZE).
  set (sector_left := DISK_SECTOR_SIZE - sector_ofs).
  set (min_left := if inode_length ino - offset <? sector_left
                   then inode_length ino - offset else sector_left).
  set (chunk_size := if size <? min_left then size else min_left).
  destruct (Z.leb_spec chunk_size 0) as [Hle | Hgt]; [done |].
  destruct ((sector_ofs =? 0) && (chunk_size =? DISK_SECTOR_SIZE)).
  - apply IH; lia.
  - destruct (get_bounce bounce w) as [[bn |] w1]; [| done].
    destruct ((sector_ofs >? 0) || (chunk_size <? sector_left));
      [unfold disk_read |]; apply IH; lia.
Qed.

(** X22: the loops of [inode_read_at] and [inode_write_at] run at most
    [size] times, since every round transfers at least one byte: they
    stop by their own test, and the outcome is the same for every bound
    on the number of rounds that is at least [size]. *)
Theorem transfer_loops_bounded (ino : inode) (buffer : list Z) (fuel : nat)
    (size offset : Z) (bounce : option addr) (w : world) :
  (Z.to_nat size ≤ fuel)%nat →
  read_loop SECTORS_PER_CLUSTER cluster_to_sector sector_to_cluster
    fuel ino size offset 0 [] bounce w
  = read_loop SECTORS_PER_CLUSTER cluster_to_sector sector_to_cluster
      (Z.to_nat size) ino size offset 0 [] bounce w
  ∧ write_loop SECTORS_PER_CLUSTER cluster_to_sector sector_to_cluster
      fuel ino buffer size offset 0 bounce w
    = write_loop SECTORS_PER_CLUSTER cluster_to_sector sector_to_cluster
        (Z.to_nat size) ino buffer size offset 0 bounce w.
Proof.
  intros H. split; [apply read_loop_fuel | apply write_loop_fuel]; lia.
Qed.

End Further.

(** ** The code at concrete inputs *)

(** C1 (the code at the failing input): the file has 100 bytes in its
    single cluster and the table is full.  Growing it to 1000 bytes fails
    before any cluster is granted, and the rolled-back length is 612, not
    512: offset 600 is below that length, yet its translation leaves the
    chain, to a sector that is neither allocated nor written. *)
Theorem file_growth_unaligned_exhausted :
  let ino := ex_inode 100 1 0 false in
  let w := ex_world ino [] in
  let r := file_growth 1 ex_c2s ex_s2c 1%positive ino 1000 w in
  r.1 = false
  ∧ heap r.2 !! 1%positive = Some (set_length 612 ino)
  ∧ trace r.2 = [FatCreateChain 1 0]
  ∧ fat r.2 = fat w
  ∧ byte_to_sector 1 ex_c2s ex_s2c (fat r.2) (set_length 612 ino) 600
    = ex_c2s EOChain
  ∧ disk r.2 !! ex_c2s EOChain = None
  ∧ fat r.2 !! EOChain = None.
Proof. vm_compute. repeat split. Qed.

(** C2 (counterexample): at the last close of a removed inode the chain of
    the record's sector (cluster 5) is released before the data chain
    (cluster 1), which is not the order of the claim. *)
Lemma inode_close_order_counterexample :
  let ino := ex_inode 100 1 0 true in
  ∃ w',
    inode_close ex_s2c (Some 1%positive) (ex_world ino []) = Some w'
    ∧ trace w'
      = [DiskWrite 105 (encode_inode_disk (data ino));
         FatRemoveChain 5 0; FatRemoveChain 1 0]
    ∧ trace w' ≠ last_close_events_spec ex_s2c ino.
Proof.
  eexists. split; [reflexivity |]. split; [reflexivity |].
  vm_compute. intros H. discriminate H.
Qed.




(** C6 (counterexample): offset 0 of a file of 100 bytes is not beyond the
    length, yet the translation is the sentinel, because the first data
    sector of the inode is sector [0xFFFFFFFF] itself. *)
Lemma byte_to_sector_sentinel_counterexample :
  0 ≤ 0 ∧ ¬ (0 > inode_length ex_last_sector_inode)
  ∧ byte_to_sector 1 ex_c2s ex_s2c ∅ ex_last_sector_inode 0 = SECTOR_NONE.
Proof. vm_compute. repeat split; intros H; discriminate H. Qed.

(** ** The theorems at concrete inputs *)

Lemma ex_conversions_ok : conversions_ok ex_c2s ex_s2c 6.
Proof.
  intros c Hc. unfold ex_s2c, ex_c2s, wrap32.
  split; [lia | apply Z.mod_small; lia].
Defined.

Lemma ex_fresh_unregistered (a : addr) (ino : inode) :
  ¬ registered ex_fresh 105 a ino.
Proof. intros (Hin & _). cbn in Hin. by apply elem_of_nil in Hin. Defined.

Lemma inode_close_spec_witness :
  let w := ex_world (ex_inode 100 1 0 true) [] in
  (∀ a, Some 1%positive = Some a → is_Some (heap w !! a))
  ∧ ∃ w', inode_close ex_s2c (Some 1%positive) w = Some w'
          ∧ heap w' = delete 1%positive (heap w)
          ∧ pool w' = [1%positive].
Proof.
  intros w.
  assert (Hlive : ∀ a, Some 1%positive = Some a → is_Some (heap w !! a)).
  { intros a [= <-]. by eexists. }
  split; [exact Hlive |].
  destruct (inode_close_spec ex_s2c w (Some 1%positive) Hlive)
    as (w' & Hc & ino & Hino & Hpost).
  exists w'. split; [exact Hc |].
  injection Hino as <-. cbn in Hpost.
  destruct Hpost as (_ & _ & _ & _ & _ & Hh & Hp). by split.
Defined.


Lemma write_read_round_trip_witness :
  conversions_ok ex_c2s ex_s2c (fat_length ex_fresh)
  ∧ inode_create ex_c2s 105 700 ex_fresh = Some (true, ex_created)
  ∧ inode_open 105 ex_created = Some (Some 1%positive, ex_opened)
  ∧ inode_write_at 1 ex_c2s ex_s2c 1%positive ex_buffer 700 0 ex_opened
    = Some (700, ex_written)
  ∧ ∃ w4,
      inode_read_at 1 ex_c2s ex_s2c 1%positive 700 0 ex_written
      = Some (700, ex_buffer, w4).
Proof.
  assert (Hc : inode_create ex_c2s 105 700 ex_fresh = Some (true, ex_created))
    by (vm_compute; reflexivity).
  assert (Ho : inode_open 105 ex_created = Some (Some 1%positive, ex_opened))
    by (vm_compute; reflexivity).
  assert (Hw : inode_write_at 1 ex_c2s ex_s2c 1%positive ex_buffer 700 0
                 ex_opened = Some (700, ex_written))
    by (vm_compute; reflexivity).
  split; [exact ex_conversions_ok |].
  split; [exact Hc |]. split; [exact Ho |]. split; [exact Hw |].
  apply (write_read_round_trip 1 ex_c2s ex_s2c ex_fresh ex_created ex_opened
           ex_written 105 700 1%positive ex_buffer);
    [reflexivity | exact ex_conversions_ok | lia | reflexivity
    | exact ex_fresh_unregistered | exact Hc | exact Ho | exact Hw].
Defined.


Lemma byte_to_sector_spec_witness :
  0 ≤ 2600 ∧ 0 < 2
  ∧ byte_to_sector 2 ex2_c2s ex2_s2c ex_chain ex_chain_inode 2600
    = ex2_c2s 3 + 1
  ∧ byte_to_sector 2 ex2_c2s ex2_s2c ex_chain ex_chain_inode 3001
    = SECTOR_NONE.
Proof.
  split; [lia |]. split; [lia |].
  pose proof (byte_to_sector_spec 2 ex2_c2s ex2_s2c ex_chain ex_chain_inode
                2600 ltac:(lia) ltac:(lia)) as H2600.
  pose proof (byte_to_sector_spec 2 ex2_c2s ex2_s2c ex_chain ex_chain_inode
                3001 ltac:(lia) ltac:(lia)) as H3001.
  cbv zeta in H2600, H3001.
  destruct H2600 as (_ & Hin & _). destruct H3001 as (Hout & _ & _).
  split; [rewrite Hin by (cbn; lia); vm_compute; reflexivity
         | apply Hout; cbn; lia].
Defined.


Lemma inode_open_spec_witness :
  (∀ a ino, ¬ registered ex_created 105 a ino)
  ∧ pool ex_created = [1%positive; 2%positive]
  ∧ ∃ w1 w2,
      inode_open 105 ex_created = Some (Some 1%positive, w1)
      ∧ inode_open 105 w1 = Some (Some 1%positive, w2)
      ∧ trace w2 = trace w1.
Proof.
  assert (Hun : ∀ a ino, ¬ registered ex_created 105 a ino).
  { intros a ino (Hin & _). vm_compute in Hin. by apply elem_of_nil in Hin. }
  assert (Hp : pool ex_created = [1%positive; 2%positive])
    by (vm_compute; reflexivity).
  split; [exact Hun |]. split; [exact Hp |].
  destruct (inode_open_spec ex_s2c ex_created 105) as (_ & Hnew & _).
  destruct (Hnew Hun 1%positive [2%positive] Hp) as (w1 & Ho & _ & _ & _ & Hlife).
  destruct (Hlife false) as (w2 & _ & _ & _ & _ & _ & Ho2 & _ & _ & Ht & _).
  by exists w1, w2.
Defined.


Lemma inode_create_units_witness :
  inode_create ex_c2s 105 700 ex_fresh = Some (true, ex_created)
  ∧ conversions_ok ex_c2s ex_s2c (fat_length ex_fresh)
  ∧ ∃ cs first_c last_c,
      Z.of_nat (length cs) = 700 / DISK_SECTOR_SIZE + 1
      ∧ cs !! 0%nat = Some first_c ∧ last cs = Some last_c
      ∧ ex_s2c (byte_to_sector 1 ex_c2s ex_s2c (fat ex_created)
                  {| sector := 105; open_cnt := 1; removed := false;
                     deny_write_cnt := 0;
                     data := created_record (ex_c2s first_c) 700 |} 700)
        = last_c.
Proof.
  assert (Hc : inode_create ex_c2s 105 700 ex_fresh = Some (true, ex_created))
    by (vm_compute; reflexivity).
  split; [exact Hc |]. split; [exact ex_conversions_ok |].
  destruct (inode_create_units 1 ex_c2s ex_s2c ex_fresh ex_created 105 700 Hc)
    as (_ & cs & first_c & last_c & Hlen & Hfirst & Hlast & _ & _ & _ & _
        & _ & _ & _ & Hslack).
  exists cs, first_c, last_c.
  split; [exact Hlen |]. split; [exact Hfirst |]. split; [exact Hlast |].
  apply (Hslack eq_refl ex_conversions_ok). reflexivity.
Defined.

(** ** The further properties at concrete inputs *)

Lemma ex_world_wf (ino : inode) (p : list addr) :
  1 ≤ open_cnt ino → NoDup p → 1%positive ∉ p → wf_world (ex_world ino p).
Proof.
  intros Hc Hnd Hp. unfold wf_world. cbn [ex_world open_inodes heap pool].
  split; [apply NoDup_singleton |]. split.
  { intros a. rewrite list_elem_of_singleton, lookup_singleton_is_Some.
    split; by intros ->. }
  split.
  { intros a b ia ib [<- _]%lookup_singleton_Some [<- _]%lookup_singleton_Some.
    done. }
  split; [by intros a i [_ <-]%lookup_singleton_Some |].
  split; [done |].
  intros a Ha. apply lookup_singleton_None. by intros <-.
Defined.

Lemma wf_world_empty (w : world) :
  heap w = ∅ → open_inodes w = [] → NoDup (pool w) → wf_world w.
Proof.
  intros Hh Ho Hp. unfold wf_world. rewrite Hh, Ho.
  split; [constructor |]. split.
  { intros a. rewrite lookup_empty. split; [by intros ?%elem_of_nil |].
    by intros [? ?]. }
  split; [intros a b ia ib Ha; by rewrite lookup_empty in Ha |].
  split; [intros a i Ha; by rewrite lookup_empty in Ha |].
  split; [done |]. intros a _. apply lookup_empty.
Defined.

Lemma ex_pool_NoDup : NoDup [2%positive; 3%positive].
Proof. compute_done. Defined.

Lemma ex_pool_fresh : 1%positive ∉ [2%positive; 3%positive].
Proof. compute_done. Defined.

Lemma ex_created_wf : wf_world ex_created.
Proof.
  apply wf_world_empty; [by vm_compute | by vm_compute |].
  compute_done.
Defined.

Lemma inode_open_wf_witness :
  wf_world ex_created
  ∧ inode_open 105 ex_created = Some (Some 1%positive, ex_opened)
  ∧ wf_world ex_opened
  ∧ ∃ ino, registered ex_opened 105 1%positive ino
      ∧ inode_get_inumber ino = 105.
Proof.
  assert (E : inode_open 105 ex_created = Some (Some 1%positive, ex_opened))
    by (vm_compute; reflexivity).
  split; [exact ex_created_wf |]. split; [exact E |].
  exact (inode_open_wf ex_created ex_opened 105 (Some 1%positive)
           ex_created_wf E).
Defined.

Lemma inode_close_wf_witness :
  let ino := ex_inode 100 1 0 false in
  let w := ex_world ino [2%positive; 3%positive] in
  wf_world w ∧ heap w !! 1%positive = Some ino
  ∧ ∃ w', inode_close ex_s2c (Some 1%positive) w = Some w' ∧ wf_world w'
      ∧ open_inodes w' = [] ∧ heap w' !! 1%positive = None
      ∧ pool w' = [1%positive; 2%positive; 3%positive].
Proof.
  intros ino w.
  assert (Hwf : wf_world w)
    by (apply ex_world_wf; [cbn; lia | exact ex_pool_NoDup | exact ex_pool_fresh]).
  split; [exact Hwf |]. split; [reflexivity |].
  destruct (inode_close ex_s2c (Some 1%positive) w) as [w' |] eqn:E;
    [| vm_compute in E; discriminate E].
  exists w'. split; [reflexivity |].
  destruct (inode_close_wf ex_s2c w w' 1%positive ino Hwf eq_refl E)
    as (Hwf' & _ & Hlast & _).
  destruct Hlast as (_ & Hh & Hp & _); [reflexivity |].
  split; [exact Hwf' |].
  split; [| split; [exact Hh | exact Hp]].
  assert (Ho : Some (open_inodes w')
               = open_inodes <$> inode_close ex_s2c (Some 1%positive) w)
    by (by rewrite E).
  vm_compute in Ho. by injection Ho.
Defined.

Lemma inode_flags_frame_witness :
  let w := ex_world (ex_inode 100 1 0 false) [2%positive; 3%positive] in
  wf_world w
  ∧ ∃ w', inode_deny_write 1%positive w = Some w'
      ∧ wf_world w' ∧ disk w' = disk w ∧ trace w' = trace w.
Proof.
  intros w.
  assert (Hwf : wf_world w)
    by (apply ex_world_wf; [cbn; lia | exact ex_pool_NoDup | exact ex_pool_fresh]).
  split; [exact Hwf |].
  destruct (inode_deny_write 1%positive w) as [w' |] eqn:E;
    [| vm_compute in E; discriminate E].
  exists w'. split; [reflexivity |].
  destruct (inode_flags_frame w w' 1%positive Hwf)
    as (H1 & H2 & _ & H3 & _); [right; right; by left |].
  split; [exact H1 |]. split; [exact H2 | exact H3].
Defined.

Lemma inode_init_spec_witness :
  heap ex_fresh = ∅ ∧ pool ex_fresh = [1%positive; 2%positive]
  ∧ wf_world (inode_init ex_fresh)
  ∧ ∃ w', inode_open 105 (inode_init ex_fresh) = Some (Some 1%positive, w')
      ∧ open_inodes w' = [1%positive].
Proof.
  split; [reflexivity |]. split; [reflexivity |].
  destruct (inode_init_spec ex_fresh 105 1%positive [2%positive] eq_refl)
    as (Hwf & w' & E & Ho & _);
    [compute_done | reflexivity |].
  split; [exact Hwf |]. by exists w'.
Defined.

Lemma inode_open_close_id_witness :
  let ino := ex_inode 100 1 0 false in
  let w := ex_world ino [2%positive; 3%positive] in
  wf_world w ∧ registered w 105 1%positive ino
  ∧ ∃ w1, inode_open 105 w = Some (Some 1%positive, w1)
      ∧ inode_close ex_s2c (Some 1%positive) w1 = Some w.
Proof.
  intros ino w.
  assert (Hwf : wf_world w)
    by (apply ex_world_wf; [cbn; lia | exact ex_pool_NoDup | exact ex_pool_fresh]).
  assert (Hreg : registered w 105 1%positive ino)
    by (split; [left | split; reflexivity]).
  split; [exact Hwf |]. split; [exact Hreg |].
  exact (inode_open_close_id ex_s2c w 105 1%positive ino Hwf Hreg).
Defined.

Lemma inode_deny_allow_id_witness :
  let ino := ex_inode 100 1 0 false in
  let w := ex_world ino [] in
  heap w !! 1%positive = Some ino
  ∧ 0 ≤ deny_write_cnt ino < open_cnt ino
  ∧ ∃ w1, inode_deny_write 1%positive w = Some w1
      ∧ inode_allow_write 1%positive w1 = Some w.
Proof.
  intros ino w.
  assert (Hc : 0 ≤ deny_write_cnt ino < open_cnt ino) by (cbn; lia).
  split; [reflexivity |]. split; [exact Hc |].
  exact (inode_deny_allow_id w 1%positive ino eq_refl Hc).
Defined.

Lemma inode_read_at_nothing_witness :
  let ino := ex_inode 100 1 0 false in
  let w := ex_world ino [] in
  heap w !! 1%positive = Some ino ∧ inode_length ino ≤ 100
  ∧ inode_read_at 1 ex_c2s ex_s2c 1%positive 10 100 w = Some (0, [], w).
Proof.
  intros ino w.
  assert (Hlen : inode_length ino ≤ 100) by (cbn; lia).
  split; [reflexivity |]. split; [exact Hlen |].
  exact (inode_read_at_nothing 1 ex_c2s ex_s2c w 1%positive ino 10 100
           eq_refl (or_intror Hlen)).
Defined.


Lemma inode_read_at_effect_witness :
  let ino := ex_inode 100 1 0 false in
  let w := ex_world ino [2%positive; 3%positive] in
  heap w !! 1%positive = Some ino
  ∧ ∃ n out w',
      inode_read_at 1 ex_c2s ex_s2c 1%positive 20 10 w = Some (n, out, w')
      ∧ 0 ≤ n ≤ 20 ∧ disk w' = disk w ∧ pool w' = pool w.
Proof.
  intros ino w. split; [reflexivity |].
  destruct (inode_read_at_effect 1 ex_c2s ex_s2c w 1%positive ino 20 10
              eq_refl)
    as (n & out & w' & evs & E & Hn & _ & _ & Hd & _ & _ & _ & Hp & _);
    [lia |].
  exists n, out, w'. split; [exact E |]. split; [lia |]. by split.
Defined.

Lemma inode_write_read_one_sector_witness :
  let ino := ex_inode 700 1 0 false in
  let w := ex_world ino [2%positive; 3%positive] in
  heap w !! 1%positive = Some ino ∧ deny_write_cnt ino = 0
  ∧ 10 + 20 ≤ inode_length ino ∧ Z.rem 10 512 + 20 ≤ 512
  ∧ (Z.to_nat 20 ≤ length ex_buffer)%nat
  ∧ ∃ w' w'',
      inode_write_at 1 ex_c2s ex_s2c 1%positive ex_buffer 20 10 w
      = Some (20, w')
      ∧ inode_read_at 1 ex_c2s ex_s2c 1%positive 20 10 w'
        = Some (20, take 20 ex_buffer, w'').
Proof.
  intros ino w.
  assert (H1 : 10 + 20 ≤ inode_length ino) by (cbn; lia).
  assert (H2 : Z.rem 10 512 + 20 ≤ 512)
    by (change (Z.rem 10 512) with 10; lia).
  assert (H3 : (Z.to_nat 20 ≤ length ex_buffer)%nat) by (vm_compute; lia).
  split; [reflexivity |]. split; [reflexivity |]. split; [exact H1 |].
  split; [exact H2 |]. split; [exact H3 |].
  destruct (inode_write_read_one_sector 1 ex_c2s ex_s2c w 1%positive ino
              ex_buffer 20 10 eq_refl eq_refl)
    as (w' & w'' & Hw & _ & _ & _ & _ & _ & Hr);
    [done | lia | lia | exact H1 | exact H2 | exact H3 |].
  by exists w', w''.
Defined.


Lemma inode_create_failure_witness :
  ∃ w' cs,
    inode_create ex_c2s 105 2100 ex_fresh = Some (false, w')
    ∧ pool ex_fresh = 1%positive :: pool w'
    ∧ 512 * Z.of_nat (length cs) ≤ 2100
    ∧ appended 6 0 cs (fat ex_fresh) (fat w')
    ∧ find_free (fat w') 6 = None.
Proof.
  destruct (inode_create ex_c2s 105 2100 ex_fresh) as [[ok w'] |] eqn:E;
    [| vm_compute in E; discriminate E].
  assert (ok = false) as ->.
  { assert (H : fst <$> inode_create ex_c2s 105 2100 ex_fresh = Some ok)
      by (rewrite E; reflexivity).
    vm_compute in H. by injection H as <-. }
  destruct (inode_create_failure ex_c2s ex_fresh w' 105 2100 E)
    as (_ & [[Hp _] | (a & cs & Hp & Hlen & Happ & Hnone & _)]);
    [discriminate Hp |].
  exists w', cs. split; [reflexivity |].
  split; [injection Hp as <- <-; reflexivity |]. by repeat split.
Defined.

Lemma ex_record_wf : wf_record (created_record 101 700).
Proof.
  unfold wf_record, created_record. cbn [id_start id_length id_magic id_unused].
  split; [lia |]. split; [lia |]. split; [unfold INODE_MAGIC; lia |].
  split; [apply length_replicate |]. apply Forall_replicate. lia.
Defined.

Lemma inode_disk_decode_encode_witness :
  wf_record (created_record 101 700)
  ∧ decode_inode_disk (encode_inode_disk (created_record 101 700))
    = created_record 101 700.
Proof.
  split; [exact ex_record_wf |].
  exact (proj2 (inode_disk_decode_encode _ ex_record_wf)).
Defined.

Lemma zeros_is_sector : is_sector zeros.
Proof. split; [reflexivity |]. apply Forall_replicate. lia. Defined.

Lemma inode_disk_encode_decode_witness :
  is_sector zeros ∧ encode_inode_disk (decode_inode_disk zeros) = zeros.
Proof.
  split; [exact zeros_is_sector |].
  exact (proj2 (inode_disk_encode_decode zeros zeros_is_sector)).
Defined.

Lemma inode_close_open_witness :
  let ino := ex_inode 700 1 1 true in
  let w := ex_world ino [2%positive; 3%positive] in
  wf_world w ∧ heap w !! 1%positive = Some ino ∧ wf_record (data ino)
  ∧ ∃ w1 a' w2,
      inode_close ex_s2c (Some 1%positive) w = Some w1
      ∧ inode_open 105 w1 = Some (Some a', w2)
      ∧ heap w2 !! a'
        = Some {| sector := 105; open_cnt := 1; removed := false;
                  deny_write_cnt := 0; data := data ino |}.
Proof.
  intros ino w.
  assert (Hwf : wf_world w)
    by (apply ex_world_wf; [cbn; lia | exact ex_pool_NoDup | exact ex_pool_fresh]).
  split; [exact Hwf |]. split; [reflexivity |].
  split; [exact ex_record_wf |].
  destruct (inode_close_open ex_s2c w 1%positive ino Hwf eq_refl eq_refl
              ex_record_wf)
    as (w1 & a' & w2 & Hc & Ho & Hh & _).
  by exists w1, a', w2.
Defined.

Lemma ex_sectors_fit (c : Z) : 1 ≤ c < fat_length ex_fresh → 0 ≤ ex_c2s c < 2 ^ 32.
Proof. cbn. unfold ex_c2s. lia. Defined.

Lemma ex_create : inode_create ex_c2s 105 700 ex_fresh = Some (true, ex_created).
Proof. vm_compute. reflexivity. Defined.

Lemma inode_create_open_witness :
  inode_create ex_c2s 105 700 ex_fresh = Some (true, ex_created)
  ∧ ∃ a w2 ino,
      inode_open 105 ex_created = Some (Some a, w2)
      ∧ heap w2 !! a = Some ino
      ∧ inode_length ino = 700 ∧ id_start (data ino) = ex_c2s 1.
Proof.
  split; [exact ex_create |].
  destruct (inode_create_open ex_c2s ex_fresh ex_created 105 700 ex_create)
    as (a & w2 & first_c & ino & Ho & Hh & Hf & Hino & Hlen & _);
    [lia | exact ex_fresh_unregistered | exact ex_sectors_fit |].
  exists a, w2, ino. split; [exact Ho |]. split; [exact Hh |].
  split; [exact Hlen |].
  vm_compute in Hf. injection Hf as <-. by rewrite Hino.
Defined.

Lemma inode_create_remove_close_witness :
  inode_create ex_c2s 105 700 ex_fresh = Some (true, ex_created)
  ∧ wf_world ex_fresh
  ∧ fat ex_fresh !! ex_s2c 105 = Some EOChain
  ∧ ∃ a w2 w3 w4,
      inode_open 105 ex_created = Some (Some a, w2)
      ∧ inode_remove (Some a) w2 = Some w3
      ∧ inode_close ex_s2c (Some a) w3 = Some w4
      ∧ fat w4 = delete (ex_s2c 105) (fat ex_fresh)
      ∧ pool w4 = pool ex_fresh.
Proof.
  assert (Hwf : wf_world ex_fresh).
  { apply wf_world_empty; [reflexivity | reflexivity |].
    compute_done. }
  split; [exact ex_create |]. split; [exact Hwf |]. split; [reflexivity |].
  destruct (inode_create_remove_close ex_c2s ex_s2c ex_fresh ex_created 105
              700 ex_create)
    as (a & w2 & w3 & w4 & Ho & Hr & Hc & Hf & _ & Hp & _);
    [lia | exact Hwf | exact ex_fresh_unregistered | exact ex_conversions_ok
     | reflexivity | reflexivity | cbn; unfold EOChain; lia |].
  by exists a, w2, w3, w4.
Defined.

Lemma byte_to_sector_contiguous_extent_witness :
  let ino := ex_inode 700 1 0 false in
  id_start (data ino) + bytes_to_sectors (inode_length ino) < 2 ^ 32
  ∧ byte_to_sector_contiguous ino 600 = 102
  ∧ byte_to_sector_contiguous ino 700 = SECTOR_NONE.
Proof.
  intros ino.
  assert (H : id_start (data ino) + bytes_to_sectors (inode_length ino)
              < 2 ^ 32) by (vm_compute; reflexivity).
  split; [exact H |].
  split.
  - destruct (byte_to_sector_contiguous_extent ino 600) as [Hin _];
      [lia | cbn; lia | exact H |].
    destruct Hin as [-> _]; [cbn; lia |]. reflexivity.
  - destruct (byte_to_sector_contiguous_extent ino 700) as [_ Hout];
      [lia | cbn; lia | exact H |].
    apply Hout. cbn. lia.
Defined.

Lemma VM_TYPE_markers_witness :
  0 ≤ VM_ANON < 8 ∧ Z.land VM_MARKER_0 7 = 0
  ∧ VM_TYPE VM_STACK = VM_ANON ∧ VM_AUXTYPE VM_STACK = VM_MARKER_0.
Proof.
  assert (Hb : 0 ≤ VM_ANON < 8) by (unfold VM_ANON; lia).
  split; [exact Hb |]. split; [reflexivity |].
  exact (VM_TYPE_markers VM_ANON VM_MARKER_0 Hb eq_refl).
Defined.

Lemma inode_write_at_empty_grows_witness :
  let ino := {| sector := 105; open_cnt := 1; removed := false;
                deny_write_cnt := 0; data := created_record 101 700 |} in
  heap ex_opened !! 1%positive = Some ino
  ∧ inode_length ino < 1500
  ∧ ∃ ok w',
      inode_write_at 1 ex_c2s ex_s2c 1%positive [] 0 1500 ex_opened
      = Some (0, w')
      ∧ (ok = true → heap w' !! 1%positive = Some (set_length 1500 ino)).
Proof.
  intros ino.
  assert (Hino : heap ex_opened !! 1%positive = Some ino)
    by (vm_compute; reflexivity).
  assert (Hlen : inode_length ino < 1500) by (cbn; lia).
  split; [exact Hino |]. split; [exact Hlen |].
  destruct (inode_write_at_empty_grows 1 ex_c2s ex_s2c ex_opened 1%positive
              ino [] 1500 Hino eq_refl Hlen)
    as (ok & w' & _ & Hw & Hok).
  by exists ok, w'.
Defined.

Lemma transfer_loops_bounded_witness :
  let ino := ex_inode 700 1 0 false in
  let w := ex_world ino [2%positive; 3%positive] in
  (Z.to_nat 20 ≤ 1000)%nat
  ∧ read_loop 1 ex_c2s ex_s2c 1000 ino 20 10 0 [] None w
    = read_loop 1 ex_c2s ex_s2c (Z.to_nat 20) ino 20 10 0 [] None w.
Proof.
  intros ino w. assert (H : (Z.to_nat 20 ≤ 1000)%nat) by lia.
  split; [exact H |].
  exact (proj1 (transfer_loops_bounded 1 ex_c2s ex_s2c ino [] 1000 20 10
                  None w H)).
Defined.
